(** * proglog: the store, the index and the segment of the commit log

    A shallow embedding of [internal/log] (store.go, index.go, segment.go)
    and the properties of its specification, followed by [internal/server]
    (the in-memory log, the HTTP handlers and the gRPC server) and further
    properties of both packages.

    Conventions.
    - Go's [uint64], [uint32], [int64] and [int] values are integers in [Z];
      every conversion and every arithmetic operation that can wrap is
      written with [Go.uint64], [Go.uint32] or [Go.int64].
    - A byte slice is a [list byte].  Slicing [b[lo:hi]] is bounds-checked
      as in Go; a failed check is the outcome [Panic].
    - A Go function returning [(v, error)] returns an [outcome]: [Ok v],
      [Err e] or [Panic].  Methods with a pointer receiver return the
      receiver's new state next to the outcome. *)

From Stdlib Require Import String DecimalString ZArith List Lia Bool.
From coqutil Require Import Byte.
Import ListNotations.
Local Open Scope Z_scope.

(** ** Go values *)

Module Go.

Definition uint64 (z : Z) : Z := z mod 2 ^ 64.
Definition uint32 (z : Z) : Z := z mod 2 ^ 32.
(** Two's complement reinterpretation, [int64(x)]; [int] is 64 bits wide. *)
Definition int64 (z : Z) : Z := (z + 2 ^ 63) mod 2 ^ 64 - 2 ^ 63.
Definition int (z : Z) : Z := int64 z.

Definition len {A : Type} (l : list A) : Z := Z.of_nat (length l).

(** [b[lo:hi]]: [None] is the run-time panic "slice bounds out of range". *)
Definition slice {A : Type} (b : list A) (lo hi : Z) : option (list A) :=
  if (0 <=? lo) && (lo <=? hi) && (hi <=? len b)
  then Some (firstn (Z.to_nat (hi - lo)) (skipn (Z.to_nat lo) b))
  else None.

(** A slice shares its backing array.  [splice b lo w] is the array [b]
    after the sub-slice starting at [lo] has been overwritten with [w]. *)
Definition splice {A : Type} (b : list A) (lo : Z) (w : list A) : list A :=
  firstn (Z.to_nat lo) b ++ w ++ skipn (Z.to_nat lo + length w) b.

(** [make([]byte, n)]: [n] zero bytes. *)
Definition make (n : Z) : list byte := repeat Byte.x00 (Z.to_nat n).

End Go.

Inductive error : Type :=
| EOF                    (* io.EOF *)
| ErrNegativeOffset      (* os: negative offset *)
| ErrInvalidArgument     (* EINVAL from truncate or mmap *)
| ErrWriter (code : nat) (* an I/O error held by the buffered writer *)
| ErrProto (code : nat). (* an error of the record codec *)

Inductive outcome (A : Type) : Type :=
| Ok (a : A)
| Err (e : error)
| Panic.
Arguments Ok {A} a.
Arguments Err {A} e.
Arguments Panic {A}.

(** ** encoding/binary, big endian ([enc] of store.go) *)

Module enc.

Definition at_ (b : list byte) (k : nat) : Z := byte.unsigned (nth k b Byte.x00).

(** [_ = b[3]; uint32(b[3]) | uint32(b[2])<<8 | uint32(b[1])<<16 | uint32(b[0])<<24] *)
Definition Uint32 (b : list byte) : option Z :=
  if 4 <=? Go.len b then
    Some (Z.lor (Z.lor (Z.lor (at_ b 3) (Z.shiftl (at_ b 2) 8))
                       (Z.shiftl (at_ b 1) 16))
                (Z.shiftl (at_ b 0) 24))
  else None.

Definition Uint64 (b : list byte) : option Z :=
  if 8 <=? Go.len b then
    Some (Z.lor (Z.lor (Z.lor (Z.lor (Z.lor (Z.lor (Z.lor
            (at_ b 7) (Z.shiftl (at_ b 6) 8)) (Z.shiftl (at_ b 5) 16))
            (Z.shiftl (at_ b 4) 24)) (Z.shiftl (at_ b 3) 32))
            (Z.shiftl (at_ b 2) 40)) (Z.shiftl (at_ b 1) 48))
            (Z.shiftl (at_ b 0) 56))
  else None.

(** [_ = b[3]; b[0] = byte(v >> 24); b[1] = byte(v >> 16); b[2] = byte(v >> 8);
    b[3] = byte(v)]: the slice after the call. *)
Definition PutUint32 (b : list byte) (v : Z) : option (list byte) :=
  if 4 <=? Go.len b then
    Some ([byte.of_Z (Z.shiftr v 24); byte.of_Z (Z.shiftr v 16);
           byte.of_Z (Z.shiftr v 8); byte.of_Z v] ++ skipn 4 b)
  else None.

Definition PutUint64 (b : list byte) (v : Z) : option (list byte) :=
  if 8 <=? Go.len b then
    Some ([byte.of_Z (Z.shiftr v 56); byte.of_Z (Z.shiftr v 48);
           byte.of_Z (Z.shiftr v 40); byte.of_Z (Z.shiftr v 32);
           byte.of_Z (Z.shiftr v 24); byte.of_Z (Z.shiftr v 16);
           byte.of_Z (Z.shiftr v 8); byte.of_Z v] ++ skipn 8 b)
  else None.

End enc.

(** The reading of a byte string as a big-endian number, and the [n]-byte
    big-endian representation of a number; the encoding functions above are
    compared with these. *)
Definition be_value (bs : list byte) : Z :=
  fold_left (fun acc b => acc * 256 + byte.unsigned b) bs 0.

Fixpoint be_bytes (n : nat) (v : Z) : list byte :=
  match n with
  | O => []
  | S n' => be_bytes n' (v / 256) ++ [byte.of_Z v]
  end.

(** ** Configuration and records *)

(** Modelled from the spec: the [Config] struct (config.go is not part of the
    sources).  Section 6 lists [Segment.MaxStoreBytes], [Segment.MaxIndexBytes]
    and [Segment.InitialOffset]; the code compares the first two with [uint64]
    sizes. *)
Record SegmentConfig : Type := {
  MaxStoreBytes : Z;
  MaxIndexBytes : Z;
  InitialOffset : Z
}.

(** Modelled from the spec: [Config], with its one group of settings. *)
Record Config : Type := { Segment : SegmentConfig }.

Module api.

(** Modelled from the spec: the [api.Record] message (api/v1 is not part of
    the sources).  Section 3: an opaque byte payload [value] plus an
    [offset], a 64-bit unsigned integer. *)
Record Record_ : Type := { Value : list byte; Offset : Z }.

Definition set_Offset (r : Record_) (o : Z) : Record_ :=
  {| Value := Value r; Offset := o |}.

End api.

(** ** store.go *)

Module store.

Definition lenWidth : Z := 8.

(** [bufio.Writer]: the bytes accepted by [Write] and not yet handed to the
    file, and the writer's sticky error.  The writer hands bytes to the file
    when its buffer fills up and on [Flush]; the model keeps them in
    [buffered] until [Flush].  The file contents followed by the buffered
    bytes are the same either way, and every read of the file is preceded by
    a [Flush].  A failed write of the underlying file is a writer whose
    [err] is set: from then on every [Write] and [Flush] returns it. *)
Record Writer : Type := { buffered : list byte; err : option error }.

Definition NewWriter : Writer := {| buffered := []; err := None |}.

Definition Writer_Write (w : Writer) (p : list byte) : Writer * outcome Z :=
  match err w with
  | Some e => (w, Err e)
  | None => ({| buffered := buffered w ++ p; err := None |}, Ok (Go.len p))
  end.

(** The store: the file (opened with O_APPEND, so that every write lands at
    its end), the buffered writer and the size.  The mutex is not modelled:
    the embedding is sequential. *)
Record t : Type := { File : list byte; buf : Writer; size : Z }.

Definition newStore (f : list byte) : outcome t :=
  let size := Go.uint64 (Go.len f) in
  Ok {| File := f; size := size; buf := NewWriter |}.

Definition Append (s : t) (p : list byte) : t * outcome (Z * Z) :=
  let pos := size s in
  (* binary.Write(s.buf, enc, uint64(len(p))) *)
  match enc.PutUint64 (Go.make 8) (Go.uint64 (Go.len p)) with
  | None => (s, Panic)
  | Some bs =>
      match Writer_Write (buf s) bs with
      | (w1, Panic) => ({| File := File s; buf := w1; size := size s |}, Panic)
      | (w1, Err e) => ({| File := File s; buf := w1; size := size s |}, Err e)
      | (w1, Ok _) =>
          match Writer_Write w1 p with
          | (w2, Panic) => ({| File := File s; buf := w2; size := size s |}, Panic)
          | (w2, Err e) => ({| File := File s; buf := w2; size := size s |}, Err e)
          | (w2, Ok w) =>
              let w := Go.int (w + lenWidth) in
              ({| File := File s; buf := w2;
                  size := Go.uint64 (size s + Go.uint64 w) |},
               Ok (Go.uint64 w, pos))
          end
      end
  end.

Definition Flush (s : t) : t * outcome unit :=
  match err (buf s) with
  | Some e => (s, Err e)
  | None =>
      ({| File := File s ++ buffered (buf s); buf := NewWriter; size := size s |},
       Ok tt)
  end.

(** [ReadAt(b, off)] of [os.File]: the buffer [b] filled from the file, or an
    error when the offset is negative or fewer than [len(b)] bytes follow
    it.  Nothing is read into an empty buffer. *)
Definition File_ReadAt (f : list byte) (b : list byte) (off : Z)
  : outcome (list byte) :=
  if off <? 0 then Err ErrNegativeOffset
  else if Go.len b =? 0 then Ok b
  else match Go.slice f off (off + Go.len b) with
       | Some bs => Ok bs
       | None => Err EOF
       end.

(** [make([]byte, n)] panics when [n] does not fit an [int]; memory itself is
    not bounded in the model. *)
Definition Read (s : t) (pos : Z) : t * outcome (list byte) :=
  match Flush s with
  | (s1, Panic) => (s1, Panic)
  | (s1, Err e) => (s1, Err e)
  | (s1, Ok _) =>
      let size := Go.make lenWidth in
      match File_ReadAt (File s1) size (Go.int64 pos) with
      | Panic => (s1, Panic)
      | Err e => (s1, Err e)
      | Ok size =>
          match enc.Uint64 size with
          | None => (s1, Panic)
          | Some n =>
              if 2 ^ 63 <=? n then (s1, Panic)
              else
                let b := Go.make n in
                match File_ReadAt (File s1) b
                        (Go.int64 (Go.uint64 (pos + lenWidth))) with
                | Panic => (s1, Panic)
                | Err e => (s1, Err e)
                | Ok b => (s1, Ok b)
                end
          end
      end
  end.

(** [ReadAt(b, off)] of [os.File] with all it returns: the bytes that the
    file holds from [off] on are copied over the head of [b], their number is
    returned, and reading fewer than [len(b)] of them is the error
    [io.EOF]. *)
Definition File_ReadAt_n (f : list byte) (b : list byte) (off : Z)
  : list byte * Z * outcome unit :=
  if off <? 0 then (b, 0, Err ErrNegativeOffset)
  else
    let got := firstn (length b) (skipn (Z.to_nat off) f) in
    (got ++ skipn (length got) b, Go.len got,
     if Go.len got <? Go.len b then Err EOF else Ok tt).

(** [ReadAt] returns the store, the caller's buffer after the call, the
    number of bytes read and the error. *)
Definition ReadAt (s : t) (p : list byte) (off : Z)
  : t * list byte * Z * outcome unit :=
  match Flush s with
  | (s1, Ok _) =>
      let '(p', n, e) := File_ReadAt_n (File s1) p off in (s1, p', n, e)
  | (s1, Err e) => (s1, p, 0, Err e)
  | (s1, Panic) => (s1, p, 0, Panic)
  end.

(** [Close]: the contents of the file once the writer has been flushed. *)
Definition Close (s : t) : outcome (list byte) :=
  match Flush s with
  | (_, Panic) => Panic
  | (_, Err e) => Err e
  | (s1, Ok _) => Ok (File s1)
  end.

End store.

(** ** index.go *)

Module index.

Definition offWidth : Z := 4.
Definition posWidth : Z := 8.
Definition entWidth : Z := Go.uint64 (offWidth + posWidth).

(** The index: the memory map, which is the whole index file shared with the
    kernel, and the number of bytes in use. *)
Record t : Type := { mmap : list byte; size : Z }.

(** [os.Truncate(name, n)]: the file cut or zero-extended to [n] bytes. *)
Definition Truncate (f : list byte) (n : Z) : list byte :=
  firstn (Z.to_nat n) f ++ repeat Byte.x00 (Z.to_nat n - length f).

(** [newIndex(f, c)] for an index file with contents [f].  [os.Truncate]
    rejects a negative length and [mmap] rejects an empty mapping; other
    failures of the file system are not modelled.  [gommap.Map] maps the
    whole file, whose length is then [MaxIndexBytes]. *)
Definition newIndex (f : list byte) (c : Config) : outcome t :=
  let size := Go.uint64 (Go.len f) in
  let n := Go.int64 (MaxIndexBytes (Segment c)) in
  if n <? 0 then Err ErrInvalidArgument
  else
    let f' := Truncate f n in
    if Go.len f' =? 0 then Err ErrInvalidArgument
    else Ok {| mmap := f'; size := size |}.

Definition Read (i : t) (in_ : Z) : outcome (Z * Z) :=
  if size i =? 0 then Err EOF
  else
    let out :=
      if in_ =? -1 then Go.uint32 (Go.uint64 (size i / entWidth - 1))
      else Go.uint32 in_ in
    let pos := Go.uint64 (Go.uint64 out * entWidth) in
    if size i <? Go.uint64 (pos + entWidth) then Err EOF
    else
      match Go.slice (mmap i) pos (Go.uint64 (pos + offWidth)) with
      | None => Panic
      | Some b1 =>
          match enc.Uint32 b1 with
          | None => Panic
          | Some out =>
              match Go.slice (mmap i) (Go.uint64 (pos + offWidth))
                      (Go.uint64 (pos + entWidth)) with
              | None => Panic
              | Some b2 =>
                  match enc.Uint64 b2 with
                  | None => Panic
                  | Some pos => Ok (out, pos)
                  end
              end
          end
      end.

Definition Write (i : t) (off pos : Z) : t * outcome unit :=
  if Go.uint64 (Go.len (mmap i)) <? Go.uint64 (size i + entWidth)
  then (i, Err EOF)
  else
    match Go.slice (mmap i) (size i) (Go.uint64 (size i + offWidth)) with
    | None => (i, Panic)
    | Some b1 =>
        match enc.PutUint32 b1 off with
        | None => (i, Panic)
        | Some b1' =>
            let m1 := Go.splice (mmap i) (size i) b1' in
            match Go.slice m1 (Go.uint64 (size i + offWidth))
                    (Go.uint64 (size i + entWidth)) with
            | None => ({| mmap := m1; size := size i |}, Panic)
            | Some b2 =>
                match enc.PutUint64 b2 pos with
                | None => ({| mmap := m1; size := size i |}, Panic)
                | Some b2' =>
                    let m2 := Go.splice m1 (Go.uint64 (size i + offWidth)) b2' in
                    ({| mmap := m2; size := Go.uint64 (size i + Go.uint64 entWidth) |},
                     Ok tt)
                end
            end
        end
    end.

(** [Close]: the contents of the index file after the map has been synced
    and the file truncated to [size]. *)
Definition Close (i : t) : outcome (list byte) :=
  if Go.int64 (size i) <? 0 then Err ErrInvalidArgument
  else Ok (Truncate (mmap i) (Go.int64 (size i))).

End index.

(** ** segment.go *)

Module segment.

Record t : Type := {
  store : store.t;
  index : index.t;
  baseOffset : Z;
  nextOffset : Z;
  config : Config
}.

(** A directory: the contents of the files it holds, by name. *)
Definition Dir : Type := string -> option (list byte).

(** [fmt.Sprintf("%d%s", baseOffset, ext)] *)
Definition fileName (baseOffset : Z) (ext : string) : string :=
  (NilZero.string_of_uint (N.to_uint (Z.to_N baseOffset)) ++ ext)%string.

(** [os.OpenFile] with [O_CREATE]: a missing file is created empty. *)
Definition OpenFile (dir : Dir) (name : string) : list byte :=
  match dir name with
  | Some f => f
  | None => []
  end.

Definition newSegment (dir : Dir) (baseOffset : Z) (c : Config) : outcome t :=
  let storeFile := OpenFile dir (fileName baseOffset ".store") in
  match store.newStore storeFile with
  | Panic => Panic
  | Err e => Err e
  | Ok st =>
      let indexFile := OpenFile dir (fileName baseOffset ".index") in
      match index.newIndex indexFile c with
      | Panic => Panic
      | Err e => Err e
      | Ok ix =>
          match index.Read ix (-1) with
          | Panic => Panic
          | Err _ =>
              Ok {| store := st; index := ix; baseOffset := baseOffset;
                    nextOffset := baseOffset; config := c |}
          | Ok (off, _) =>
              Ok {| store := st; index := ix; baseOffset := baseOffset;
                    nextOffset := Go.uint64 (baseOffset + Go.uint64 off + 1);
                    config := c |}
          end
      end
  end.

Definition IsMaxed (s : t) : bool :=
  (MaxStoreBytes (Segment (config s)) <=? store.size (store s))
  || (MaxIndexBytes (Segment (config s)) <=? index.size (index s)).

(** [Close]: the contents of the index file and of the store file after
    both have been closed. *)
Definition Close (s : t) : outcome (list byte * list byte) :=
  match index.Close (index s) with
  | Panic => Panic
  | Err e => Err e
  | Ok indexFile =>
      match store.Close (store s) with
      | Panic => Panic
      | Err e => Err e
      | Ok storeFile => Ok (indexFile, storeFile)
      end
  end.

(** [os.Remove]: the directory without the file.  The files of an open
    segment exist, [newSegment] has created them; failures of the file
    system are not modelled. *)
Definition os_Remove (dir : Dir) (name : string) : Dir :=
  fun n => if String.eqb n name then None else dir n.

(** [Remove]: the directory after the segment has been closed and its two
    files have been removed, under the names [newSegment] opened them with.
    When [Close] fails, its error is returned and nothing is removed. *)
Definition Remove (dir : Dir) (s : t) : outcome Dir :=
  match Close s with
  | Panic => Panic
  | Err e => Err e
  | Ok _ =>
      Ok (os_Remove (os_Remove dir (fileName (baseOffset s) ".index"))
            (fileName (baseOffset s) ".store"))
  end.

Definition nearestMultiple (j k : Z) : outcome Z :=
  if k =? 0 then Panic (* integer divide by zero *)
  else if 0 <=? j then Ok (Go.uint64 (j / k * k))
  else Ok (Go.uint64 (Go.uint64 (Go.uint64 (j - k) + 1) / k * k)).

Section WithCodec.

(** [proto.Marshal] and [proto.Unmarshal] at [api.Record], from the
    protobuf library. *)
Variable Marshal : api.Record_ -> outcome (list byte).
Variable Unmarshal : list byte -> outcome api.Record_.

(** [Append] writes the offset into the caller's record; the record after
    the call is returned with the segment. *)
Definition Append (s : t) (record : api.Record_)
  : t * api.Record_ * outcome Z :=
  let cur := nextOffset s in
  let record := api.set_Offset record cur in
  match Marshal record with
  | Panic => (s, record, Panic)
  | Err e => (s, record, Err e)
  | Ok p =>
      let (st, r) := store.Append (store s) p in
      let s1 := {| store := st; index := index s; baseOffset := baseOffset s;
                   nextOffset := nextOffset s; config := config s |} in
      match r with
      | Panic => (s1, record, Panic)
      | Err e => (s1, record, Err e)
      | Ok (_, pos) =>
          let (ix, r) :=
            index.Write (index s1)
              (Go.uint32 (Go.uint64 (nextOffset s1 - Go.uint64 (baseOffset s1))))
              pos in
          let s2 := {| store := st; index := ix; baseOffset := baseOffset s;
                       nextOffset := nextOffset s; config := config s |} in
          match r with
          | Panic => (s2, record, Panic)
          | Err e => (s2, record, Err e)
          | Ok _ =>
              ({| store := st; index := ix; baseOffset := baseOffset s;
                  nextOffset := Go.uint64 (nextOffset s + 1);
                  config := config s |},
               record, Ok cur)
          end
      end
  end.

(** When [proto.Unmarshal] fails, [Read] returns its error; the partly
    decoded record returned with it is left out. *)
Definition Read (s : t) (off : Z) : t * outcome api.Record_ :=
  match index.Read (index s)
          (Go.int64 (Go.uint64 (off - baseOffset s))) with
  | Panic => (s, Panic)
  | Err e => (s, Err e)
  | Ok (_, pos) =>
      let (st, r) := store.Read (store s) pos in
      let s1 := {| store := st; index := index s; baseOffset := baseOffset s;
                   nextOffset := nextOffset s; config := config s |} in
      match r with
      | Panic => (s1, Panic)
      | Err e => (s1, Err e)
      | Ok p => (s1, Unmarshal p)
      end
  end.

(** A run of appends: the segment after them and what each returned. *)
Fixpoint appends (s : t) (records : list api.Record_)
  : t * list (outcome Z) :=
  match records with
  | [] => (s, [])
  | r :: rest =>
      let '(s1, _, o) := Append s r in
      let (s2, os) := appends s1 rest in
      (s2, o :: os)
  end.

End WithCodec.

End segment.

(** The offsets returned by the successful calls of a run. *)
Fixpoint successes (os : list (outcome Z)) : list Z :=
  match os with
  | [] => []
  | Ok o :: rest => o :: successes rest
  | _ :: rest => successes rest
  end.

(** ** The record codec *)

(** Modelled from the spec: the wire format of a record (section 6: a
    schema-based encoding with two fields, [value] (bytes) and [offset] (u64)).
    The generated code of api/v1 is not part of the sources; this is the
    protocol-buffers encoding of [message Record { bytes value = 1; uint64
    offset = 2; }]: field 1 as tag [0x0a], length varint and payload, field 2
    as tag [0x10] and varint, a field holding its zero value being left out.
    The theorems about the segment hold for every codec; this one instantiates
    them. *)

Module wire.

(** Modelled from the spec: the base-128 varint of [v], low seven bits
    first, every byte but the last with its high bit set. *)
Fixpoint put_varint (fuel : nat) (v : Z) : list byte :=
  match fuel with
  | O => []
  | S fuel' =>
      if v <? 128 then [byte.of_Z v]
      else byte.of_Z (Z.lor (Z.land v 127) 128) :: put_varint fuel' (Z.shiftr v 7)
  end.

(** Modelled from the spec: the varint at the head of [b] and the bytes
    after it. *)
Fixpoint get_varint (fuel : nat) (b : list byte) : option (Z * list byte) :=
  match fuel, b with
  | S fuel', c :: rest =>
      let x := byte.unsigned c in
      if x <? 128 then Some (x, rest)
      else
        match get_varint fuel' rest with
        | Some (v, rest') => Some (Z.lor (Z.land x 127) (Z.shiftl v 7), rest')
        | None => None
        end
  | _, _ => None
  end.

(** A 64-bit varint takes at most ten bytes. *)
Definition maxVarintLen : nat := 10.

Definition tagValue : byte := Byte.x0a.
Definition tagOffset : byte := Byte.x10.

(** Modelled from the spec: [proto.Marshal] of a record. *)
Definition Marshal (r : api.Record_) : outcome (list byte) :=
  Ok ((match api.Value r with
       | [] => []
       | v => tagValue :: put_varint maxVarintLen (Go.len v) ++ v
       end)
      ++ (if api.Offset r =? 0 then []
          else tagOffset :: put_varint maxVarintLen (api.Offset r))).

(** Modelled from the spec: the fields of an encoded record, read one after
    the other into [r]; a later field replaces an earlier one. *)
Fixpoint fields (fuel : nat) (b : list byte) (r : api.Record_)
  : outcome api.Record_ :=
  match b with
  | [] => Ok r
  | tag :: rest =>
      match fuel with
      | O => Err (ErrProto 0)
      | S fuel' =>
          match get_varint maxVarintLen rest with
          | None => Err (ErrProto 1)
          | Some (n, rest') =>
              if Byte.eqb tag tagValue then
                if n <=? Go.len rest' then
                  fields fuel' (skipn (Z.to_nat n) rest')
                    {| api.Value := firstn (Z.to_nat n) rest';
                       api.Offset := api.Offset r |}
                else Err (ErrProto 2)
              else if Byte.eqb tag tagOffset then
                fields fuel' rest'
                  {| api.Value := api.Value r; api.Offset := Go.uint64 n |}
              else Err (ErrProto 3)
          end
      end
  end.

(** Modelled from the spec: [proto.Unmarshal] into an empty record. *)
Definition Unmarshal (b : list byte) : outcome api.Record_ :=
  fields (length b) b {| api.Value := []; api.Offset := 0 |}.

End wire.

(** ** Reading the data structures *)

(** The [n] bytes of [b] that start at [lo]. *)
Definition bytes_at (b : list byte) (lo : Z) (n : nat) : list byte :=
  firstn n (skipn (Z.to_nat lo) b).

(** Entry number [k] of an index map: the relative offset held in its first
    four bytes and the position held in the next eight, at [12 * k]. *)
Definition entry (m : list byte) (k : Z) : Z * Z :=
  (be_value (bytes_at m (12 * k) 4), be_value (bytes_at m (12 * k + 4) 8)).

(** The entry number that [index.Read] looks up for the argument [n]: the
    argument, or for [-1] the number of whole entries less one, cut to 32
    bits. *)
Definition entry_number (size n : Z) : Z :=
  if n =? -1 then (size / 12 - 1) mod 2 ^ 32 else n mod 2 ^ 32.

(** [index.Read] as section 4.2 describes it, with the argument itself as the
    entry number. *)
Definition Read_as_specified (i : index.t) (n : Z) : Prop :=
  (index.size i = 0 -> index.Read i n = Err EOF) /\
  (index.size i <> 0 -> n = -1 ->
   index.Read i n = Ok (entry (index.mmap i) (index.size i / 12 - 1))) /\
  (index.size i <> 0 -> n <> -1 -> (n + 1) * 12 > index.size i ->
   index.Read i n = Err EOF) /\
  (index.size i <> 0 -> n <> -1 -> (n + 1) * 12 <= index.size i ->
   index.Read i n = Ok (entry (index.mmap i) n)).

(** The bytes of the store in the order they were appended: the file followed
    by what the writer still holds. *)
Definition contents (s : store.t) : list byte :=
  store.File s ++ store.buffered (store.buf s).

(** A store in working order: the writer holds no error, [size] is the length
    of the contents, and the contents stay below the largest file offset. *)
Definition store_ok (s : store.t) : Prop :=
  store.err (store.buf s) = None
  /\ store.size s = Go.len (contents s)
  /\ store.size s < 2 ^ 63.

(** The store after [p] has been appended. *)
Definition store_after (st : store.t) (p : list byte) : store.t :=
  {| store.File := store.File st;
     store.buf := {| store.buffered :=
                       (store.buffered (store.buf st)
                        ++ be_bytes 8 (Go.len p)) ++ p;
                     store.err := None |};
     store.size := store.size st + (Go.len p + 8) |}.

(** ** What a segment holds *)

(** The segment's bookkeeping of section 4.3: the distance from the base
    offset to the next offset, in [uint64] arithmetic, is the number of index
    entries. *)
Definition bookkeeping (s : segment.t) : Prop :=
  Go.uint64 (segment.nextOffset s - segment.baseOffset s)
  = index.size (segment.index s) / 12.

(** Every [uint64] field of the segment holds a [uint64], and the length of
    the index map fits an [int]. *)
Definition in_range (s : segment.t) : Prop :=
  0 <= segment.baseOffset s < 2 ^ 64
  /\ 0 <= segment.nextOffset s < 2 ^ 64
  /\ 0 <= index.size (segment.index s) < 2 ^ 64
  /\ Go.len (index.mmap (segment.index s)) < 2 ^ 63.

(** The invariants that sections 4.1 to 4.3 state for the store, the index
    and the segment: the store is in working order, [size] of the index is a
    multiple of 12 within the map, and the bookkeeping holds. *)
Definition well_formed (s : segment.t) : Prop :=
  in_range s
  /\ store_ok (segment.store s)
  /\ index.size (segment.index s) mod 12 = 0
  /\ index.size (segment.index s) <= Go.len (index.mmap (segment.index s))
  /\ bookkeeping s.

Section Representation.

Variable Unmarshal : list byte -> outcome api.Record_.

(** Record number [k] of the segment is [r]: entry [k] of the index holds
    [uint32(k)] and a position, and at that position the store holds a
    length prefix and as many bytes, which decode to [r]. *)
Definition holds_record (s : segment.t) (k : Z) (r : api.Record_) : Prop :=
  exists pos p,
    entry (index.mmap (segment.index s)) k = (k mod 2 ^ 32, pos)
    /\ 0 <= pos
    /\ pos + 8 + Go.len p <= Go.len (contents (segment.store s))
    /\ bytes_at (contents (segment.store s)) pos (8 + length p)
       = be_bytes 8 (Go.len p) ++ p
    /\ Unmarshal p = Ok r.

(** The segment holds the records [rs], in this order. *)
Record represents (s : segment.t) (rs : list api.Record_) : Prop := {
  rep_store : store_ok (segment.store s);
  rep_size : index.size (segment.index s) = 12 * Go.len rs;
  rep_room : 12 * Go.len rs <= Go.len (index.mmap (segment.index s)) < 2 ^ 63;
  rep_base : 0 <= segment.baseOffset s < 2 ^ 64;
  rep_next : segment.nextOffset s
             = (segment.baseOffset s + Go.len rs) mod 2 ^ 64;
  rep_records : forall k r, nth_error rs k = Some r ->
                            holds_record s (Z.of_nat k) r
}.

End Representation.

Section Codec.

Variable Marshal : api.Record_ -> outcome (list byte).
Variable Unmarshal : list byte -> outcome api.Record_.

(** The codec encodes [r] at every offset in at most [B] bytes and decodes
    it again. *)
Definition encodable (B : Z) (r : api.Record_) : Prop :=
  forall o, 0 <= o < 2 ^ 64 ->
            exists p, Marshal (api.set_Offset r o) = Ok p
                      /\ Unmarshal p = Ok (api.set_Offset r o)
                      /\ Go.len p <= B.

End Codec.

(** ** Sample configurations and states *)

Definition config_of (maxStore maxIndex initial : Z) : Config :=
  {| Segment := {| MaxStoreBytes := maxStore; MaxIndexBytes := maxIndex;
                   InitialOffset := initial |} |}.

(** An index of one entry, (7, 9), in a map of twelve bytes. *)
Definition index_one_entry : index.t :=
  {| index.mmap := [Byte.x00; Byte.x00; Byte.x00; Byte.x07;
                    Byte.x00; Byte.x00; Byte.x00; Byte.x00;
                    Byte.x00; Byte.x00; Byte.x00; Byte.x09];
     index.size := 12 |}.

(** An empty index with room for two entries. *)
Definition index_empty_24 : index.t :=
  {| index.mmap := repeat Byte.x00 24; index.size := 0 |}.

(** A store on a new file. *)
Definition store_empty : store.t :=
  {| store.File := []; store.buf := store.NewWriter; store.size := 0 |}.

(** A directory without files, and a directory that holds the index file of
    the segment with the given base offset. *)
Definition dir_empty : segment.Dir := fun _ => None.

Definition dir_with_index (baseOffset : Z) (f : list byte) : segment.Dir :=
  fun name =>
    if String.eqb name (segment.fileName baseOffset ".index") then Some f
    else None.

(** Opening a segment as section 4.3 describes it: the segment is opened,
    with the base offset as next offset when the index file is empty, and
    otherwise one past the relative offset of the last entry. *)
Definition opened_as_specified (dir : segment.Dir) (baseOffset : Z) (c : Config)
  : Prop :=
  let f := segment.OpenFile dir (segment.fileName baseOffset ".index") in
  exists s,
    segment.newSegment dir baseOffset c = Ok s
    /\ (Go.len f = 0 -> segment.nextOffset s = baseOffset)
    /\ (Go.len f <> 0 ->
        segment.nextOffset s
        = Go.uint64 (baseOffset + fst (entry f (Go.len f / 12 - 1)) + 1)).

(** The segment that [newSegment] opens when the index file is no longer
    than the map, but for its next offset. *)
Definition opened (dir : segment.Dir) (baseOffset : Z) (c : Config) (next : Z)
  : segment.t :=
  let fs := segment.OpenFile dir (segment.fileName baseOffset ".store") in
  let f := segment.OpenFile dir (segment.fileName baseOffset ".index") in
  {| segment.store :=
       {| store.File := fs; store.buf := store.NewWriter;
          store.size := Go.uint64 (Go.len fs) |};
     segment.index :=
       {| index.mmap :=
            f ++ repeat Byte.x00 (Z.to_nat (MaxIndexBytes (Segment c)) - length f);
          index.size := Go.len f |};
     segment.baseOffset := baseOffset;
     segment.nextOffset := next;
     segment.config := c |}.

(** The segment that [newSegment] opens in a directory without files. *)
Definition segment_fresh (baseOffset : Z) (c : Config) : segment.t :=
  {| segment.store :=
       {| store.File := []; store.buf := store.NewWriter; store.size := 0 |};
     segment.index :=
       {| index.mmap := repeat Byte.x00 (Z.to_nat (MaxIndexBytes (Segment c)));
          index.size := 0 |};
     segment.baseOffset := baseOffset;
     segment.nextOffset := baseOffset;
     segment.config := c |}.

(** The records of a run of successful appends as the segment holds them:
    each with the offset it was given, starting from [next]. *)
Fixpoint stamp (next : Z) (records : list api.Record_) : list api.Record_ :=
  match records with
  | [] => []
  | r :: rest => api.set_Offset r next :: stamp (Go.uint64 (next + 1)) rest
  end.

(** Sample records: "hello", "world", "a" and "b". *)
Definition rec_hello : api.Record_ :=
  {| api.Value := [Byte.x68; Byte.x65; Byte.x6c; Byte.x6c; Byte.x6f];
     api.Offset := 0 |}.

Definition rec_world : api.Record_ :=
  {| api.Value := [Byte.x77; Byte.x6f; Byte.x72; Byte.x6c; Byte.x64];
     api.Offset := 0 |}.

Definition rec_a : api.Record_ := {| api.Value := [Byte.x61]; api.Offset := 0 |}.

Definition rec_b : api.Record_ := {| api.Value := [Byte.x62]; api.Offset := 0 |}.

(** The configuration of scenario S1 of the specification, and the index
    file of a segment with base offset 5 that holds two entries. *)
Definition config_1024 : Config := config_of 1024 1024 0.

Definition dir_two_entries : segment.Dir :=
  dir_with_index 5 (be_bytes 4 0 ++ be_bytes 8 0 ++ be_bytes 4 1 ++ be_bytes 8 17).

(** A configuration with the index limit of scenario S1 and a store limit
    of one GiB, and the segment after 85 appends of "hello" to a new segment:
    85 entries take 1020 of the 1024 bytes of the index. *)
Definition config_index_1024 : Config := config_of (2 ^ 30) 1024 0.

Definition segment_85 : segment.t :=
  fst (segment.appends wire.Marshal (segment_fresh 0 config_index_1024)
         (repeat rec_hello 85)).

(** A new segment after one append of "hello", with room for two index
    entries; if the process stops here without closing the index, the index
    file stays as it is mapped. *)
Definition segment_one_of_two : segment.t :=
  fst (fst (segment.Append wire.Marshal (segment_fresh 0 (config_of 1024 24 0))
              rec_hello)).

(** A list of offsets without gaps: each is one more than the one before. *)
Definition gap_free (offsets : list Z) : Prop :=
  forall i a b,
    nth_error offsets i = Some a -> nth_error offsets (S i) = Some b -> b = a + 1.

(** A configuration whose index has room for [2 ^ 32 + 1] entries. *)
Definition config_cap : Config := config_of (2 ^ 62) (12 * (2 ^ 32 + 1)) 0.

(** A directory that holds the two files of the segment with the given base
    offset. *)
Definition dir_with_files (baseOffset : Z) (indexFile storeFile : list byte)
  : segment.Dir :=
  fun name =>
    if String.eqb name (segment.fileName baseOffset ".index") then Some indexFile
    else if String.eqb name (segment.fileName baseOffset ".store")
         then Some storeFile
         else None.

(** * The servers on top of the log *)

(** The result of a call in package server: a value, an error of type [E],
    or a panic. *)
Inductive result (E A : Type) : Type :=
| Done (a : A)
| Failed (e : E)
| Crashed.
Arguments Done {E A} a.
Arguments Failed {E A} e.
Arguments Crashed {E A}.

(** The line feed that [fmt.Fprintln] and [json.Encoder] end their output
    with. *)
Definition newline : string := String (Ascii.ascii_of_nat 10) EmptyString.

(** ** The in-memory log and the HTTP handlers (log.go and http.go of
    package server) *)

Module server.

Record Record_ : Type := { Value : list byte; Offset : Z }.

(** The log; the mutex is not modelled, the embedding is sequential. *)
Record Log : Type := { records : list Record_ }.

(** [ErrOffsetNotFound], and the errors of the JSON decoder and encoder
    with their messages. *)
Inductive error : Type :=
| ErrOffsetNotFound
| ErrJSON (msg : string).

Definition Error (e : error) : string :=
  match e with
  | ErrOffsetNotFound => "offset not found"
  | ErrJSON msg => msg
  end.

Definition NewLog : Log := {| records := [] |}.

(** The record is passed by value: the caller's copy keeps its offset. *)
Definition Append (c : Log) (record : Record_) : Log * result error Z :=
  let record := {| Value := Value record;
                   Offset := Go.uint64 (Go.len (records c)) |} in
  ({| records := records c ++ [record] |}, Done (Offset record)).

(** [c.records[offset]] panics when the index is out of range. *)
Definition Read (c : Log) (offset : Z) : result error Record_ :=
  if Go.uint64 (Go.len (records c)) <=? offset then Failed ErrOffsetNotFound
  else
    match nth_error (records c) (Z.to_nat offset) with
    | Some r => Done r
    | None => Crashed
    end.

Record ProduceRequest : Type := { ProduceRequest_Record : Record_ }.
Record ProduceResponse : Type := { ProduceResponse_Offset : Z }.
Record ConsumeRequest : Type := { ConsumeRequest_Offset : Z }.
Record ConsumeResponse : Type := { ConsumeResponse_Record : Record_ }.

Record httpServer : Type := { httpServer_Log : Log }.

Definition newHTTPServer : httpServer := {| httpServer_Log := NewLog |}.

(** [http.ResponseWriter]: the status code, zero as long as the header has
    not been written, and the body written so far.  The header fields are
    not modelled, and a write to the client does not fail. *)
Record ResponseWriter : Type := { status : Z; body : string }.

Definition StatusOK : Z := 200.
Definition StatusBadRequest : Z := 400.
Definition StatusNotFound : Z := 404.
Definition StatusInternalServerError : Z := 500.

(** The first [WriteHeader] counts; a [Write] before it is a response with
    status 200. *)
Definition WriteHeader (w : ResponseWriter) (code : Z) : ResponseWriter :=
  if status w =? 0 then {| status := code; body := body w |} else w.

Definition Write (w : ResponseWriter) (data : string) : ResponseWriter :=
  {| status := status (WriteHeader w StatusOK);
     body := (body w ++ data)%string |}.

(** [http.Error(w, msg, code)]: the header with [code], then the message
    and a line feed. *)
Definition http_Error (w : ResponseWriter) (msg : string) (code : Z)
  : ResponseWriter :=
  Write (WriteHeader w code) (msg ++ newline)%string.

Section Handlers.

(** encoding/json for the four messages: what [Decode] reads from a request
    body, and the text that [Encode] produces, which it writes followed by
    a line feed. *)
Variable decodeProduce : string -> result error ProduceRequest.
Variable decodeConsume : string -> result error ConsumeRequest.
Variable encodeProduce : ProduceResponse -> result error string.
Variable encodeConsume : ConsumeResponse -> result error string.

(** A handler takes the server, the response writer and the body of the
    request, and returns the server and the response writer after the
    call; a panic is a writer without response. *)
Definition handleProduce (s : httpServer) (w : ResponseWriter) (r : string)
  : httpServer * option ResponseWriter :=
  match decodeProduce r with
  | Crashed => (s, None)
  | Failed err => (s, Some (http_Error w (Error err) StatusBadRequest))
  | Done req =>
      let (log, res) := Append (httpServer_Log s) (ProduceRequest_Record req) in
      let s := {| httpServer_Log := log |} in
      match res with
      | Crashed => (s, None)
      | Failed err => (s, Some (http_Error w (Error err) StatusInternalServerError))
      | Done off =>
          let res := {| ProduceResponse_Offset := off |} in
          match encodeProduce res with
          | Crashed => (s, None)
          | Failed err =>
              (s, Some (http_Error w (Error err) StatusInternalServerError))
          | Done text => (s, Some (Write w (text ++ newline)%string))
          end
      end
  end.

Definition handleConsume (s : httpServer) (w : ResponseWriter) (r : string)
  : httpServer * option ResponseWriter :=
  match decodeConsume r with
  | Crashed => (s, None)
  | Failed err => (s, Some (http_Error w (Error err) StatusBadRequest))
  | Done req =>
      match Read (httpServer_Log s) (ConsumeRequest_Offset req) with
      | Crashed => (s, None)
      | Failed err =>
          match err with
          | ErrOffsetNotFound =>
              (s, Some (http_Error w (Error err) StatusNotFound))
          | _ => (s, Some (http_Error w (Error err) StatusInternalServerError))
          end
      | Done record =>
          let res := {| ConsumeResponse_Record := record |} in
          match encodeConsume res with
          | Crashed => (s, None)
          | Failed err =>
              (s, Some (http_Error w (Error err) StatusInternalServerError))
          | Done text => (s, Some (Write w (text ++ newline)%string))
          end
      end
  end.

End Handlers.

End server.

(** ** The gRPC server (server.go of package server) *)

Module grpc.

(** [CommitLog]: the log behind the server, with states [L], errors [E]
    and records [R], the values of type [*api.Record]. *)
Class CommitLog (L E R : Type) : Type := {
  Append : L -> R -> L * result E Z;
  Read : L -> Z -> L * result E R
}.

(** The messages of api/v1 as the server uses them. *)
Record ProduceRequest (R : Type) : Type := { ProduceRequest_Record : R }.
Record ProduceResponse : Type := { ProduceResponse_Offset : Z }.
Record ConsumeRequest : Type := { ConsumeRequest_Offset : Z }.
Record ConsumeResponse (R : Type) : Type := { ConsumeResponse_Record : R }.
Arguments ProduceRequest_Record {R} _.
Arguments ConsumeResponse_Record {R} _.

(** The sending side of a stream: the messages sent so far, and the number
    of further messages that the stream takes before [Send] fails with
    [send_err]. *)
Record Outbox (E Out : Type) : Type := {
  sent : list Out;
  room : nat;
  send_err : E
}.
Arguments sent {E Out} _.
Arguments room {E Out} _.
Arguments send_err {E Out} _.

Definition Send {E Out : Type} (o : Outbox E Out) (m : Out)
  : Outbox E Out * option E :=
  match room o with
  | O => (o, Some (send_err o))
  | S n => ({| sent := sent o ++ [m]; room := n; send_err := send_err o |}, None)
  end.

Section Server.

Context {L E R : Type} {log : CommitLog L E R}.

(** The type switch on [api.ErrOffsetOutOfRange]. *)
Variable isOffsetOutOfRange : E -> bool.

Definition Produce (l : L) (req : ProduceRequest R)
  : L * result E ProduceResponse :=
  match Append l (ProduceRequest_Record req) with
  | (l1, Done offset) => (l1, Done {| ProduceResponse_Offset := offset |})
  | (l1, Failed err) => (l1, Failed err)
  | (l1, Crashed) => (l1, Crashed)
  end.


(** [ProduceStream] on a stream whose receiving side holds the requests
    [inbox] and then returns [recv_err] from [Recv], which is [io.EOF] when
    the client has closed the stream. *)
Fixpoint ProduceStream (l : L) (inbox : list (ProduceRequest R)) (recv_err : E)
         (out : Outbox E ProduceResponse)
  : L * Outbox E ProduceResponse * result E unit :=
  match inbox with
  | [] => (l, out, Failed recv_err)
  | req :: rest =>
      match Produce l req with
      | (l1, Crashed) => (l1, out, Crashed)
      | (l1, Failed err) => (l1, out, Failed err)
      | (l1, Done res) =>
          match Send out res with
          | (out1, Some err) => (l1, out1, Failed err)
          | (out1, None) => ProduceStream l1 rest recv_err out1
          end
      end
  end.


End Server.

End grpc.

(** A run of successful appends to the log behind the server: the records,
    the offsets returned for them and the log after the run. *)
Inductive appended {L E R : Type} {log : grpc.CommitLog L E R}
  : L -> list R -> list Z -> L -> Prop :=
| appended_nil (l : L) : appended l [] [] l
| appended_cons (l l1 l2 : L) (r : R) (rs : list R) (o : Z) (os : list Z) :
    grpc.Append l r = (l1, Done o) ->
    appended l1 rs os l2 ->
    appended l (r :: rs) (o :: os) l2.

(** A log in a list, as a [CommitLog] for the examples; its one error,
    [true], is the offset out of range. *)
Definition list_log : grpc.CommitLog (list api.Record_) bool api.Record_ :=
  {| grpc.Append := fun l r =>
       (l ++ [api.set_Offset r (Go.len l)], Done (Go.len l));
     grpc.Read := fun l off =>
       (l, match nth_error l (Z.to_nat off) with
           | Some r => Done r
           | None => Failed true
           end) |}.

(** The log in a list with room for [cap] records: [Append] to a full log
    fails with the error [false]. *)
Definition capped_log (cap : Z)
  : grpc.CommitLog (list api.Record_) bool api.Record_ :=
  {| grpc.Append := fun l r =>
       if Go.len l <? cap
       then (l ++ [api.set_Offset r (Go.len l)], Done (Go.len l))
       else (l, Failed false);
     grpc.Read := fun l off =>
       (l, match nth_error l (Z.to_nat off) with
           | Some r => Done r
           | None => Failed true
           end) |}.

(** * Properties *)

Lemma lor_shiftl_add (a b n : Z) :
  0 <= n -> 0 <= b < 2 ^ n -> Z.lor b (Z.shiftl a n) = a * 2 ^ n + b.
Proof.
  intros Hn Hb.
  assert (H0 : Z.land b (Z.shiftl a n) = 0).
  { apply Z.bits_inj'. intros i Hi.
    rewrite Z.land_spec, Z.bits_0.
    destruct (Z.ltb_spec i n).
    - rewrite Z.shiftl_spec_low by lia. apply andb_false_r.
    - rewrite <- (Z.mod_small b (2 ^ n)) by lia.
      rewrite Z.mod_pow2_bits_high by lia. reflexivity. }
  pose proof (Z.add_lor_land b (Z.shiftl a n)) as H.
  rewrite H0, Z.add_0_r in H. rewrite H, Z.shiftl_mul_pow2 by lia. ring.
Qed.

Lemma be_value_snoc (bs : list byte) (b : byte) :
  be_value (bs ++ [b]) = be_value bs * 256 + byte.unsigned b.
Proof. unfold be_value. rewrite fold_left_app. reflexivity. Qed.

Lemma be_bytes_length (n : nat) (v : Z) : length (be_bytes n v) = n.
Proof.
  revert v. induction n as [|n IH]; intros v; simpl; [reflexivity|].
  rewrite length_app, IH. simpl. lia.
Qed.

Lemma be_value_be_bytes (n : nat) (v : Z) :
  be_value (be_bytes n v) = v mod 2 ^ (8 * Z.of_nat n).
Proof.
  revert v. induction n as [|n IH]; intros v.
  - simpl. rewrite Z.mod_1_r. reflexivity.
  - cbn [be_bytes]. rewrite be_value_snoc, IH, byte.unsigned_of_Z.
    unfold byte.wrap.
    replace (8 * Z.of_nat (S n)) with (8 * Z.of_nat n + 8) by lia.
    rewrite Z.pow_add_r by lia.
    change (2 ^ 8) with 256.
    rewrite (Z.mul_comm (2 ^ _) 256).
    rewrite Z.rem_mul_r by lia. ring.
Qed.

Ltac byte_ranges :=
  repeat match goal with
  | |- context [byte.unsigned ?b] =>
      lazymatch goal with
      | _ : 0 <= byte.unsigned b < 256 |- _ => fail
      | _ => let H := fresh "Hb" in
             pose proof (byte.unsigned_range b) as H; change (2 ^ 8) with 256 in H
      end
  end.

Lemma Uint32_be (b : list byte) :
  length b = 4%nat -> enc.Uint32 b = Some (be_value b).
Proof.
  intros H. destruct b as [|b0 [|b1 [|b2 [|b3 [|]]]]]; try discriminate.
  unfold enc.Uint32, Go.len, enc.at_, be_value. simpl.
  byte_ranges. f_equal.
  rewrite (lor_shiftl_add (byte.unsigned b2) _ 8) by lia.
  rewrite (lor_shiftl_add (byte.unsigned b1) _ 16) by lia.
  rewrite (lor_shiftl_add (byte.unsigned b0) _ 24) by lia.
  lia.
Qed.

Lemma Uint64_be (b : list byte) :
  length b = 8%nat -> enc.Uint64 b = Some (be_value b).
Proof.
  intros H.
  destruct b as [|b0 [|b1 [|b2 [|b3 [|b4 [|b5 [|b6 [|b7 [|]]]]]]]]]; try discriminate.
  unfold enc.Uint64, Go.len, enc.at_, be_value. simpl.
  byte_ranges. f_equal.
  rewrite (lor_shiftl_add (byte.unsigned b6) _ 8) by lia.
  rewrite (lor_shiftl_add (byte.unsigned b5) _ 16) by lia.
  rewrite (lor_shiftl_add (byte.unsigned b4) _ 24) by lia.
  rewrite (lor_shiftl_add (byte.unsigned b3) _ 32) by lia.
  rewrite (lor_shiftl_add (byte.unsigned b2) _ 40) by lia.
  rewrite (lor_shiftl_add (byte.unsigned b1) _ 48) by lia.
  rewrite (lor_shiftl_add (byte.unsigned b0) _ 56) by lia.
  lia.
Qed.

Lemma shiftr_bytes (v : Z) (k : nat) :
  Z.shiftr v (8 * Z.of_nat k) = Nat.iter k (fun x => x / 256) v.
Proof.
  induction k as [|k IH].
  - simpl. apply Z.shiftr_0_r.
  - replace (8 * Z.of_nat (S k)) with (8 * Z.of_nat k + 8) by lia.
    rewrite <- Z.shiftr_shiftr by lia. rewrite IH. simpl Nat.iter.
    rewrite Z.shiftr_div_pow2 by lia. reflexivity.
Qed.

Lemma PutUint32_be (b : list byte) (v : Z) :
  4 <= Go.len b -> enc.PutUint32 b v = Some (be_bytes 4 v ++ skipn 4 b).
Proof.
  intros H. unfold enc.PutUint32.
  destruct (Z.leb_spec 4 (Go.len b)); [|lia].
  rewrite (shiftr_bytes v 3 : Z.shiftr v 24 = _), (shiftr_bytes v 2 : Z.shiftr v 16 = _),
    (shiftr_bytes v 1 : Z.shiftr v 8 = _).
  reflexivity.
Qed.

Lemma PutUint64_be (b : list byte) (v : Z) :
  8 <= Go.len b -> enc.PutUint64 b v = Some (be_bytes 8 v ++ skipn 8 b).
Proof.
  intros H. unfold enc.PutUint64.
  destruct (Z.leb_spec 8 (Go.len b)); [|lia].
  rewrite (shiftr_bytes v 7 : Z.shiftr v 56 = _), (shiftr_bytes v 6 : Z.shiftr v 48 = _),
    (shiftr_bytes v 5 : Z.shiftr v 40 = _), (shiftr_bytes v 4 : Z.shiftr v 32 = _),
    (shiftr_bytes v 3 : Z.shiftr v 24 = _), (shiftr_bytes v 2 : Z.shiftr v 16 = _),
    (shiftr_bytes v 1 : Z.shiftr v 8 = _).
  reflexivity.
Qed.

(** ** Slices *)

Lemma len_app {A : Type} (a b : list A) : Go.len (a ++ b) = Go.len a + Go.len b.
Proof. unfold Go.len. rewrite length_app. lia. Qed.

Lemma len_nonneg {A : Type} (a : list A) : 0 <= Go.len a.
Proof. unfold Go.len. lia. Qed.

Lemma len_firstn {A : Type} (n : Z) (a : list A) :
  0 <= n <= Go.len a -> Go.len (firstn (Z.to_nat n) a) = n.
Proof. unfold Go.len. intros H. rewrite length_firstn. lia. Qed.

Lemma len_skipn {A : Type} (n : Z) (a : list A) :
  0 <= n <= Go.len a -> Go.len (skipn (Z.to_nat n) a) = Go.len a - n.
Proof. unfold Go.len. intros H. rewrite length_skipn. lia. Qed.

Lemma len_make (n : Z) : 0 <= n -> Go.len (Go.make n) = n.
Proof. intros H. unfold Go.len, Go.make. rewrite repeat_length. lia. Qed.

Lemma len_be_bytes (n : nat) (v : Z) : Go.len (be_bytes n v) = Z.of_nat n.
Proof. unfold Go.len. rewrite be_bytes_length. reflexivity. Qed.

Lemma slice_spec {A : Type} (b : list A) (lo hi : Z) :
  0 <= lo <= hi -> hi <= Go.len b ->
  Go.slice b lo hi = Some (firstn (Z.to_nat (hi - lo)) (skipn (Z.to_nat lo) b)).
Proof.
  intros H1 H2. unfold Go.slice.
  destruct (Z.leb_spec 0 lo); [|lia].
  destruct (Z.leb_spec lo hi); [|lia].
  destruct (Z.leb_spec hi (Go.len b)); [|lia].
  reflexivity.
Qed.

Lemma slice_Some {A : Type} (b : list A) (lo hi : Z) (w : list A) :
  Go.slice b lo hi = Some w ->
  0 <= lo <= hi /\ hi <= Go.len b /\ Go.len w = hi - lo /\
  b = firstn (Z.to_nat lo) b ++ w ++ skipn (Z.to_nat hi) b.
Proof.
  unfold Go.slice. intros H.
  destruct (Z.leb_spec 0 lo); [|discriminate].
  destruct (Z.leb_spec lo hi); [|discriminate].
  destruct (Z.leb_spec hi (Go.len b)); [|discriminate].
  simpl in H. injection H as <-.
  repeat split; try lia.
  - rewrite len_firstn; [lia|]. rewrite len_skipn; lia.
  - rewrite <- (firstn_skipn (Z.to_nat lo) b) at 1. f_equal.
    rewrite <- (firstn_skipn (Z.to_nat (hi - lo)) (skipn (Z.to_nat lo) b)) at 1.
    f_equal. rewrite skipn_skipn. f_equal. lia.
Qed.

Lemma splice_spec {A : Type} (b w : list A) (lo : Z) :
  0 <= lo -> lo + Go.len w <= Go.len b ->
  Go.splice b lo w
  = firstn (Z.to_nat lo) b ++ w ++ skipn (Z.to_nat (lo + Go.len w)) b
  /\ Go.len (Go.splice b lo w) = Go.len b.
Proof.
  intros H1 H2. pose proof (len_nonneg w). unfold Go.splice. split.
  - do 3 f_equal. unfold Go.len. lia.
  - rewrite !len_app, len_firstn by lia.
    replace (Z.to_nat lo + length w)%nat with (Z.to_nat (lo + Go.len w))
      by (unfold Go.len; lia).
    rewrite len_skipn by lia. lia.
Qed.

(** ** Integer conversions *)

Lemma uint64_small (z : Z) : 0 <= z < 2 ^ 64 -> Go.uint64 z = z.
Proof. intros H. apply Z.mod_small. exact H. Qed.

Lemma uint64_range (z : Z) : 0 <= Go.uint64 z < 2 ^ 64.
Proof. apply Z.mod_pos_bound. reflexivity. Qed.

Lemma uint32_uint64 (z : Z) : Go.uint32 (Go.uint64 z) = Go.uint32 z.
Proof.
  unfold Go.uint32, Go.uint64. apply Z.mod_mod_divide.
  exists (2 ^ 32). reflexivity.
Qed.

Lemma int64_small (z : Z) : - 2 ^ 63 <= z < 2 ^ 63 -> Go.int64 z = z.
Proof. intros H. unfold Go.int64. rewrite Z.mod_small; lia. Qed.

(** ** The index *)

Lemma bytes_at_length (b : list byte) (lo : Z) (n : nat) :
  0 <= lo -> lo + Z.of_nat n <= Go.len b -> length (bytes_at b lo n) = n.
Proof.
  intros H1 H2. unfold bytes_at, Go.len in *.
  rewrite length_firstn, length_skipn. lia.
Qed.

Lemma slice_bytes_at (b : list byte) (lo hi : Z) (n : nat) :
  0 <= lo -> hi = lo + Z.of_nat n -> hi <= Go.len b ->
  Go.slice b lo hi = Some (bytes_at b lo n).
Proof.
  intros H1 -> H3. rewrite slice_spec by lia. unfold bytes_at.
  do 2 f_equal. lia.
Qed.

Lemma entry_number_range (size n : Z) : 0 <= entry_number size n < 2 ^ 32.
Proof.
  unfold entry_number. destruct (n =? -1); apply Z.mod_pos_bound; reflexivity.
Qed.

Lemma index_Read_unfold (i : index.t) (n : Z) :
  index.Read i n =
  if index.size i =? 0 then Err EOF
  else
    let pos := 12 * entry_number (index.size i) n in
    if index.size i <? pos + 12 then Err EOF
    else
      match Go.slice (index.mmap i) pos (pos + 4) with
      | None => Panic
      | Some b1 =>
          match enc.Uint32 b1 with
          | None => Panic
          | Some out =>
              match Go.slice (index.mmap i) (pos + 4) (pos + 12) with
              | None => Panic
              | Some b2 =>
                  match enc.Uint64 b2 with
                  | None => Panic
                  | Some pos => Ok (out, pos)
                  end
              end
          end
      end.
Proof.
  unfold index.Read. destruct (index.size i =? 0); [reflexivity|].
  assert (E : (if n =? -1
               then Go.uint32 (Go.uint64 (index.size i / index.entWidth - 1))
               else Go.uint32 n) = entry_number (index.size i) n).
  { unfold entry_number. destruct (n =? -1); [|reflexivity].
    rewrite uint32_uint64. reflexivity. }
  rewrite E. clear E.
  pose proof (entry_number_range (index.size i) n) as He.
  set (e := entry_number (index.size i) n) in *.
  change index.entWidth with 12. change index.offWidth with 4.
  rewrite (uint64_small e) by lia.
  rewrite (uint64_small (e * 12)) by lia.
  rewrite !uint64_small by lia.
  replace (e * 12) with (12 * e) by lia. reflexivity.
Qed.

Lemma index_Read_eof (i : index.t) (n : Z) :
  index.size i = 0 \/ (entry_number (index.size i) n + 1) * 12 > index.size i ->
  index.Read i n = Err EOF.
Proof.
  intros H. rewrite index_Read_unfold. cbv zeta.
  destruct (Z.eqb_spec (index.size i) 0); [reflexivity|].
  destruct (Z.ltb_spec (index.size i)
              (12 * entry_number (index.size i) n + 12)); [reflexivity|lia].
Qed.

Lemma index_Read_entry (i : index.t) (n : Z) :
  index.size i <> 0 ->
  (entry_number (index.size i) n + 1) * 12 <= index.size i ->
  (entry_number (index.size i) n + 1) * 12 <= Go.len (index.mmap i) ->
  index.Read i n = Ok (entry (index.mmap i) (entry_number (index.size i) n)).
Proof.
  intros Hs Hle Hlen.
  pose proof (entry_number_range (index.size i) n) as He.
  rewrite index_Read_unfold. cbv zeta.
  destruct (Z.eqb_spec (index.size i) 0); [lia|].
  destruct (Z.ltb_spec (index.size i)
              (12 * entry_number (index.size i) n + 12)); [lia|].
  rewrite (slice_bytes_at _ _ _ 4) by lia.
  rewrite Uint32_be by (apply bytes_at_length; lia).
  rewrite (slice_bytes_at _ _ _ 8) by lia.
  rewrite Uint64_be by (apply bytes_at_length; lia).
  reflexivity.
Qed.

Lemma entry_number_last (size : Z) :
  12 <= size <= 12 * 2 ^ 32 -> entry_number size (-1) = size / 12 - 1.
Proof.
  intros Hsz. unfold entry_number. change (-1 =? -1) with true. cbv iota.
  apply Z.mod_small.
  assert (1 <= size / 12) by (apply Z.div_le_lower_bound; lia).
  assert (size / 12 <= 2 ^ 32) by (apply Z.div_le_upper_bound; lia).
  lia.
Qed.

(** C4 (amended): [index.Read] fails with [io.EOF] on an empty index; else
    it looks up the entry whose number is the argument cut to 32 bits, or for
    the argument [-1] the number of whole entries less one cut to 32 bits; it
    fails with [io.EOF] when that entry ends beyond [size], and otherwise
    returns the big-endian relative offset and position of that entry, or
    panics when the entry lies beyond the map.  For an argument in
    [0, 2 ^ 32) the entry number is the argument. *)
Theorem index_Read_spec (i : index.t) (n : Z) :
  let e := entry_number (index.size i) n in
  (index.size i = 0 -> index.Read i n = Err EOF) /\
  (index.size i <> 0 -> (e + 1) * 12 > index.size i ->
   index.Read i n = Err EOF) /\
  (index.size i <> 0 -> (e + 1) * 12 <= index.size i ->
   (e + 1) * 12 <= Go.len (index.mmap i) ->
   index.Read i n = Ok (entry (index.mmap i) e)) /\
  (index.size i <> 0 -> (e + 1) * 12 <= index.size i ->
   Go.len (index.mmap i) < (e + 1) * 12 ->
   index.Read i n = Panic) /\
  (0 <= n < 2 ^ 32 -> e = n) /\
  (n = -1 -> 12 <= index.size i <= 12 * 2 ^ 32 -> e = index.size i / 12 - 1).
Proof.
  intros e. pose proof (entry_number_range (index.size i) n) as He. fold e in He.
  split; [|split; [|split; [|split; [|split]]]].
  - intros H. apply index_Read_eof. left. exact H.
  - intros _ H. apply index_Read_eof. right. exact H.
  - intros Hs Hle Hlen. apply index_Read_entry; assumption.
  - intros Hs Hle Hlen. rewrite index_Read_unfold. fold e. cbv zeta.
    destruct (Z.eqb_spec (index.size i) 0); [lia|].
    destruct (Z.ltb_spec (index.size i) (12 * e + 12)); [lia|].
    destruct (Go.slice (index.mmap i) (12 * e) (12 * e + 4)) as [b1|] eqn:E1;
      [|reflexivity].
    apply slice_Some in E1. destruct E1 as (_ & _ & L1 & _).
    rewrite Uint32_be by (unfold Go.len in L1; lia).
    destruct (Go.slice (index.mmap i) (12 * e + 4) (12 * e + 12)) as [b2|] eqn:E2;
      [|reflexivity].
    apply slice_Some in E2. lia.
  - intros Hn. unfold e, entry_number.
    destruct (Z.eqb_spec n (-1)); [lia|]. apply Z.mod_small. lia.
  - intros -> Hsz. apply entry_number_last. exact Hsz.
Qed.

Lemma firstn_app_len {A : Type} (a b : list A) (n : nat) :
  n = length a -> firstn n (a ++ b) = a.
Proof.
  intros ->. rewrite firstn_app, firstn_all, Nat.sub_diag. simpl. apply app_nil_r.
Qed.

Lemma skipn_app_len {A : Type} (a b : list A) (n : nat) :
  n = length a -> skipn n (a ++ b) = b.
Proof.
  intros ->. rewrite skipn_app, skipn_all, Nat.sub_diag. reflexivity.
Qed.

Lemma splice_splice (m w1 w2 : list byte) (lo : Z) :
  0 <= lo -> lo + Go.len w1 + Go.len w2 <= Go.len m ->
  Go.splice (Go.splice m lo w1) (lo + Go.len w1) w2
  = firstn (Z.to_nat lo) m ++ w1 ++ w2
      ++ skipn (Z.to_nat (lo + Go.len w1 + Go.len w2)) m.
Proof.
  intros H1 H2. pose proof (len_nonneg w1). pose proof (len_nonneg w2).
  destruct (splice_spec m w1 lo) as [E1 L1]; try lia.
  destruct (splice_spec (Go.splice m lo w1) w2 (lo + Go.len w1)) as [E2 _]; try lia.
  rewrite E2, E1. clear E1 E2 L1.
  set (a := firstn (Z.to_nat lo) m).
  set (c := skipn (Z.to_nat (lo + Go.len w1)) m).
  assert (La : length a = Z.to_nat lo)
    by (unfold a; rewrite length_firstn; unfold Go.len in *; lia).
  assert (F : firstn (Z.to_nat (lo + Go.len w1)) (a ++ w1 ++ c) = a ++ w1).
  { rewrite app_assoc. apply firstn_app_len.
    rewrite length_app. unfold Go.len in *. lia. }
  assert (S : skipn (Z.to_nat (lo + Go.len w1 + Go.len w2)) (a ++ w1 ++ c)
              = skipn (Z.to_nat (lo + Go.len w1 + Go.len w2)) m).
  { rewrite app_assoc, skipn_app, skipn_all2
      by (rewrite length_app; unfold Go.len in *; lia).
    simpl. unfold c. rewrite skipn_skipn. f_equal.
    rewrite length_app. unfold Go.len in *. lia. }
  rewrite F, S, <- app_assoc. reflexivity.
Qed.

Lemma index_Write_full (i : index.t) (off pos : Z) :
  0 <= index.size i -> index.size i + 12 < 2 ^ 64 ->
  Go.len (index.mmap i) < index.size i + 12 ->
  index.Write i off pos = (i, Err EOF).
Proof.
  intros H1 H2 H3. pose proof (len_nonneg (index.mmap i)).
  unfold index.Write. change index.entWidth with 12.
  rewrite !uint64_small by lia.
  destruct (Z.ltb_spec (Go.len (index.mmap i)) (index.size i + 12)); [reflexivity|lia].
Qed.

Lemma index_Write_ok (i : index.t) (off pos : Z) :
  0 <= index.size i -> Go.len (index.mmap i) < 2 ^ 64 ->
  index.size i + 12 <= Go.len (index.mmap i) ->
  index.Write i off pos =
  ({| index.mmap :=
        firstn (Z.to_nat (index.size i)) (index.mmap i)
        ++ be_bytes 4 off ++ be_bytes 8 pos
        ++ skipn (Z.to_nat (index.size i + 12)) (index.mmap i);
      index.size := index.size i + 12 |}, Ok tt).
Proof.
  intros H1 H2 H3.
  unfold index.Write. change index.entWidth with 12. change index.offWidth with 4.
  rewrite !uint64_small by lia.
  destruct (Z.ltb_spec (Go.len (index.mmap i)) (index.size i + 12)); [lia|].
  rewrite (slice_bytes_at _ _ _ 4) by lia.
  rewrite PutUint32_be by (unfold Go.len; rewrite bytes_at_length; lia).
  rewrite (skipn_all2 (n := 4)) by (rewrite bytes_at_length; lia).
  rewrite app_nil_r.
  destruct (splice_spec (index.mmap i) (be_bytes 4 off) (index.size i)) as [E1 L1];
    rewrite ?len_be_bytes; try lia.
  rewrite (slice_bytes_at _ _ _ 8) by lia.
  rewrite PutUint64_be by (unfold Go.len; rewrite bytes_at_length; lia).
  rewrite (skipn_all2 (n := 8)) by (rewrite bytes_at_length; lia).
  rewrite app_nil_r.
  pose proof (splice_splice (index.mmap i) (be_bytes 4 off) (be_bytes 8 pos)
                (index.size i)) as E.
  rewrite !len_be_bytes in E.
  change (Z.of_nat 4) with 4 in E. change (Z.of_nat 8) with 8 in E.
  rewrite E by lia. do 6 f_equal. lia.
  change (Go.uint64 12) with 12. apply uint64_small. lia.
Qed.

Lemma newIndex_spec (f : list byte) (c : Config) (i : index.t) :
  0 <= MaxIndexBytes (Segment c) < 2 ^ 64 ->
  index.newIndex f c = Ok i ->
  Go.len (index.mmap i) = MaxIndexBytes (Segment c)
  /\ 0 < MaxIndexBytes (Segment c) < 2 ^ 63
  /\ index.size i = Go.uint64 (Go.len f)
  /\ index.mmap i = index.Truncate f (MaxIndexBytes (Segment c)).
Proof.
  intros HM. unfold index.newIndex.
  set (M := MaxIndexBytes (Segment c)) in *.
  destruct (Z.ltb_spec (Go.int64 M) 0) as [Hn|Hn]; [discriminate|].
  assert (HM' : M < 2 ^ 63).
  { destruct (Z.ltb_spec M (2 ^ 63)); [assumption|].
    exfalso. unfold Go.int64 in Hn.
    replace (M + 2 ^ 63) with (M - 2 ^ 63 + 1 * 2 ^ 64) in Hn by lia.
    rewrite Z.mod_add, Z.mod_small in Hn; lia. }
  rewrite int64_small by lia.
  assert (L : Go.len (index.Truncate f M) = M).
  { unfold index.Truncate, Go.len. rewrite length_app, length_firstn, repeat_length. lia. }
  rewrite L.
  destruct (Z.eqb_spec M 0); [discriminate|].
  intros E. injection E as <-. simpl. repeat split; try lia; exact L.
Qed.

(** C5: [index.Write] fails with the end-of-space error exactly when another
    entry does not fit the mapped length, which is [MaxIndexBytes], and then
    changes nothing; otherwise it puts the four big-endian bytes of the
    relative offset and the eight big-endian bytes of the position at
    [size, size + 12) and adds twelve to [size]. *)
Theorem index_Write_spec (c : Config) (i : index.t) (off pos : Z) :
  Go.len (index.mmap i) = MaxIndexBytes (Segment c) ->
  MaxIndexBytes (Segment c) < 2 ^ 63 ->
  0 <= index.size i <= Go.len (index.mmap i) ->
  let i' := fst (index.Write i off pos) in
  let r := snd (index.Write i off pos) in
  (r = Err EOF <-> index.size i + 12 > MaxIndexBytes (Segment c)) /\
  (r = Err EOF -> i' = i) /\
  (r <> Err EOF ->
   r = Ok tt /\
   index.size i' = index.size i + 12 /\
   index.mmap i' =
     firstn (Z.to_nat (index.size i)) (index.mmap i)
     ++ be_bytes 4 off ++ be_bytes 8 pos
     ++ skipn (Z.to_nat (index.size i + 12)) (index.mmap i)).
Proof.
  intros HL HM Hs. cbv zeta.
  destruct (Z.le_gt_cases (index.size i + 12) (Go.len (index.mmap i))) as [Hfit|Hfull].
  - rewrite index_Write_ok by lia. simpl. split; [|split].
    + split; [discriminate|lia].
    + discriminate.
    + intros _. repeat split.
  - rewrite index_Write_full by lia. simpl. split; [|split].
    + split; [lia|reflexivity].
    + reflexivity.
    + congruence.
Qed.

Lemma index_Write_spec_witness :
  Go.len (index.mmap index_empty_24) = MaxIndexBytes (Segment (config_of 1024 24 0))
  /\ 0 <= index.size index_empty_24 <= Go.len (index.mmap index_empty_24)
  /\ snd (index.Write index_empty_24 1 2) = Ok tt
  /\ index.size (fst (index.Write index_empty_24 1 2)) = 12.
Proof.
  assert (H1 : Go.len (index.mmap index_empty_24)
               = MaxIndexBytes (Segment (config_of 1024 24 0))) by reflexivity.
  assert (H2 : MaxIndexBytes (Segment (config_of 1024 24 0)) < 2 ^ 63) by reflexivity.
  assert (H3 : 0 <= index.size index_empty_24 <= Go.len (index.mmap index_empty_24))
    by (vm_compute; split; discriminate).
  pose proof (index_Write_spec (config_of 1024 24 0) index_empty_24 1 2 H1 H2 H3) as H.
  cbv zeta in H. destruct H as (_ & _ & H).
  assert (Hne : snd (index.Write index_empty_24 1 2) <> Err EOF)
    by (vm_compute; discriminate).
  destruct (H Hne) as (Hr & Hsz & _).
  split; [exact H1|]. split; [exact H3|]. split; [exact Hr|exact Hsz].
Defined.

(** C4, as stated, fails: with one entry in the index, the argument [2 ^ 32]
    is beyond the data, and [index.Read] returns entry number zero. *)
Lemma index_Read_counterexample :
  index.Read index_one_entry (2 ^ 32) = Ok (7, 9)
  /\ ~ Read_as_specified index_one_entry (2 ^ 32).
Proof.
  split; [reflexivity|].
  intros (_ & _ & H & _).
  assert (E : index.Read index_one_entry (2 ^ 32) = Err EOF).
  { apply H; [discriminate|discriminate|reflexivity]. }
  vm_compute in E. discriminate.
Qed.

(** ** nearestMultiple *)

(** C10: for [uint64] arguments with [k > 0], [nearestMultiple j k] is
    [(j / k) * k], the greatest multiple of [k] that is at most [j]; the test
    [j >= 0] always holds, so the second branch is never taken. *)
Theorem nearestMultiple_spec (j k : Z) :
  0 <= j < 2 ^ 64 -> 0 < k < 2 ^ 64 ->
  segment.nearestMultiple j k = Ok (j / k * k)
  /\ (k | j / k * k)
  /\ j / k * k <= j
  /\ (forall m, (k | m) -> m <= j -> m <= j / k * k)
  /\ (0 <=? j) = true.
Proof.
  intros Hj Hk.
  assert (Hle : j / k * k <= j) by (rewrite Z.mul_comm; apply Z.mul_div_le; lia).
  assert (Hq : 0 <= j / k) by (apply Z.div_pos; lia).
  repeat split.
  - unfold segment.nearestMultiple.
    destruct (Z.eqb_spec k 0); [lia|].
    destruct (Z.leb_spec 0 j); [|lia].
    rewrite uint64_small by nia. reflexivity.
  - exists (j / k). reflexivity.
  - exact Hle.
  - intros m [q ->] Hm.
    assert (q <= j / k) by (apply Z.div_le_lower_bound; lia).
    nia.
  - apply Z.leb_le. lia.
Qed.

Lemma nearestMultiple_spec_witness :
  0 <= 9 < 2 ^ 64 /\ 0 < 4 < 2 ^ 64 /\ segment.nearestMultiple 9 4 = Ok 8.
Proof.
  assert (H1 : 0 <= 9 < 2 ^ 64) by lia.
  assert (H2 : 0 < 4 < 2 ^ 64) by lia.
  destruct (nearestMultiple_spec 9 4 H1 H2) as (H & _).
  split; [exact H1|]. split; [exact H2|]. exact H.
Defined.

(** ** The store *)

Lemma store_Append_unfold (s : store.t) (p : list byte) :
  store.Append s p =
  match store.err (store.buf s) with
  | Some e => (s, Err e)
  | None =>
      ({| store.File := store.File s;
          store.buf := {| store.buffered :=
                            (store.buffered (store.buf s)
                             ++ be_bytes 8 (Go.uint64 (Go.len p))) ++ p;
                          store.err := None |};
          store.size :=
            Go.uint64 (store.size s + Go.uint64 (Go.int (Go.len p + 8))) |},
       Ok (Go.uint64 (Go.int (Go.len p + 8)), store.size s))
  end.
Proof.
  unfold store.Append.
  rewrite PutUint64_be by (rewrite len_make; lia).
  change (skipn 8 (Go.make 8)) with (@nil byte). rewrite app_nil_r.
  unfold store.Writer_Write. destruct s as [f [b [e|]] sz]; simpl; reflexivity.
Qed.

(** C8: a successful [store.Append] returns the size before the call as the
    position and [8 + len(p)] as the number of bytes written, adds
    [8 + len(p)] to the size, and hands the writer the eight big-endian bytes
    of [len(p)] followed by [p].  It succeeds whenever the writer holds no
    error. *)
Theorem store_Append_spec (s : store.t) (p : list byte) :
  0 <= store.size s -> Go.len p + 8 < 2 ^ 63 ->
  store.size s + 8 + Go.len p < 2 ^ 64 ->
  (forall s' n pos,
      store.Append s p = (s', Ok (n, pos)) ->
      pos = store.size s
      /\ n = 8 + Go.len p
      /\ store.size s' = store.size s + (8 + Go.len p)
      /\ store.File s' = store.File s
      /\ store.buffered (store.buf s')
         = store.buffered (store.buf s) ++ be_bytes 8 (Go.len p) ++ p
      /\ be_value (be_bytes 8 (Go.len p)) = Go.len p)
  /\ (store.err (store.buf s) = None ->
      exists s', store.Append s p = (s', Ok (8 + Go.len p, store.size s))).
Proof.
  intros Hs Hi Hb. pose proof (len_nonneg p) as Hp.
  rewrite store_Append_unfold.
  assert (E1 : Go.int (Go.len p + 8) = Go.len p + 8)
    by (apply int64_small; lia).
  assert (E2 : Go.uint64 (Go.len p) = Go.len p) by (apply uint64_small; lia).
  rewrite E1, E2. rewrite (uint64_small (Go.len p + 8)) by lia.
  rewrite (uint64_small (store.size s + _)) by lia.
  split.
  - intros s' n pos. destruct (store.err (store.buf s)); [discriminate|].
    intros E. injection E as <- <- <-.
    cbn [store.size store.File store.buf store.buffered].
    split; [reflexivity|]. split; [lia|]. split; [lia|]. split; [reflexivity|].
    split.
    + symmetry. apply app_assoc.
    + rewrite be_value_be_bytes. apply Z.mod_small.
      change (2 ^ (8 * Z.of_nat 8)) with (2 ^ 64). lia.
  - intros ->. eexists. f_equal. f_equal. f_equal; lia.
Qed.

Lemma store_Append_spec_witness :
  0 <= store.size store_empty
  /\ Go.len [Byte.x01; Byte.x02; Byte.x03] + 8 < 2 ^ 63
  /\ store.size store_empty + 8 + Go.len [Byte.x01; Byte.x02; Byte.x03] < 2 ^ 64
  /\ exists s', store.Append store_empty [Byte.x01; Byte.x02; Byte.x03]
                = (s', Ok (11, 0)).
Proof.
  assert (H1 : 0 <= store.size store_empty) by (simpl; lia).
  assert (H2 : Go.len [Byte.x01; Byte.x02; Byte.x03] + 8 < 2 ^ 63) by reflexivity.
  assert (H3 : store.size store_empty + 8 + Go.len [Byte.x01; Byte.x02; Byte.x03]
               < 2 ^ 64) by reflexivity.
  destruct (store_Append_spec store_empty [Byte.x01; Byte.x02; Byte.x03] H1 H2 H3)
    as (_ & H).
  split; [exact H1|]. split; [exact H2|]. split; [exact H3|].
  apply H. reflexivity.
Defined.

(** ** Bytes at a position *)

Lemma bytes_at_app_left (a c : list byte) (lo : Z) (n : nat) :
  0 <= lo -> lo + Z.of_nat n <= Go.len a ->
  bytes_at (a ++ c) lo n = bytes_at a lo n.
Proof.
  intros H1 H2. unfold bytes_at, Go.len in *.
  rewrite skipn_app, firstn_app, length_skipn.
  replace (n - (length a - Z.to_nat lo))%nat with 0%nat by lia.
  simpl. apply app_nil_r.
Qed.

Lemma bytes_at_app_right (a c : list byte) (lo d : Z) (n : nat) :
  0 <= d -> lo = Go.len a + d -> bytes_at (a ++ c) lo n = bytes_at c d n.
Proof.
  intros H1 ->. unfold bytes_at, Go.len.
  rewrite skipn_app, skipn_all2 by lia. simpl. do 2 f_equal. lia.
Qed.

Lemma bytes_at_exact (w c : list byte) (n : nat) :
  n = length w -> bytes_at (w ++ c) 0 n = w.
Proof. intros ->. unfold bytes_at. simpl. apply firstn_app_len. reflexivity. Qed.

Lemma bytes_at_firstn (b : list byte) (N lo : Z) (n : nat) :
  0 <= lo -> lo + Z.of_nat n <= N -> N <= Go.len b ->
  bytes_at (firstn (Z.to_nat N) b) lo n = bytes_at b lo n.
Proof.
  intros H1 H2 H3. rewrite <- (firstn_skipn (Z.to_nat N) b) at 2.
  rewrite bytes_at_app_left; [reflexivity|lia|].
  rewrite len_firstn; lia.
Qed.

Lemma bytes_at_split (b : list byte) (lo : Z) (n1 n2 : nat) :
  0 <= lo ->
  bytes_at b lo (n1 + n2)
  = bytes_at b lo n1 ++ bytes_at b (lo + Z.of_nat n1) n2.
Proof.
  intros H. unfold bytes_at.
  rewrite <- (firstn_skipn n1 (firstn (n1 + n2) (skipn (Z.to_nat lo) b))).
  f_equal.
  - rewrite firstn_firstn. f_equal. lia.
  - rewrite skipn_firstn_comm, skipn_skipn. f_equal; [lia|]. f_equal. lia.
Qed.

Lemma app_inj_len {A : Type} (a a' b b' : list A) :
  length a = length a' -> a ++ b = a' ++ b' -> a = a' /\ b = b'.
Proof.
  intros L E. split.
  - apply (f_equal (firstn (length a))) in E.
    rewrite firstn_app_len in E by reflexivity.
    rewrite firstn_app_len in E by exact L. exact E.
  - apply (f_equal (skipn (length a))) in E.
    rewrite skipn_app_len in E by reflexivity.
    rewrite skipn_app_len in E by exact L. exact E.
Qed.

Lemma held_parts (b p : list byte) (pos : Z) :
  0 <= pos ->
  bytes_at b pos (8 + length p) = be_bytes 8 (Go.len p) ++ p ->
  bytes_at b pos 8 = be_bytes 8 (Go.len p)
  /\ bytes_at b (pos + 8) (length p) = p.
Proof.
  intros H E. rewrite bytes_at_split in E by exact H.
  apply app_inj_len in E; [exact E|].
  rewrite be_bytes_length.
  assert (L := f_equal (@length byte) E).
  rewrite !length_app, be_bytes_length in L.
  unfold bytes_at in *. rewrite !length_firstn in L. rewrite length_firstn. lia.
Qed.

Lemma store_Read_ok (s : store.t) (pos : Z) (p : list byte) :
  store_ok s -> 0 <= pos ->
  pos + 8 + Go.len p <= Go.len (contents s) ->
  bytes_at (contents s) pos (8 + length p) = be_bytes 8 (Go.len p) ++ p ->
  store.Read s pos
  = ({| store.File := contents s; store.buf := store.NewWriter;
        store.size := store.size s |}, Ok p).
Proof.
  intros (Herr & Hsz & Hmax) Hpos Hfit Hb.
  pose proof (len_nonneg p) as Hp.
  destruct (held_parts _ _ _ Hpos Hb) as [E8 Ep].
  unfold store.Read, store.Flush. rewrite Herr.
  cbn [store.File]. fold (contents s).
  change store.lenWidth with 8.
  unfold store.File_ReadAt.
  rewrite int64_small by lia.
  destruct (Z.ltb_spec pos 0); [lia|].
  rewrite len_make by lia. cbn [Z.eqb].
  rewrite (slice_bytes_at _ _ _ 8) by lia.
  rewrite E8, Uint64_be by apply be_bytes_length.
  rewrite be_value_be_bytes.
  change (2 ^ (8 * Z.of_nat 8)) with (2 ^ 64).
  rewrite Z.mod_small by lia.
  destruct (Z.leb_spec (2 ^ 63) (Go.len p)); [lia|].
  rewrite uint64_small, int64_small by lia.
  destruct (Z.ltb_spec (pos + 8) 0); [lia|].
  rewrite len_make by lia.
  destruct (Z.eqb_spec (Go.len p) 0) as [E0|E0].
  - rewrite E0. destruct p; [reflexivity|]. unfold Go.len in E0. simpl in E0. lia.
  - rewrite (slice_bytes_at _ _ _ (length p)) by (unfold Go.len in *; lia).
    rewrite Ep. reflexivity.
Qed.

(** ** Index entries after a write *)

Lemma be_value_be_bytes_4 (v : Z) : be_value (be_bytes 4 v) = v mod 2 ^ 32.
Proof. apply (be_value_be_bytes 4). Qed.

Lemma be_value_be_bytes_8 (v : Z) : be_value (be_bytes 8 v) = v mod 2 ^ 64.
Proof. apply (be_value_be_bytes 8). Qed.

Lemma entry_written (m : list byte) (n off pos : Z) :
  0 <= n -> 12 * n + 12 <= Go.len m ->
  entry (firstn (Z.to_nat (12 * n)) m ++ be_bytes 4 off ++ be_bytes 8 pos
         ++ skipn (Z.to_nat (12 * n + 12)) m) n
  = (off mod 2 ^ 32, pos mod 2 ^ 64).
Proof.
  intros Hn Hfit. unfold entry.
  assert (La : Go.len (firstn (Z.to_nat (12 * n)) m) = 12 * n)
    by (apply len_firstn; lia).
  f_equal.
  - rewrite (bytes_at_app_right _ _ _ 0) by lia.
    rewrite bytes_at_exact by (rewrite be_bytes_length; reflexivity).
    apply be_value_be_bytes_4.
  - rewrite (bytes_at_app_right _ _ _ 4) by lia.
    rewrite (bytes_at_app_right _ _ _ 0) by (rewrite ?len_be_bytes; lia).
    rewrite bytes_at_exact by (rewrite be_bytes_length; reflexivity).
    apply be_value_be_bytes_8.
Qed.

Lemma entry_kept (m w : list byte) (n k : Z) :
  0 <= k < n -> 12 * n <= Go.len m ->
  entry (firstn (Z.to_nat (12 * n)) m ++ w) k = entry m k.
Proof.
  intros Hk Hfit. unfold entry.
  assert (La : Go.len (firstn (Z.to_nat (12 * n)) m) = 12 * n)
    by (apply len_firstn; lia).
  f_equal; f_equal.
  - rewrite bytes_at_app_left by lia. apply bytes_at_firstn; lia.
  - rewrite bytes_at_app_left by lia. apply bytes_at_firstn; lia.
Qed.

Lemma relative_offset (base n : Z) :
  0 <= base < 2 ^ 64 ->
  Go.uint32 (Go.uint64 ((base + n) mod 2 ^ 64 - Go.uint64 base)) = n mod 2 ^ 32.
Proof.
  intros Hb. rewrite uint32_uint64, (uint64_small base) by lia.
  unfold Go.uint32. rewrite (Z.mod_eq (base + n)) by lia.
  replace (base + n - 2 ^ 64 * ((base + n) / 2 ^ 64) - base)
    with (n + (- 2 ^ 32 * ((base + n) / 2 ^ 64)) * 2 ^ 32).
  - apply Z.mod_add. lia.
  - change (2 ^ 64) with (2 ^ 32 * 2 ^ 32). ring.
Qed.

Lemma relative_offset64 (base n : Z) :
  0 <= base < 2 ^ 64 ->
  Go.uint64 ((base + n) mod 2 ^ 64 - base) = n mod 2 ^ 64.
Proof.
  intros Hb. unfold Go.uint64. rewrite Zminus_mod_idemp_l.
  f_equal. lia.
Qed.

(** ** The segment *)

Lemma index_Write_cases (i : index.t) (off pos : Z) :
  0 <= index.size i < 2 ^ 64 -> Go.len (index.mmap i) < 2 ^ 63 ->
  (index.size i + 12 <= Go.len (index.mmap i)
   /\ snd (index.Write i off pos) = Ok tt
   /\ index.size (fst (index.Write i off pos)) = index.size i + 12
   /\ Go.len (index.mmap (fst (index.Write i off pos))) = Go.len (index.mmap i))
  \/ (snd (index.Write i off pos) <> Ok tt
      /\ fst (index.Write i off pos) = i).
Proof.
  intros Hs Hl. pose proof (len_nonneg (index.mmap i)) as Hn.
  destruct (Z.le_gt_cases (index.size i + 12) (Go.len (index.mmap i))) as [Hfit|Hfull].
  - left. rewrite index_Write_ok by lia. cbn [fst snd index.size index.mmap].
    split; [exact Hfit|]. split; [reflexivity|]. split; [reflexivity|].
    rewrite !len_app, len_firstn, len_skipn, !len_be_bytes by lia. lia.
  - right. destruct (Z.lt_ge_cases (index.size i + 12) (2 ^ 64)) as [Hw|Hw].
    + rewrite index_Write_full by lia. simpl.
      split; [discriminate|reflexivity].
    + unfold index.Write.
      destruct (Go.uint64 (Go.len (index.mmap i)) <? _).
      * simpl. split; [discriminate|reflexivity].
      * destruct (Go.slice (index.mmap i) (index.size i) _) as [b1|] eqn:E.
        { apply slice_Some in E. lia. }
        simpl. split; [discriminate|reflexivity].
Qed.

Lemma store_Append_ok (st : store.t) (p : list byte) :
  store_ok st -> store.size st + 8 + Go.len p < 2 ^ 63 ->
  store.Append st p = (store_after st p, Ok (Go.len p + 8, store.size st))
  /\ store_ok (store_after st p)
  /\ contents (store_after st p) = contents st ++ be_bytes 8 (Go.len p) ++ p.
Proof.
  intros (Herr & Hsz & Hmax) Hb. pose proof (len_nonneg p) as Hp.
  pose proof (len_nonneg (contents st)) as Hc.
  assert (C : contents (store_after st p)
              = contents st ++ be_bytes 8 (Go.len p) ++ p).
  { unfold contents, store_after. cbn [store.File store.buf store.buffered].
    rewrite <- !app_assoc. reflexivity. }
  split; [|split].
  - rewrite store_Append_unfold, Herr.
    unfold Go.int. rewrite int64_small by lia.
    rewrite (uint64_small (Go.len p)) by lia.
    rewrite (uint64_small (Go.len p + 8)) by lia.
    rewrite (uint64_small (store.size st + _)) by lia.
    reflexivity.
  - unfold store_ok. rewrite C, !len_app, len_be_bytes.
    cbn [store_after store.buf store.err store.size].
    split; [reflexivity|]. split; lia.
  - exact C.
Qed.


Section SegmentProperties.

Variable Marshal : api.Record_ -> outcome (list byte).
Variable Unmarshal : list byte -> outcome api.Record_.

(** An append to a segment that holds [rs], when the record is encoded and
    the store stays below the largest file offset: the record is added when
    the index has room for one more entry, and the index write fails with the
    end-of-space error when it has not. *)
Lemma Append_represents (s : segment.t) (rs : list api.Record_)
      (r : api.Record_) (p : list byte) :
  represents Unmarshal s rs ->
  Marshal (api.set_Offset r (segment.nextOffset s)) = Ok p ->
  store.size (segment.store s) + 8 + Go.len p < 2 ^ 63 ->
  let r' := api.set_Offset r (segment.nextOffset s) in
  (12 * Go.len rs + 12 <= Go.len (index.mmap (segment.index s)) ->
   exists s',
     segment.Append Marshal s r = (s', r', Ok (segment.nextOffset s))
     /\ (Unmarshal p = Ok r' -> represents Unmarshal s' (rs ++ [r']))
     /\ segment.baseOffset s' = segment.baseOffset s
     /\ segment.nextOffset s' = Go.uint64 (segment.nextOffset s + 1)
     /\ index.size (segment.index s') = index.size (segment.index s) + 12
     /\ Go.len (index.mmap (segment.index s'))
        = Go.len (index.mmap (segment.index s))
     /\ segment.store s' = store_after (segment.store s) p
     /\ segment.config s' = segment.config s)
  /\ (Go.len (index.mmap (segment.index s)) < 12 * Go.len rs + 12 ->
      exists s',
        segment.Append Marshal s r = (s', r', Err EOF)
        /\ segment.index s' = segment.index s
        /\ segment.nextOffset s' = segment.nextOffset s
        /\ segment.store s' = store_after (segment.store s) p
        /\ segment.baseOffset s' = segment.baseOffset s
        /\ segment.config s' = segment.config s).
Proof.
  intros R HM Hb r'. destruct R as [Rst Rsz Rroom Rbase Rnext Rrec].
  pose proof (len_nonneg rs) as Hn. pose proof (len_nonneg p) as Hp.
  destruct (store_Append_ok (segment.store s) p Rst Hb) as (EA & Sok & SC).
  unfold segment.Append. rewrite HM, EA.
  cbn [segment.store segment.index segment.baseOffset segment.nextOffset
       segment.config].
  split.
  - intros Hfit.
    rewrite index_Write_ok by lia. rewrite Rsz.
    eexists. split; [reflexivity|].
    cbn [segment.store segment.index segment.baseOffset segment.nextOffset
         segment.config index.size index.mmap].
    split; [|split; [reflexivity|]; split; [reflexivity|]; split; [reflexivity|];
             split; [|split; reflexivity];
             rewrite !len_app, len_firstn, len_skipn, !len_be_bytes by lia; lia].
    intros HU. constructor;
      cbn [segment.store segment.index segment.baseOffset segment.nextOffset
           segment.config index.size index.mmap].
    + exact Sok.
    + rewrite len_app. change (Go.len [r']) with 1. lia.
    + rewrite len_app. change (Go.len [r']) with 1.
      rewrite !len_app, len_firstn, len_skipn, !len_be_bytes by lia. lia.
    + exact Rbase.
    + rewrite len_app. change (Go.len [r']) with 1.
      rewrite Rnext. unfold Go.uint64.
      rewrite Z.add_mod_idemp_l by lia. f_equal. lia.
    + intros k r0 Hk.
      assert (Hlt : (k < length (rs ++ [r']))%nat)
        by (apply nth_error_Some; congruence).
      rewrite length_app in Hlt. simpl in Hlt.
      destruct (Nat.eq_dec k (length rs)) as [->|Hne].
      * rewrite nth_error_app2, Nat.sub_diag in Hk by lia.
        injection Hk as <-.
        exists (store.size (segment.store s)), p.
        cbn [segment.store segment.index index.mmap].
        fold (Go.len rs).
        rewrite entry_written by lia.
        rewrite Rnext, relative_offset by lia.
        destruct Rst as (_ & Esz & Hmax).
        pose proof (len_nonneg (contents (segment.store s))).
        split.
        { f_equal; [apply Z.mod_mod; lia|apply Z.mod_small; lia]. }
        split; [lia|].
        rewrite SC. rewrite !len_app, len_be_bytes.
        split; [lia|]. split; [|exact HU].
        rewrite (bytes_at_app_right _ _ _ 0) by lia.
        rewrite <- (app_nil_r (be_bytes 8 (Go.len p) ++ p)) at 1.
        apply bytes_at_exact. rewrite length_app, be_bytes_length. reflexivity.
      * rewrite nth_error_app1 in Hk by lia.
        destruct (Rrec k r0 Hk) as (pos & q & He & Hpos & Hq & Hbytes & HUq).
        exists pos, q.
        cbn [segment.store segment.index index.mmap].
        rewrite entry_kept by (unfold Go.len in *; lia).
        split; [exact He|]. split; [exact Hpos|].
        rewrite SC, len_app.
        pose proof (len_nonneg (be_bytes 8 (Go.len p) ++ p)).
        split; [lia|]. split; [|exact HUq].
        rewrite bytes_at_app_left; [exact Hbytes|lia|].
        unfold Go.len in *. lia.
  - intros Hfull.
    rewrite index_Write_full by lia.
    eexists. split; [reflexivity|]. repeat split.
Qed.

(** A read from a segment that holds [rs]: the entry number is the relative
    offset cut to 32 bits, or the last entry for a relative offset of [-1];
    the read fails with [io.EOF] when the segment holds no such entry. *)
Lemma Read_represents (s : segment.t) (rs : list api.Record_) (off : Z) :
  represents Unmarshal s rs ->
  let e := entry_number (12 * Go.len rs)
             (Go.int64 (Go.uint64 (off - segment.baseOffset s))) in
  (Go.len rs <= e -> segment.Read Unmarshal s off = (s, Err EOF))
  /\ (forall r, nth_error rs (Z.to_nat e) = Some r ->
      exists s', segment.Read Unmarshal s off = (s', Ok r)
                 /\ represents Unmarshal s' rs
                 /\ segment.baseOffset s' = segment.baseOffset s
                 /\ segment.nextOffset s' = segment.nextOffset s
                 /\ segment.index s' = segment.index s).
Proof.
  intros R e. destruct R as [Rst Rsz Rroom Rbase Rnext Rrec].
  pose proof (len_nonneg rs) as Hn.
  pose proof (entry_number_range (12 * Go.len rs)
                (Go.int64 (Go.uint64 (off - segment.baseOffset s)))) as He.
  fold e in He.
  pose proof (index_Read_eof (segment.index s)
                (Go.int64 (Go.uint64 (off - segment.baseOffset s)))) as Heof.
  pose proof (index_Read_entry (segment.index s)
                (Go.int64 (Go.uint64 (off - segment.baseOffset s)))) as Hok.
  rewrite Rsz in Heof, Hok. fold e in Heof, Hok.
  unfold segment.Read. split.
  - intros Hle. rewrite Heof by lia. reflexivity.
  - intros r Hr.
    assert (Hlt : (Z.to_nat e < length rs)%nat)
      by (apply nth_error_Some; congruence).
    assert (Hlt' : e < Go.len rs) by (unfold Go.len; lia).
    rewrite Hok by lia.
    destruct (Rrec _ _ Hr) as (pos & p & Hent & Hpos & Hfit & Hbytes & HU).
    rewrite Z2Nat.id in Hent by lia. rewrite Hent.
    rewrite (store_Read_ok _ _ p) by assumption.
    rewrite HU. eexists. split; [reflexivity|].
    assert (C : contents {| store.File := contents (segment.store s);
                            store.buf := store.NewWriter;
                            store.size := store.size (segment.store s) |}
                = contents (segment.store s)) by apply app_nil_r.
    split; [|repeat split].
    constructor;
      cbn [segment.store segment.index segment.baseOffset segment.nextOffset
           segment.config]; try assumption.
    + destruct Rst as (_ & Esz & Hmax). unfold store_ok. rewrite C.
      cbn [store.buf store.err store.NewWriter store.size]. repeat split; assumption.
    + intros k r0 Hk.
      destruct (Rrec k r0 Hk) as (pos0 & q & H1 & H2 & H3 & H4 & H5).
      exists pos0, q. cbn [segment.store segment.index]. rewrite C.
      repeat split; assumption.
Qed.

Lemma Append_Ok_inv (s : segment.t) (r : api.Record_) (s' : segment.t)
      (r' : api.Record_) (o : Z) :
  segment.Append Marshal s r = (s', r', Ok o) ->
  exists p, Marshal (api.set_Offset r (segment.nextOffset s)) = Ok p.
Proof.
  unfold segment.Append.
  destruct (Marshal (api.set_Offset r (segment.nextOffset s))) as [p|e|];
    [eauto|discriminate|discriminate].
Qed.

Lemma represents_well_formed (s : segment.t) (rs : list api.Record_) :
  represents Unmarshal s rs -> well_formed s.
Proof.
  intros [Rst Rsz Rroom Rbase Rnext Rrec]. pose proof (len_nonneg rs) as Hn.
  unfold well_formed, in_range, bookkeeping. rewrite Rsz, Rnext.
  rewrite (Z.mul_comm 12), Z.mod_mul, Z.div_mul by lia.
  rewrite relative_offset64 by exact Rbase.
  pose proof (Z.mod_pos_bound (segment.baseOffset s + Go.len rs) (2 ^ 64)).
  rewrite (Z.mod_small (Go.len rs)) by lia.
  split; [lia|]. split; [exact Rst|]. split; [reflexivity|]. split; lia.
Qed.

(** C1 (amended): on a segment that satisfies the invariants of the store,
    the index and the segment and holds fewer than [2 ^ 32] index entries, a
    record whose append succeeded with offset [o] is read back at [o], with
    the payload that was appended and [o] as its offset. *)
Theorem segment_round_trip (s : segment.t) (r : api.Record_) (s' : segment.t)
        (r' : api.Record_) (o : Z) :
  well_formed s ->
  index.size (segment.index s) / 12 < 2 ^ 32 ->
  (forall p, Marshal (api.set_Offset r (segment.nextOffset s)) = Ok p ->
             Unmarshal p = Ok (api.set_Offset r (segment.nextOffset s))
             /\ store.size (segment.store s) + 8 + Go.len p < 2 ^ 63) ->
  segment.Append Marshal s r = (s', r', Ok o) ->
  exists s'',
    segment.Read Unmarshal s' o
    = (s'', Ok {| api.Value := api.Value r; api.Offset := o |}).
Proof.
  intros ((Hb & Hn & Hs & Hl) & Hst & Hdiv & Hin & Hbk) Hcap Hcodec HA.
  destruct (Append_Ok_inv _ _ _ _ _ HA) as [p HM].
  destruct (Hcodec p HM) as [HU Hbound].
  pose proof (len_nonneg p) as Hp.
  destruct (store_Append_ok (segment.store s) p Hst Hbound) as (EA & Sok & SC).
  set (n := index.size (segment.index s) / 12) in *.
  assert (Esz : index.size (segment.index s) = 12 * n).
  { unfold n. pose proof (Z.div_mod (index.size (segment.index s)) 12). lia. }
  assert (Hn0 : 0 <= n) by lia.
  unfold segment.Append in HA. rewrite HM, EA in HA.
  cbn [segment.store segment.index segment.baseOffset segment.nextOffset
       segment.config] in HA.
  set (off := Go.uint32 _) in HA.
  destruct (index_Write_cases (segment.index s) off (store.size (segment.store s))
              Hs Hl) as [(Hfit & _)|(Hne & _)].
  2:{ destruct (index.Write (segment.index s) off (store.size (segment.store s)))
        as [ix [[]|e|]]; cbn [snd] in Hne; [congruence|discriminate..]. }
  rewrite index_Write_ok in HA by lia. cbv beta iota zeta in HA.
  assert (Es : s' = fst (fst (s', r', Ok o))) by reflexivity.
  assert (Eo : Ok o = snd (s', r', Ok o)) by reflexivity.
  rewrite <- HA in Es, Eo. cbn [fst snd] in Es, Eo.
  injection Eo as ->. subst s'. clear HA.
  unfold segment.Read.
  cbn [segment.store segment.index segment.baseOffset segment.nextOffset].
  unfold bookkeeping in Hbk. fold n in Hbk. rewrite Hbk, int64_small by lia.
  rewrite Esz.
  set (m' := firstn _ _ ++ _).
  assert (Ee : entry_number (12 * n + 12) n = n).
  { unfold entry_number. destruct (Z.eqb_spec n (-1)); [lia|].
    apply Z.mod_small. lia. }
  assert (Lm : Go.len m' = Go.len (index.mmap (segment.index s))).
  { unfold m'. rewrite !len_app, len_firstn, len_skipn, !len_be_bytes by lia. lia. }
  rewrite (index_Read_entry {| index.mmap := m'; index.size := 12 * n + 12 |} n);
    cbn [index.size index.mmap]; rewrite ?Ee; try lia.
  unfold m'. rewrite entry_written by lia.
  destruct Hst as (Herr & Hsz & Hmax).
  pose proof (len_nonneg (contents (segment.store s))) as Hc.
  rewrite (Z.mod_small (store.size (segment.store s))) by lia.
  rewrite (store_Read_ok _ _ p); try assumption; try lia.
  - rewrite HU. eexists. reflexivity.
  - rewrite SC, !len_app, len_be_bytes. lia.
  - rewrite SC, (bytes_at_app_right _ _ _ 0) by lia.
    rewrite <- (app_nil_r (be_bytes 8 (Go.len p) ++ p)) at 1.
    apply bytes_at_exact. rewrite length_app, be_bytes_length. reflexivity.
Qed.

(** C9 (amended): on a segment that holds between one and [2 ^ 32] records,
    the offset just below the base offset has relative offset [-1], and
    reading it succeeds and returns the last record. *)
Theorem segment_Read_below_base (s : segment.t) (rs : list api.Record_)
        (d : api.Record_) :
  represents Unmarshal s rs ->
  1 <= Go.len rs <= 2 ^ 32 ->
  Go.int64 (Go.uint64 (Go.uint64 (segment.baseOffset s - 1)
                       - segment.baseOffset s)) = -1
  /\ exists s',
      segment.Read Unmarshal s (Go.uint64 (segment.baseOffset s - 1))
      = (s', Ok (last rs d)).
Proof.
  intros R Hlen.
  assert (E : Go.int64 (Go.uint64 (Go.uint64 (segment.baseOffset s - 1)
                                   - segment.baseOffset s)) = -1).
  { unfold Go.uint64. rewrite Zminus_mod_idemp_l.
    replace (segment.baseOffset s - 1 - segment.baseOffset s) with (-1) by lia.
    reflexivity. }
  split; [exact E|].
  destruct (Read_represents s rs (Go.uint64 (segment.baseOffset s - 1)) R)
    as [_ Hread].
  rewrite E in Hread. unfold entry_number in Hread.
  change (-1 =? -1) with true in Hread. cbv iota in Hread.
  rewrite (Z.mul_comm 12), Z.div_mul, Z.mod_small in Hread by lia.
  destruct (Hread (last rs d)) as (s' & E' & _).
  - destruct rs as [|r0 rs] using rev_ind.
    + unfold Go.len in Hlen. simpl in Hlen. lia.
    + rewrite last_last. unfold Go.len. rewrite length_app. simpl length.
      rewrite nth_error_app2 by lia.
      replace (Z.to_nat (Z.of_nat (length rs + 1) - 1) - length rs)%nat
        with 0%nat by lia.
      reflexivity.
  - exists s'. exact E'.
Qed.

End SegmentProperties.

(** ** The record codec round-trips *)

Lemma put_varint_length (fuel : nat) (v : Z) :
  (length (wire.put_varint fuel v) <= fuel)%nat.
Proof.
  revert v. induction fuel as [|fuel IH]; intros v; simpl; [lia|].
  destruct (v <? 128); simpl; [lia|]. specialize (IH (Z.shiftr v 7)). lia.
Qed.

Lemma land_127 (v : Z) : Z.land v 127 = v mod 128.
Proof. change 127 with (Z.ones 7). rewrite Z.land_ones by lia. reflexivity. Qed.

Lemma continuation_byte (v : Z) :
  byte.unsigned (byte.of_Z (Z.lor (Z.land v 127) 128)) = v mod 128 + 128.
Proof.
  rewrite byte.unsigned_of_Z. unfold byte.wrap. rewrite land_127.
  pose proof (Z.mod_pos_bound v 128 ltac:(lia)) as Hm.
  assert (E : Z.lor (v mod 128) (Z.shiftl 1 7) = 1 * 2 ^ 7 + v mod 128)
    by (apply lor_shiftl_add; [lia|exact Hm]).
  change (Z.shiftl 1 7) with 128 in E. rewrite E.
  change (1 * 2 ^ 7) with 128. change (2 ^ 8) with 256.
  rewrite Z.mod_small; lia.
Qed.

Lemma get_put_varint (fuel : nat) (v : Z) (rest : list byte) :
  (1 <= fuel)%nat -> 0 <= v < 2 ^ (7 * Z.of_nat fuel) ->
  wire.get_varint fuel (wire.put_varint fuel v ++ rest) = Some (v, rest).
Proof.
  revert v. induction fuel as [|fuel IH]; intros v Hf Hv; [lia|].
  cbn [wire.put_varint]. destruct (Z.ltb_spec v 128) as [Hs|Hl].
  - cbn [app wire.get_varint]. cbv zeta.
    rewrite byte.unsigned_of_Z. unfold byte.wrap.
    rewrite Z.mod_small by (change (2 ^ 8) with 256; lia).
    destruct (Z.ltb_spec v 128); [reflexivity|lia].
  - cbn [app wire.get_varint]. cbv zeta.
    rewrite continuation_byte.
    pose proof (Z.mod_pos_bound v 128 ltac:(lia)) as Hm.
    destruct (Z.ltb_spec (v mod 128 + 128) 128); [lia|].
    assert (Hq : Z.shiftr v 7 = v / 128)
      by (rewrite Z.shiftr_div_pow2 by lia; reflexivity).
    destruct fuel as [|fuel'].
    { change (2 ^ (7 * Z.of_nat 1)) with 128 in Hv. lia. }
    rewrite IH.
    + do 2 f_equal. rewrite land_127.
      replace ((v mod 128 + 128) mod 128) with (v mod 128).
      2:{ replace (v mod 128 + 128) with (v mod 128 + 1 * 128) by lia.
          rewrite Z.mod_add by lia. symmetry. apply Z.mod_small. lia. }
      rewrite lor_shiftl_add by (change (2 ^ 7) with 128; lia).
      change (2 ^ 7) with 128. rewrite Hq.
      pose proof (Z.div_mod v 128 ltac:(lia)). lia.
    + lia.
    + rewrite Hq. split; [apply Z.div_pos; lia|].
      apply Z.div_lt_upper_bound; [lia|].
      replace (7 * Z.of_nat (S (S fuel'))) with (7 + 7 * Z.of_nat (S fuel')) in Hv by lia.
      rewrite Z.pow_add_r in Hv by lia. change (2 ^ 7) with 128 in Hv. lia.
Qed.

Lemma get_put_varint64 (v : Z) (rest : list byte) :
  0 <= v < 2 ^ 64 ->
  wire.get_varint wire.maxVarintLen (wire.put_varint wire.maxVarintLen v ++ rest)
  = Some (v, rest).
Proof.
  intros H. apply get_put_varint; [unfold wire.maxVarintLen; lia|].
  change (2 ^ (7 * Z.of_nat wire.maxVarintLen)) with (2 ^ 70).
  assert (2 ^ 64 < 2 ^ 70) by reflexivity. lia.
Qed.

Lemma fields_offset (fuel : nat) (o : Z) (r0 : api.Record_) :
  0 <= o < 2 ^ 64 ->
  wire.fields (S fuel)
    (wire.tagOffset :: wire.put_varint wire.maxVarintLen o) r0
  = Ok {| api.Value := api.Value r0; api.Offset := o |}.
Proof.
  intros Ho. cbn [wire.fields].
  rewrite <- (app_nil_r (wire.put_varint _ o)), get_put_varint64 by exact Ho.
  change (Byte.eqb wire.tagOffset wire.tagValue) with false.
  change (Byte.eqb wire.tagOffset wire.tagOffset) with true. cbv iota.
  rewrite uint64_small by exact Ho. destruct fuel; reflexivity.
Qed.

Lemma fields_value (fuel : nat) (v rest : list byte) (r0 : api.Record_) :
  Go.len v < 2 ^ 64 ->
  wire.fields (S fuel)
    (wire.tagValue :: wire.put_varint wire.maxVarintLen (Go.len v) ++ v ++ rest) r0
  = wire.fields fuel rest {| api.Value := v; api.Offset := api.Offset r0 |}.
Proof.
  intros Hv. pose proof (len_nonneg v). pose proof (len_nonneg rest).
  cbn [wire.fields].
  rewrite get_put_varint64 by lia.
  change (Byte.eqb wire.tagValue wire.tagValue) with true. cbv iota.
  rewrite len_app.
  destruct (Z.leb_spec (Go.len v) (Go.len v + Go.len rest)); [|lia].
  unfold Go.len. rewrite Nat2Z.id.
  rewrite firstn_app_len, skipn_app_len by reflexivity. reflexivity.
Qed.

Lemma fields_value_only (fuel : nat) (v : list byte) (r0 : api.Record_) :
  Go.len v < 2 ^ 64 ->
  wire.fields (S fuel)
    (wire.tagValue :: wire.put_varint wire.maxVarintLen (Go.len v) ++ v) r0
  = Ok {| api.Value := v; api.Offset := api.Offset r0 |}.
Proof.
  intros Hv.
  replace (wire.put_varint wire.maxVarintLen (Go.len v) ++ v)
    with (wire.put_varint wire.maxVarintLen (Go.len v) ++ v ++ [])
    by (rewrite app_nil_r; reflexivity).
  rewrite fields_value by exact Hv. destruct fuel; reflexivity.
Qed.

Lemma wire_round_trip (r : api.Record_) :
  0 <= api.Offset r < 2 ^ 64 -> Go.len (api.Value r) < 2 ^ 64 ->
  exists p, wire.Marshal r = Ok p
            /\ wire.Unmarshal p = Ok r
            /\ Go.len p <= Go.len (api.Value r) + 22.
Proof.
  intros Ho Hv. destruct r as [v o]. cbn [api.Offset api.Value] in *.
  unfold wire.Marshal. cbn [api.Offset api.Value].
  eexists. split; [reflexivity|].
  pose proof (put_varint_length wire.maxVarintLen (Go.len v)) as L1.
  pose proof (put_varint_length wire.maxVarintLen o) as L2.
  unfold wire.Unmarshal.
  destruct v as [|b v]; destruct (Z.eqb_spec o 0) as [->|Ho0].
  - split; [reflexivity|]. unfold Go.len. simpl. lia.
  - split.
    + cbn [app length]. apply fields_offset. exact Ho.
    + cbn [app]. unfold Go.len, wire.maxVarintLen in *. cbn [length] in *. lia.
  - split.
    + rewrite app_nil_r. cbn [length].
      apply fields_value_only. exact Hv.
    + rewrite app_nil_r. unfold Go.len, wire.maxVarintLen in *. cbn [length] in *.
      rewrite length_app. cbn [length]. lia.
  - split.
    + set (A := wire.put_varint wire.maxVarintLen (Go.len (b :: v))).
      set (B := wire.put_varint wire.maxVarintLen o).
      assert (EL : exists k,
                 length ((wire.tagValue :: A ++ b :: v) ++ wire.tagOffset :: B)
                 = S (S k)).
      { exists (length A + length v + S (length B))%nat.
        cbn [app length]. rewrite !length_app. cbn [length]. lia. }
      destruct EL as [k ->].
      replace ((wire.tagValue :: A ++ b :: v) ++ wire.tagOffset :: B)
        with (wire.tagValue :: A ++ (b :: v) ++ wire.tagOffset :: B)
        by (cbn [app]; rewrite <- app_assoc; reflexivity).
      unfold A. rewrite fields_value by exact Hv.
      apply fields_offset. exact Ho.
    + unfold Go.len, wire.maxVarintLen in *. rewrite !length_app. cbn [length] in *.
      rewrite length_app. cbn [length]. lia.
Qed.

(** ** Opening a segment *)

Lemma uint64_add_inner (a b c : Z) :
  Go.uint64 (a + Go.uint64 b + c) = Go.uint64 (a + b + c).
Proof.
  unfold Go.uint64. rewrite (Z.mod_eq b (2 ^ 64)) by lia.
  replace (a + (b - 2 ^ 64 * (b / 2 ^ 64)) + c)
    with (a + b + c + (- (b / 2 ^ 64)) * 2 ^ 64) by ring.
  apply Z.mod_add. lia.
Qed.

Lemma Truncate_grow (f : list byte) (n : Z) :
  Go.len f <= n ->
  index.Truncate f n = f ++ repeat Byte.x00 (Z.to_nat n - length f)
  /\ Go.len (index.Truncate f n) = n.
Proof.
  intros H. unfold index.Truncate, Go.len in *.
  rewrite firstn_all2 by lia. split; [reflexivity|].
  rewrite length_app, repeat_length. lia.
Qed.

Lemma entry_app_left (f w : list byte) (k : Z) :
  0 <= k -> 12 * k + 12 <= Go.len f -> entry (f ++ w) k = entry f k.
Proof.
  intros Hk Hfit. unfold entry.
  rewrite !bytes_at_app_left by lia. reflexivity.
Qed.

(** What [newSegment] returns on an index file no longer than the map. *)
Lemma newSegment_opens (dir : segment.Dir) (baseOffset : Z) (c : Config) :
  let f := segment.OpenFile dir (segment.fileName baseOffset ".index") in
  0 < MaxIndexBytes (Segment c) < 2 ^ 63 ->
  Go.len f <= MaxIndexBytes (Segment c) ->
  exists next,
    segment.newSegment dir baseOffset c = Ok (opened dir baseOffset c next)
    /\ (Go.len f < 12 -> next = baseOffset)
    /\ (12 <= Go.len f ->
        next = Go.uint64 (baseOffset
                          + fst (entry f ((Go.len f / 12 - 1) mod 2 ^ 32)) + 1))
    /\ (12 <= Go.len f <= 12 * 2 ^ 32 ->
        (Go.len f / 12 - 1) mod 2 ^ 32 = Go.len f / 12 - 1).
Proof.
  intros f HM Hlen. pose proof (len_nonneg f) as Hf.
  set (M := MaxIndexBytes (Segment c)) in *.
  destruct (Truncate_grow f M Hlen) as [ET LT].
  unfold segment.newSegment, store.newStore, index.newIndex, opened.
  fold f. fold M. rewrite int64_small by lia. rewrite LT.
  destruct (Z.ltb_spec M 0); [lia|].
  destruct (Z.eqb_spec M 0); [lia|].
  rewrite (uint64_small (Go.len f)) by lia.
  set (ix := {| index.mmap := index.Truncate f M; index.size := Go.len f |}).
  pose proof (index_Read_eof ix (-1)) as Heof.
  pose proof (index_Read_entry ix (-1)) as Hok.
  pose proof (entry_number_last (Go.len f)) as Hlast.
  unfold entry_number in Heof, Hok, Hlast.
  change (-1 =? -1) with true in Heof, Hok, Hlast. cbv iota in Heof, Hok, Hlast.
  cbn [index.size index.mmap ix] in Heof, Hok.
  set (e := (Go.len f / 12 - 1) mod 2 ^ 32) in *.
  assert (He : 0 <= e < 2 ^ 32) by (apply Z.mod_pos_bound; reflexivity).
  destruct (Z.lt_ge_cases (Go.len f) 12) as [Hsmall|Hbig].
  - assert (E : index.Read ix (-1) = Err EOF).
    { apply Heof. right.
      assert (Ee : e = 2 ^ 32 - 1).
      { unfold e. rewrite Z.div_small by lia. reflexivity. }
      rewrite Ee. lia. }
    rewrite E. exists baseOffset. unfold ix. rewrite ET.
    split; [reflexivity|]. split; [reflexivity|]. split; lia.
  - assert (Hdiv : 1 <= Go.len f / 12) by (apply Z.div_le_lower_bound; lia).
    assert (Hmul : 12 * (Go.len f / 12) <= Go.len f)
      by (apply Z.mul_div_le; lia).
    assert (Hle : e <= Go.len f / 12 - 1) by (apply Z.mod_le; lia).
    rewrite Hok by lia. unfold ix.
    rewrite ET, entry_app_left by lia.
    destruct (entry f e) as [off pos] eqn:Ent.
    eexists. split; [reflexivity|]. cbn [fst].
    split; [lia|]. split.
    + intros _. apply uint64_add_inner.
    + intros Hcap. apply Hlast. lia.
Qed.

(** C3 (amended): opening a segment whose index file is no longer than
    [MaxIndexBytes] succeeds; the next offset is the base offset when the
    file holds no whole entry, and otherwise one past the relative offset of
    entry number [size / 12 - 1] cut to 32 bits, which is the last entry of
    an index of at most [2 ^ 32] entries. *)
Theorem newSegment_nextOffset (dir : segment.Dir) (baseOffset : Z) (c : Config) :
  let f := segment.OpenFile dir (segment.fileName baseOffset ".index") in
  0 < MaxIndexBytes (Segment c) < 2 ^ 63 ->
  Go.len f <= MaxIndexBytes (Segment c) ->
  exists s,
    segment.newSegment dir baseOffset c = Ok s
    /\ (Go.len f < 12 -> segment.nextOffset s = baseOffset)
    /\ (12 <= Go.len f ->
        segment.nextOffset s
        = Go.uint64 (baseOffset
                     + fst (entry f ((Go.len f / 12 - 1) mod 2 ^ 32)) + 1))
    /\ (12 <= Go.len f <= 12 * 2 ^ 32 ->
        segment.nextOffset s
        = Go.uint64 (baseOffset + fst (entry f (Go.len f / 12 - 1)) + 1)).
Proof.
  intros f HM Hlen.
  destruct (newSegment_opens dir baseOffset c HM Hlen)
    as (next & E & Hsmall & Hbig & Hcap).
  fold f in Hsmall, Hbig, Hcap.
  exists (opened dir baseOffset c next). cbn [opened segment.nextOffset].
  split; [exact E|]. split; [exact Hsmall|]. split; [exact Hbig|].
  intros Hsz. rewrite <- (Hcap Hsz). apply Hbig. lia.
Qed.

Lemma newSegment_fresh (baseOffset : Z) (c : Config) :
  0 < MaxIndexBytes (Segment c) < 2 ^ 63 ->
  segment.newSegment dir_empty baseOffset c = Ok (segment_fresh baseOffset c).
Proof.
  intros HM. unfold segment.newSegment, segment.OpenFile, dir_empty,
    store.newStore, index.newIndex.
  rewrite int64_small by lia.
  destruct (Z.ltb_spec (MaxIndexBytes (Segment c)) 0); [lia|].
  assert (L : Go.len (index.Truncate [] (MaxIndexBytes (Segment c)))
              = MaxIndexBytes (Segment c))
    by (apply Truncate_grow; unfold Go.len; simpl; lia).
  rewrite L.
  destruct (Z.eqb_spec (MaxIndexBytes (Segment c)) 0); [lia|].
  change (Go.uint64 (Go.len (@nil byte))) with 0.
  unfold index.Read. cbn [index.size Z.eqb].
  unfold segment_fresh. do 3 f_equal.
  unfold index.Truncate. rewrite firstn_nil. cbn [app length].
  rewrite Nat.sub_0_r. reflexivity.
Qed.

Lemma fresh_represents (Unmarshal : list byte -> outcome api.Record_)
      (baseOffset : Z) (c : Config) :
  0 < MaxIndexBytes (Segment c) < 2 ^ 63 -> 0 <= baseOffset < 2 ^ 64 ->
  represents Unmarshal (segment_fresh baseOffset c) [].
Proof.
  intros HM Hb. constructor; cbn [segment_fresh segment.store segment.index
    segment.baseOffset segment.nextOffset index.size index.mmap].
  - unfold store_ok, contents. cbn. repeat split.
  - reflexivity.
  - change (Go.len (@nil api.Record_)) with 0. unfold Go.len.
    rewrite repeat_length. lia.
  - exact Hb.
  - change (Go.len (@nil api.Record_)) with 0.
    rewrite Z.add_0_r, Z.mod_small by lia. reflexivity.
  - intros k r H. destruct k; discriminate.
Qed.

Lemma newSegment_nextOffset_witness :
  0 < MaxIndexBytes (Segment config_1024) < 2 ^ 63
  /\ Go.len (segment.OpenFile dir_two_entries (segment.fileName 5 ".index"))
     <= MaxIndexBytes (Segment config_1024)
  /\ exists s, segment.newSegment dir_two_entries 5 config_1024 = Ok s
               /\ segment.nextOffset s = 7.
Proof.
  assert (H1 : 0 < MaxIndexBytes (Segment config_1024) < 2 ^ 63)
    by (split; reflexivity).
  assert (H2 : Go.len (segment.OpenFile dir_two_entries (segment.fileName 5 ".index"))
               <= MaxIndexBytes (Segment config_1024)) by (vm_compute; discriminate).
  destruct (newSegment_nextOffset dir_two_entries 5 config_1024 H1 H2)
    as (s & E & _ & _ & Hnext).
  split; [exact H1|]. split; [exact H2|].
  exists s. split; [exact E|].
  rewrite Hnext by (vm_compute; split; discriminate). reflexivity.
Defined.

(** C3, as stated, fails.  With an index file of two entries and
    [MaxIndexBytes = 12], the file is cut to twelve bytes before it is mapped
    while [size] stays 24, and reading the last entry panics: no segment is
    opened.  With an index file of five bytes, which is not empty and holds
    no entry, the next offset is the base offset. *)
Lemma newSegment_counterexample :
  segment.newSegment (dir_with_index 0 (repeat Byte.x00 24)) 0
    (config_of 1024 12 0) = Panic
  /\ ~ opened_as_specified (dir_with_index 0 (repeat Byte.x00 24)) 0
         (config_of 1024 12 0)
  /\ segment.newSegment (dir_with_index 0 (repeat Byte.x00 5)) 0
       (config_of 1024 24 0)
     = Ok {| segment.store := store_empty;
             segment.index := {| index.mmap := repeat Byte.x00 24;
                                 index.size := 5 |};
             segment.baseOffset := 0;
             segment.nextOffset := 0;
             segment.config := config_of 1024 24 0 |}
  /\ ~ opened_as_specified (dir_with_index 0 (repeat Byte.x00 5)) 0
         (config_of 1024 24 0).
Proof.
  split; [reflexivity|]. split.
  - intros (s & E & _). vm_compute in E. discriminate.
  - split; [reflexivity|].
    intros (s & E & _ & H).
    assert (E' : segment.nextOffset s = 0).
    { vm_compute in E. injection E as <-. reflexivity. }
    rewrite E' in H. specialize (H ltac:(vm_compute; discriminate)).
    vm_compute in H. discriminate.
Qed.

(** ** Offsets and bookkeeping *)

Section Offsets.

Variable Marshal : api.Record_ -> outcome (list byte).

(** What one append does to the next offset and to the size of the index. *)
Lemma Append_step (s : segment.t) (r : api.Record_) :
  0 <= index.size (segment.index s) < 2 ^ 64 ->
  Go.len (index.mmap (segment.index s)) < 2 ^ 63 ->
  let s' := fst (fst (segment.Append Marshal s r)) in
  segment.baseOffset s' = segment.baseOffset s
  /\ Go.len (index.mmap (segment.index s'))
     = Go.len (index.mmap (segment.index s))
  /\ match snd (segment.Append Marshal s r) with
     | Ok o =>
         o = segment.nextOffset s
         /\ segment.nextOffset s' = Go.uint64 (segment.nextOffset s + 1)
         /\ index.size (segment.index s') = index.size (segment.index s) + 12
         /\ index.size (segment.index s') <= Go.len (index.mmap (segment.index s))
     | _ =>
         segment.nextOffset s' = segment.nextOffset s
         /\ index.size (segment.index s') = index.size (segment.index s)
     end.
Proof.
  intros Hs Hl. unfold segment.Append.
  destruct (Marshal (api.set_Offset r (segment.nextOffset s))) as [p|e|];
    [|cbn; repeat split..].
  destruct (store.Append (segment.store s) p) as [st [[n pos]|e|]];
    [|cbn; repeat split..].
  cbn [segment.index segment.nextOffset segment.baseOffset].
  set (off := Go.uint32 _).
  destruct (index_Write_cases (segment.index s) off pos Hs Hl)
    as [(Hfit & Hr & Hsz & Hlen)|(Hne & Hfst)];
    destruct (index.Write (segment.index s) off pos) as [ix out];
    cbn [fst snd] in *; subst.
  - cbn [fst snd segment.baseOffset segment.nextOffset segment.index].
    split; [reflexivity|]. split; [exact Hlen|].
    split; [reflexivity|]. split; [reflexivity|]. split; [exact Hsz|lia].
  - destruct out as [[]|e|]; [congruence|..];
      cbn [fst snd segment.baseOffset segment.nextOffset segment.index];
      repeat split.
Qed.

Lemma Append_nextOffset (s : segment.t) (r : api.Record_) :
  match snd (segment.Append Marshal s r) with
  | Ok o =>
      o = segment.nextOffset s
      /\ segment.nextOffset (fst (fst (segment.Append Marshal s r)))
         = Go.uint64 (segment.nextOffset s + 1)
  | _ =>
      segment.nextOffset (fst (fst (segment.Append Marshal s r)))
      = segment.nextOffset s
  end.
Proof.
  unfold segment.Append.
  destruct (Marshal (api.set_Offset r (segment.nextOffset s))) as [p|e|];
    [|reflexivity..].
  destruct (store.Append (segment.store s) p) as [st [[n pos]|e|]];
    [|reflexivity..].
  destruct (index.Write _ _ pos) as [ix [[]|e|]]; cbn; repeat split.
Qed.

Lemma uint64_succ_mod (a : Z) :
  Go.uint64 (a mod 2 ^ 64 + 1) = (a + 1) mod 2 ^ 64.
Proof. unfold Go.uint64. apply Z.add_mod_idemp_l. lia. Qed.

Lemma appends_offsets_mod (records : list api.Record_) (s : segment.t) (k : Z) :
  segment.nextOffset s = k mod 2 ^ 64 ->
  forall i o,
    nth_error (successes (snd (segment.appends Marshal s records))) i = Some o ->
    o = (k + Z.of_nat i) mod 2 ^ 64.
Proof.
  revert s k. induction records as [|r rest IH]; intros s k Hk i o Hi.
  - destruct i; discriminate.
  - cbn [segment.appends] in Hi.
    pose proof (Append_nextOffset s r) as HA.
    destruct (segment.Append Marshal s r) as [[s1 r1] out].
    cbn [fst snd] in HA.
    destruct (segment.appends Marshal s1 rest) as [s2 os] eqn:Erest.
    assert (IH1 := fun k H => IH s1 k H). rewrite Erest in IH1.
    cbn [snd] in IH1, Hi.
    destruct out as [v|e|]; cbn [successes] in Hi.
    + destruct HA as [-> Hn]. destruct i as [|i].
      * injection Hi as <-. rewrite Z.add_0_r. exact Hk.
      * cbn [nth_error] in Hi.
        rewrite (IH1 (k + 1) ltac:(rewrite Hn, Hk; apply uint64_succ_mod) i o Hi).
        f_equal. lia.
    + apply (IH1 k); [congruence|exact Hi].
    + apply (IH1 k); [congruence|exact Hi].
Qed.

(** C2 (amended): the offsets returned by the successful appends of a run
    are the next offset of the segment and its successors in [uint64]
    arithmetic; while the next offset stays below [2 ^ 64] each is exactly
    one more than the one before. *)
Theorem appends_offsets (s : segment.t) (records : list api.Record_) :
  0 <= segment.nextOffset s < 2 ^ 64 ->
  (forall i o,
      nth_error (successes (snd (segment.appends Marshal s records))) i = Some o ->
      o = (segment.nextOffset s + Z.of_nat i) mod 2 ^ 64)
  /\ (segment.nextOffset s
      + Go.len (successes (snd (segment.appends Marshal s records))) <= 2 ^ 64 ->
      forall i o,
        nth_error (successes (snd (segment.appends Marshal s records))) i = Some o ->
        o = segment.nextOffset s + Z.of_nat i).
Proof.
  intros Hn.
  assert (H : forall i o,
             nth_error (successes (snd (segment.appends Marshal s records))) i
             = Some o ->
             o = (segment.nextOffset s + Z.of_nat i) mod 2 ^ 64).
  { apply appends_offsets_mod. symmetry. apply Z.mod_small. exact Hn. }
  split; [exact H|].
  intros Hfit i o Hi. rewrite (H i o Hi).
  assert ((i < length (successes (snd (segment.appends Marshal s records))))%nat)
    by (apply nth_error_Some; congruence).
  apply Z.mod_small. unfold Go.len in Hfit. lia.
Qed.

(** C7 (amended): the bookkeeping holds after a segment has been opened on
    an index file that holds no whole entry, or whose last entry holds its own
    number as relative offset; every append keeps it, with both sides one
    higher after a success and unchanged after a failure. *)
Theorem bookkeeping_invariant :
  (forall dir baseOffset c s,
      0 <= baseOffset < 2 ^ 64 ->
      0 < MaxIndexBytes (Segment c) < 2 ^ 63 ->
      Go.len (segment.OpenFile dir (segment.fileName baseOffset ".index"))
      <= MaxIndexBytes (Segment c) ->
      Go.len (segment.OpenFile dir (segment.fileName baseOffset ".index")) < 12
      \/ (Go.len (segment.OpenFile dir (segment.fileName baseOffset ".index"))
          <= 12 * 2 ^ 32
          /\ fst (entry (segment.OpenFile dir (segment.fileName baseOffset ".index"))
                    (Go.len (segment.OpenFile dir
                               (segment.fileName baseOffset ".index")) / 12 - 1))
             = Go.len (segment.OpenFile dir
                         (segment.fileName baseOffset ".index")) / 12 - 1) ->
      segment.newSegment dir baseOffset c = Ok s ->
      in_range s /\ bookkeeping s)
  /\ (forall s r,
      in_range s -> bookkeeping s ->
      in_range (fst (fst (segment.Append Marshal s r)))
      /\ bookkeeping (fst (fst (segment.Append Marshal s r)))
      /\ match snd (segment.Append Marshal s r) with
         | Ok _ =>
             segment.nextOffset (fst (fst (segment.Append Marshal s r)))
             = Go.uint64 (segment.nextOffset s + 1)
             /\ index.size (segment.index (fst (fst (segment.Append Marshal s r)))) / 12
                = index.size (segment.index s) / 12 + 1
         | _ =>
             segment.nextOffset (fst (fst (segment.Append Marshal s r)))
             = segment.nextOffset s
             /\ index.size (segment.index (fst (fst (segment.Append Marshal s r))))
                = index.size (segment.index s)
         end).
Proof.
  split.
  - intros dir baseOffset c s Hb HM Hlen Hfile HE.
    set (f := segment.OpenFile dir (segment.fileName baseOffset ".index")) in *.
    pose proof (len_nonneg f) as Hf.
    destruct (newSegment_opens dir baseOffset c HM Hlen)
      as (next & E & Hsmall & Hbig & Hcap).
    fold f in Hsmall, Hbig, Hcap.
    rewrite E in HE. injection HE as <-.
    assert (Hbase : segment.baseOffset (opened dir baseOffset c next) = baseOffset)
      by reflexivity.
    assert (Hnx : segment.nextOffset (opened dir baseOffset c next) = next)
      by reflexivity.
    assert (Hsz : index.size (segment.index (opened dir baseOffset c next))
                  = Go.len f) by reflexivity.
    assert (HLm : Go.len (index.mmap (segment.index (opened dir baseOffset c next)))
                  = MaxIndexBytes (Segment c)).
    { unfold Go.len, opened. cbn [segment.index index.mmap]. fold f.
      rewrite length_app, repeat_length. unfold Go.len in Hlen. lia. }
    destruct (Z.lt_ge_cases (Go.len f) 12) as [Hlt|Hge].
    + specialize (Hsmall Hlt). subst next. split.
      * unfold in_range. rewrite Hbase, Hnx, Hsz, HLm. lia.
      * unfold bookkeeping. rewrite Hbase, Hnx, Hsz, Z.sub_diag.
        rewrite Z.div_small by lia. reflexivity.
    + destruct Hfile as [Hlt|[Hmax Hlast]]; [lia|].
      specialize (Hbig Hge). rewrite (Hcap ltac:(lia)), Hlast in Hbig.
      assert (Hk : 0 <= Go.len f / 12 <= Go.len f).
      { split; [apply Z.div_pos; lia|].
        apply Z.div_le_upper_bound; lia. }
      split.
      * unfold in_range. rewrite Hbase, Hsz, HLm, Hnx, Hbig.
        pose proof (uint64_range (baseOffset + (Go.len f / 12 - 1) + 1)). lia.
      * unfold bookkeeping. rewrite Hbase, Hsz, Hnx, Hbig.
        replace (baseOffset + (Go.len f / 12 - 1) + 1)
          with (baseOffset + Go.len f / 12) by lia.
        unfold Go.uint64 at 2. rewrite relative_offset64 by exact Hb.
        apply Z.mod_small. lia.
  - intros s r (Hb & Hn & Hs & Hl) Hbk.
    pose proof (Append_step s r Hs Hl) as HA. cbv zeta in HA.
    destruct HA as (Ebase & Elen & HA).
    set (s' := fst (fst (segment.Append Marshal s r))) in *.
    unfold in_range, bookkeeping in *. rewrite Ebase, Elen.
    destruct (snd (segment.Append Marshal s r)) as [o|e|].
    + destruct HA as (_ & En & Es & Hfit). rewrite En, Es.
      assert (Hq : (index.size (segment.index s) + 12) / 12
                   = index.size (segment.index s) / 12 + 1).
      { replace (index.size (segment.index s) + 12)
          with (index.size (segment.index s) + 1 * 12) by lia.
        apply Z.div_add. lia. }
      pose proof (uint64_range (segment.nextOffset s + 1)).
      assert (Hd : 0 <= index.size (segment.index s) / 12
                   <= index.size (segment.index s)).
      { split; [apply Z.div_pos; lia|apply Z.div_le_upper_bound; lia]. }
      repeat split; try lia.
      rewrite Hq, <- Hbk. unfold Go.uint64.
      rewrite Zminus_mod_idemp_l.
      replace (segment.nextOffset s + 1 - segment.baseOffset s)
        with (segment.nextOffset s - segment.baseOffset s + 1) by lia.
      rewrite <- (Z.add_mod_idemp_l (segment.nextOffset s - segment.baseOffset s))
        by lia.
      fold (Go.uint64 (segment.nextOffset s - segment.baseOffset s)).
      rewrite Hbk. apply Z.mod_small. lia.
    + destruct HA as (En & Es). rewrite En, Es. repeat split; lia.
    + destruct HA as (En & Es). rewrite En, Es. repeat split; lia.
Qed.

End Offsets.

(** ** The claims on sample segments *)

Lemma appends_offsets_witness :
  0 <= segment.nextOffset (segment_fresh 0 config_1024) < 2 ^ 64
  /\ successes (snd (segment.appends wire.Marshal (segment_fresh 0 config_1024)
                       [rec_hello; rec_world])) = [0; 1]
  /\ forall i o,
      nth_error (successes (snd (segment.appends wire.Marshal
                                   (segment_fresh 0 config_1024)
                                   [rec_hello; rec_world]))) i = Some o ->
      o = segment.nextOffset (segment_fresh 0 config_1024) + Z.of_nat i.
Proof.
  assert (H1 : 0 <= segment.nextOffset (segment_fresh 0 config_1024) < 2 ^ 64)
    by (simpl; lia).
  split; [exact H1|]. split; [reflexivity|].
  apply (appends_offsets wire.Marshal (segment_fresh 0 config_1024)
           [rec_hello; rec_world] H1).
  vm_compute. discriminate.
Defined.

(** C2, as stated, fails: a new segment with base offset [2 ^ 64 - 1]
    returns [2 ^ 64 - 1] for the first append and [0] for the second. *)
Lemma appends_offsets_counterexample :
  segment.newSegment dir_empty (2 ^ 64 - 1) config_1024
  = Ok (segment_fresh (2 ^ 64 - 1) config_1024)
  /\ successes (snd (segment.appends wire.Marshal
                       (segment_fresh (2 ^ 64 - 1) config_1024)
                       [rec_a; rec_b]))
     = [2 ^ 64 - 1; 0]
  /\ ~ gap_free (successes (snd (segment.appends wire.Marshal
                                  (segment_fresh (2 ^ 64 - 1) config_1024)
                                  [rec_a; rec_b]))).
Proof.
  split; [reflexivity|]. split; [reflexivity|].
  intros H. specialize (H 0%nat (2 ^ 64 - 1) 0 eq_refl eq_refl). discriminate H.
Qed.

Lemma bookkeeping_invariant_witness :
  in_range (segment_fresh 0 config_1024)
  /\ bookkeeping (segment_fresh 0 config_1024)
  /\ in_range (fst (fst (segment.Append wire.Marshal
                           (segment_fresh 0 config_1024) rec_hello)))
  /\ bookkeeping (fst (fst (segment.Append wire.Marshal
                              (segment_fresh 0 config_1024) rec_hello))).
Proof.
  assert (H1 : in_range (segment_fresh 0 config_1024)).
  { unfold in_range. vm_compute. repeat split; discriminate. }
  assert (H2 : bookkeeping (segment_fresh 0 config_1024)) by reflexivity.
  destruct (proj2 (bookkeeping_invariant wire.Marshal)
              (segment_fresh 0 config_1024) rec_hello H1 H2) as (H3 & H4 & _).
  split; [exact H1|]. split; [exact H2|]. split; [exact H3|exact H4].
Defined.

(** C7, as stated, fails.  After one append to a new segment with room for
    two index entries the mapped index file is 24 zero bytes; a segment
    opened on that file, as after a stop without [Close], has next offset 1
    and two index entries. *)
Lemma bookkeeping_counterexample :
  index.mmap (segment.index segment_one_of_two) = repeat Byte.x00 24
  /\ exists s,
      segment.newSegment (dir_with_index 0 (repeat Byte.x00 24)) 0
        (config_of 1024 24 0) = Ok s
      /\ segment.nextOffset s - segment.baseOffset s = 1
      /\ index.size (segment.index s) / 12 = 2
      /\ ~ bookkeeping s.
Proof.
  split; [reflexivity|].
  eexists. split; [reflexivity|]. split; [reflexivity|]. split; [reflexivity|].
  unfold bookkeeping. vm_compute. discriminate.
Qed.

(** C6 fails on the code.  After 85 appends to a new segment with
    [MaxIndexBytes = 1024] the index holds 1020 bytes; the next append fails
    because the index write returns the end-of-space error, and [IsMaxed]
    is false afterwards. *)
Lemma index_full_not_maxed :
  successes (snd (segment.appends wire.Marshal
                    (segment_fresh 0 config_index_1024) (repeat rec_hello 85)))
  = map Z.of_nat (seq 0 85)
  /\ index.size (segment.index segment_85) = 1020
  /\ snd (index.Write (segment.index segment_85) 85
            (store.size (segment.store segment_85))) = Err EOF
  /\ snd (segment.Append wire.Marshal segment_85 rec_hello) = Err EOF
  /\ segment.IsMaxed (fst (fst (segment.Append wire.Marshal segment_85 rec_hello)))
     = false.
Proof. vm_compute. repeat split. Qed.

(** ** Runs of appends *)

Section Runs.

Variable Marshal : api.Record_ -> outcome (list byte).
Variable Unmarshal : list byte -> outcome api.Record_.

Lemma appends_represents (B : Z) (records : list api.Record_) :
  forall (s : segment.t) (rs : list api.Record_),
    represents Unmarshal s rs ->
    Forall (encodable Marshal Unmarshal B) records ->
    12 * (Go.len rs + Go.len records) <= Go.len (index.mmap (segment.index s)) ->
    store.size (segment.store s) + Go.len records * (8 + B) < 2 ^ 63 ->
    exists s',
      segment.appends Marshal s records
      = (s', map (fun r => Ok (api.Offset r)) (stamp (segment.nextOffset s) records))
      /\ represents Unmarshal s' (rs ++ stamp (segment.nextOffset s) records)
      /\ segment.baseOffset s' = segment.baseOffset s
      /\ Go.len (index.mmap (segment.index s'))
         = Go.len (index.mmap (segment.index s))
      /\ store.size (segment.store s')
         <= store.size (segment.store s) + Go.len records * (8 + B).
Proof.
  induction records as [|r rest IH]; intros s rs R Hgood Hroom Hstore.
  - exists s. cbn [segment.appends stamp map]. rewrite app_nil_r.
    change (Go.len (@nil api.Record_)) with 0.
    split; [reflexivity|]. split; [exact R|]. split; [reflexivity|].
    split; [reflexivity|]. lia.
  - inversion Hgood as [|r0 l0 Hr Hrest]; subst.
    pose proof (len_nonneg rs) as Hn. pose proof (len_nonneg rest) as Hm.
    assert (Hlen : Go.len (r :: rest) = 1 + Go.len rest)
      by (unfold Go.len; cbn [length]; lia).
    rewrite Hlen in *.
    assert (Hnext : 0 <= segment.nextOffset s < 2 ^ 64).
    { rewrite (rep_next _ _ _ R). apply Z.mod_pos_bound. reflexivity. }
    destruct (Hr _ Hnext) as (p & HM & HU & HB).
    pose proof (len_nonneg p) as Hp.
    assert (Hsz0 : 0 <= store.size (segment.store s)).
    { destruct (rep_store _ _ _ R) as (_ & -> & _). apply len_nonneg. }
    assert (HBpos : 0 <= B) by lia.
    assert (Hb : store.size (segment.store s) + 8 + Go.len p < 2 ^ 63) by nia.
    destruct (Append_represents Marshal Unmarshal s rs r p R HM Hb) as [Hfit _].
    destruct Hfit as (s1 & E1 & Hrep & Hbase & Hnx & Hisz & Hmlen & Hst & _); [lia|].
    specialize (Hrep HU).
    assert (Hsz1 : store.size (segment.store s1)
                   = store.size (segment.store s) + (Go.len p + 8))
      by (rewrite Hst; reflexivity).
    destruct (IH s1 (rs ++ [api.set_Offset r (segment.nextOffset s)]) Hrep Hrest)
      as (s2 & E2 & Hrep2 & Hbase2 & Hmlen2 & Hst2).
    + rewrite Hmlen, len_app. change (Go.len [_]) with 1. lia.
    + rewrite Hsz1. nia.
    + exists s2. cbn [segment.appends stamp map]. rewrite E1, E2, Hnx.
      cbn [api.Offset api.set_Offset].
      split; [reflexivity|].
      rewrite <- app_assoc in Hrep2. rewrite Hnx in Hrep2.
      split; [exact Hrep2|]. split; [congruence|]. split; [congruence|].
      rewrite Hsz1 in Hst2. nia.
Qed.

End Runs.

(** ** A segment of more than [2 ^ 32] records *)

Lemma stamp_length (records : list api.Record_) :
  forall next, length (stamp next records) = length records.
Proof.
  induction records as [|r rest IH]; intros next; cbn [stamp length];
    [reflexivity|]. rewrite IH. reflexivity.
Qed.

Lemma wire_encodable (r : api.Record_) :
  Go.len (api.Value r) < 2 ^ 64 ->
  encodable wire.Marshal wire.Unmarshal (Go.len (api.Value r) + 22) r.
Proof.
  intros Hv o Ho.
  destruct (wire_round_trip (api.set_Offset r o)) as (p & H1 & H2 & H3);
    [exact Ho|exact Hv|].
  exists p. repeat split; assumption.
Qed.

Lemma fresh_len (baseOffset : Z) (c : Config) :
  0 <= MaxIndexBytes (Segment c) ->
  Go.len (index.mmap (segment.index (segment_fresh baseOffset c)))
  = MaxIndexBytes (Segment c).
Proof.
  intros H. unfold Go.len. cbn [segment_fresh segment.index index.mmap].
  rewrite repeat_length. lia.
Qed.

Lemma cap_run (n : nat) (c : Config) :
  Z.of_nat n = 2 ^ 32 ->
  MaxIndexBytes (Segment c) = 12 * (2 ^ 32 + 1) ->
  exists s s' r' s1 s2,
    segment.appends wire.Marshal (segment_fresh 0 c) (repeat rec_a n)
    = (s, map (fun r => Ok (api.Offset r)) (stamp 0 (repeat rec_a n)))
    /\ well_formed s
    /\ segment.Append wire.Marshal s rec_b = (s', r', Ok (2 ^ 32))
    /\ segment.baseOffset s' = 0
    /\ represents wire.Unmarshal s'
         (stamp 0 (repeat rec_a n) ++ [api.set_Offset rec_b (2 ^ 32)])
    /\ segment.Read wire.Unmarshal s' (2 ^ 32) = (s1, Ok rec_a)
    /\ segment.Read wire.Unmarshal s' (Go.uint64 (0 - 1)) = (s2, Ok rec_a).
Proof.
  intros Hn HM.
  assert (HM' : 0 < MaxIndexBytes (Segment c) < 2 ^ 63)
    by (rewrite HM; split; reflexivity).
  pose proof (fresh_represents wire.Unmarshal 0 c HM' ltac:(lia)) as R0.
  assert (Lm : Go.len (index.mmap (segment.index (segment_fresh 0 c)))
               = 12 * (2 ^ 32 + 1)) by (rewrite fresh_len; lia).
  assert (Lr : Go.len (repeat rec_a n) = 2 ^ 32)
    by (unfold Go.len; rewrite repeat_length; exact Hn).
  destruct (appends_represents wire.Marshal wire.Unmarshal 23 (repeat rec_a n)
              (segment_fresh 0 c) [] R0)
    as (s & E & R & Hbase & Hmlen & Hst).
  { apply Forall_forall. intros r Hr. apply repeat_spec in Hr. subst r.
    apply (wire_encodable rec_a). reflexivity. }
  { rewrite Lm, Lr. change (Go.len (@nil api.Record_)) with 0. lia. }
  { rewrite Lr. reflexivity. }
  cbn [segment_fresh segment.nextOffset segment.baseOffset segment.store
       store.size app] in E, R, Hbase, Hst.
  rewrite Lr in Hst.
  set (rs := stamp 0 (repeat rec_a n)) in *.
  assert (Lrs : Go.len rs = 2 ^ 32)
    by (unfold rs, Go.len; rewrite stamp_length, repeat_length; exact Hn).
  assert (Hnext : segment.nextOffset s = 2 ^ 32)
    by (rewrite (rep_next _ _ _ R), Hbase, Lrs; reflexivity).
  destruct (wire_round_trip (api.set_Offset rec_b (2 ^ 32)))
    as (p & HMp & HUp & Hlp); [split; [discriminate|reflexivity]|reflexivity|].
  change (Go.len (api.Value (api.set_Offset rec_b (2 ^ 32))) + 22) with 23 in Hlp.
  pose proof (len_nonneg p) as Hp.
  rewrite <- Hnext in HMp, HUp.
  destruct (Append_represents wire.Marshal wire.Unmarshal s rs rec_b p R HMp)
    as [Hfit _]; [lia|].
  destruct Hfit as (s' & EA & R' & Hbase' & _); [rewrite Lrs, Hmlen, Lm; lia|].
  specialize (R' HUp). rewrite Hnext in EA, R'. rewrite Hbase in Hbase'.
  assert (L' : Go.len (rs ++ [api.set_Offset rec_b (2 ^ 32)]) = 2 ^ 32 + 1)
    by (rewrite len_app, Lrs; reflexivity).
  assert (H0 : nth_error (rs ++ [api.set_Offset rec_b (2 ^ 32)]) (Z.to_nat 0)
               = Some rec_a).
  { unfold rs. destruct n as [|n']; [discriminate Hn|]. reflexivity. }
  destruct (Read_represents wire.Unmarshal s' _ (2 ^ 32) R') as [_ Hr1].
  destruct (Read_represents wire.Unmarshal s' _ (Go.uint64 (0 - 1)) R') as [_ Hr2].
  rewrite L', Hbase' in Hr1, Hr2.
  change (entry_number (12 * (2 ^ 32 + 1)) (Go.int64 (Go.uint64 (2 ^ 32 - 0))))
    with 0 in Hr1.
  change (entry_number (12 * (2 ^ 32 + 1))
            (Go.int64 (Go.uint64 (Go.uint64 (0 - 1) - 0))))
    with 0 in Hr2.
  destruct (Hr1 rec_a H0) as (s1 & E1 & _).
  destruct (Hr2 rec_a H0) as (s2 & E2 & _).
  exists s, s', (api.set_Offset rec_b (2 ^ 32)), s1, s2.
  split; [exact E|].
  split; [exact (represents_well_formed wire.Unmarshal s rs R)|].
  repeat (split; [assumption|]). assumption.
Qed.

Lemma segment_round_trip_witness :
  well_formed (segment_fresh 0 config_1024)
  /\ index.size (segment.index (segment_fresh 0 config_1024)) / 12 < 2 ^ 32
  /\ snd (segment.Append wire.Marshal (segment_fresh 0 config_1024) rec_hello)
     = Ok 0
  /\ exists s'',
      segment.Read wire.Unmarshal
        (fst (fst (segment.Append wire.Marshal (segment_fresh 0 config_1024)
                     rec_hello))) 0
      = (s'', Ok rec_hello).
Proof.
  assert (R : well_formed (segment_fresh 0 config_1024)).
  { apply (represents_well_formed wire.Unmarshal _ []).
    apply fresh_represents; split; reflexivity || discriminate. }
  assert (Hcap : index.size (segment.index (segment_fresh 0 config_1024)) / 12
                 < 2 ^ 32) by reflexivity.
  assert (Hcodec :
            forall p,
              wire.Marshal (api.set_Offset rec_hello
                              (segment.nextOffset (segment_fresh 0 config_1024)))
              = Ok p ->
              wire.Unmarshal p
              = Ok (api.set_Offset rec_hello
                      (segment.nextOffset (segment_fresh 0 config_1024)))
              /\ store.size (segment.store (segment_fresh 0 config_1024))
                 + 8 + Go.len p < 2 ^ 63).
  { intros p E. vm_compute in E. injection E as <-. split; reflexivity. }
  assert (HA : segment.Append wire.Marshal (segment_fresh 0 config_1024) rec_hello
               = (fst (fst (segment.Append wire.Marshal
                              (segment_fresh 0 config_1024) rec_hello)),
                  snd (fst (segment.Append wire.Marshal
                              (segment_fresh 0 config_1024) rec_hello)),
                  Ok 0)) by reflexivity.
  split; [exact R|]. split; [exact Hcap|]. split; [reflexivity|].
  exact (segment_round_trip wire.Marshal wire.Unmarshal _ _ _ _ _
           R Hcap Hcodec HA).
Defined.

(** C1, as stated, fails beyond [2 ^ 32] records.  On a new segment whose
    index has room for [2 ^ 32 + 1] entries, after [2 ^ 32] appends of "a",
    the append of "b" succeeds with offset [2 ^ 32]; its relative offset is
    cut to 0 in the index and in the lookup, and reading offset [2 ^ 32]
    returns the first record, "a" with offset 0. *)
Lemma segment_round_trip_counterexample :
  segment.newSegment dir_empty 0 config_cap = Ok (segment_fresh 0 config_cap)
  /\ exists s s' r' s'',
      segment.appends wire.Marshal (segment_fresh 0 config_cap)
        (repeat rec_a (Z.to_nat (2 ^ 32)))
      = (s, map (fun r => Ok (api.Offset r))
              (stamp 0 (repeat rec_a (Z.to_nat (2 ^ 32)))))
      /\ well_formed s
      /\ segment.Append wire.Marshal s rec_b = (s', r', Ok (2 ^ 32))
      /\ segment.Read wire.Unmarshal s' (2 ^ 32) = (s'', Ok rec_a)
      /\ rec_a <> {| api.Value := api.Value rec_b; api.Offset := 2 ^ 32 |}.
Proof.
  split; [apply newSegment_fresh; split; reflexivity|].
  destruct (cap_run (Z.to_nat (2 ^ 32)) config_cap
              (Z2Nat.id (2 ^ 32) (Z.pow_nonneg 2 32 (Z.lt_le_incl 0 2 Z.lt_0_2)))
              eq_refl)
    as (s & s' & r' & s1 & s2 & E & W & EA & _ & _ & E1 & _).
  exists s, s', r', s1.
  split; [exact E|]. split; [exact W|]. split; [exact EA|]. split; [exact E1|].
  discriminate.
Qed.

Lemma segment_Read_below_base_witness :
  represents wire.Unmarshal
    (fst (segment.appends wire.Marshal (segment_fresh 5 config_1024)
            [rec_hello; rec_world]))
    (stamp 5 [rec_hello; rec_world])
  /\ 1 <= Go.len (stamp 5 [rec_hello; rec_world]) <= 2 ^ 32
  /\ exists s',
      segment.Read wire.Unmarshal
        (fst (segment.appends wire.Marshal (segment_fresh 5 config_1024)
                [rec_hello; rec_world])) 4
      = (s', Ok (api.set_Offset rec_world 6)).
Proof.
  assert (R0 : represents wire.Unmarshal (segment_fresh 5 config_1024) [])
    by (apply fresh_represents; split; reflexivity || discriminate).
  destruct (appends_represents wire.Marshal wire.Unmarshal 27
              [rec_hello; rec_world] (segment_fresh 5 config_1024) [] R0)
    as (s & E & R & _).
  { repeat constructor; [apply (wire_encodable rec_hello)
                        |apply (wire_encodable rec_world)]; reflexivity. }
  { vm_compute. discriminate. }
  { reflexivity. }
  rewrite E. cbn [fst app segment_fresh segment.nextOffset] in *.
  assert (Hlen : 1 <= Go.len (stamp 5 [rec_hello; rec_world]) <= 2 ^ 32)
    by (vm_compute; split; discriminate).
  destruct (segment_Read_below_base wire.Unmarshal s _
              (api.set_Offset rec_world 6) R Hlen) as (_ & s' & Hread).
  split; [exact R|]. split; [exact Hlen|].
  exists s'. 
  replace (segment.baseOffset s) with 5 in Hread.
  - exact Hread.
  - symmetry. apply (f_equal fst) in E. cbn [fst] in E. rewrite <- E. reflexivity.
Defined.

(** C9, as stated, fails beyond [2 ^ 32] records.  The segment of the
    counterexample to C1 holds [2 ^ 32 + 1] records, the last of them "b";
    reading the offset below its base offset returns the first record, "a"
    with offset 0. *)
Lemma segment_Read_below_base_counterexample :
  exists s s' r' s'',
    segment.appends wire.Marshal (segment_fresh 0 config_cap)
      (repeat rec_a (Z.to_nat (2 ^ 32)))
    = (s, map (fun r => Ok (api.Offset r))
            (stamp 0 (repeat rec_a (Z.to_nat (2 ^ 32)))))
    /\ segment.Append wire.Marshal s rec_b = (s', r', Ok (2 ^ 32))
    /\ represents wire.Unmarshal s'
         (stamp 0 (repeat rec_a (Z.to_nat (2 ^ 32)))
          ++ [api.set_Offset rec_b (2 ^ 32)])
    /\ segment.baseOffset s' = 0
    /\ segment.Read wire.Unmarshal s' (Go.uint64 (segment.baseOffset s' - 1))
       = (s'', Ok rec_a)
    /\ rec_a <> api.set_Offset rec_b (2 ^ 32).
Proof.
  destruct (cap_run (Z.to_nat (2 ^ 32)) config_cap
              (Z2Nat.id (2 ^ 32) (Z.pow_nonneg 2 32 (Z.lt_le_incl 0 2 Z.lt_0_2)))
              eq_refl)
    as (s & s' & r' & s1 & s2 & E & _ & EA & Hb & R & _ & E2).
  exists s, s', r', s2.
  split; [exact E|]. split; [exact EA|]. split; [exact R|]. split; [exact Hb|].
  split; [rewrite Hb; exact E2|]. discriminate.
Qed.

(** ** The records of a segment through failed appends and a restart *)

Section Durability.

Variable Marshal : api.Record_ -> outcome (list byte).
Variable Unmarshal : list byte -> outcome api.Record_.

Lemma represents_store_grown (s : segment.t) (rs : list api.Record_)
      (st : store.t) (w : list byte) :
  represents Unmarshal s rs ->
  store_ok st -> contents st = contents (segment.store s) ++ w ->
  represents Unmarshal
    {| segment.store := st; segment.index := segment.index s;
       segment.baseOffset := segment.baseOffset s;
       segment.nextOffset := segment.nextOffset s;
       segment.config := segment.config s |} rs.
Proof.
  intros [Rst Rsz Rroom Rbase Rnext Rrec] Hst Hc.
  constructor;
    cbn [segment.store segment.index segment.baseOffset segment.nextOffset];
    try assumption.
  intros k r Hk. destruct (Rrec k r Hk) as (pos & q & H1 & H2 & H3 & H4 & H5).
  exists pos, q. cbn [segment.store segment.index]. rewrite Hc, len_app.
  pose proof (len_nonneg w).
  split; [exact H1|]. split; [exact H2|]. split; [lia|]. split; [|exact H5].
  rewrite bytes_at_app_left; [exact H4|lia|]. unfold Go.len in *. lia.
Qed.

(** An append that fails leaves the records of the segment as they were; one
    that succeeds adds the record with its offset. *)
Lemma Append_keeps_represents (s : segment.t) (rs : list api.Record_)
      (r : api.Record_) :
  represents Unmarshal s rs ->
  (forall p, Marshal (api.set_Offset r (segment.nextOffset s)) = Ok p ->
             Unmarshal p = Ok (api.set_Offset r (segment.nextOffset s))
             /\ store.size (segment.store s) + 8 + Go.len p < 2 ^ 63) ->
  match snd (segment.Append Marshal s r) with
  | Ok _ =>
      represents Unmarshal (fst (fst (segment.Append Marshal s r)))
        (rs ++ [api.set_Offset r (segment.nextOffset s)])
  | Err _ => represents Unmarshal (fst (fst (segment.Append Marshal s r))) rs
  | Panic => Marshal (api.set_Offset r (segment.nextOffset s)) = Panic
  end.
Proof.
  intros R Hcodec.
  destruct (Marshal (api.set_Offset r (segment.nextOffset s))) as [p|e|] eqn:HM.
  - destruct (Hcodec p eq_refl) as [HU Hb].
    destruct (Append_represents Marshal Unmarshal s rs r p R HM Hb) as [Hroom Hfull].
    destruct (Z.le_gt_cases (12 * Go.len rs + 12)
                (Go.len (index.mmap (segment.index s)))) as [Hfit|Hnofit].
    + destruct (Hroom Hfit) as (s1 & E1 & Hrep & _). rewrite E1. cbn [fst snd].
      exact (Hrep HU).
    + destruct (Hfull ltac:(lia)) as (s1 & E1 & Hix & Hnx & Hst & Hbs & Hcfg).
      rewrite E1. cbn [fst snd].
      destruct (store_Append_ok (segment.store s) p (rep_store _ _ _ R) Hb)
        as (_ & Sok & SC).
      pose proof (represents_store_grown s rs _ _ R Sok SC) as R'.
      destruct s1 as [st1 ix1 b1 n1 c1]. cbn in Hix, Hnx, Hst, Hbs, Hcfg. subst.
      exact R'.
  - unfold segment.Append. rewrite HM. exact R.
  - unfold segment.Append. rewrite HM. reflexivity.
Qed.

(** A segment that holds at most [2 ^ 32] records holds the same records
    when it is opened again on the files it left when it was closed, under any
    configuration whose index has room for them. *)
Lemma reopen_represents (s : segment.t) (rs : list api.Record_)
      (dir : segment.Dir) (c : Config) :
  represents Unmarshal s rs ->
  Go.len rs <= 2 ^ 32 ->
  12 * Go.len rs <= MaxIndexBytes (Segment c) ->
  0 < MaxIndexBytes (Segment c) < 2 ^ 63 ->
  exists indexFile storeFile,
    segment.Close s = Ok (indexFile, storeFile)
    /\ (dir (segment.fileName (segment.baseOffset s) ".index") = Some indexFile ->
        dir (segment.fileName (segment.baseOffset s) ".store") = Some storeFile ->
        exists s',
          segment.newSegment dir (segment.baseOffset s) c = Ok s'
          /\ represents Unmarshal s' rs
          /\ segment.nextOffset s' = segment.nextOffset s).
Proof.
  intros R Hcap Hroom HM. destruct R as [Rst Rsz Rroom Rbase Rnext Rrec].
  pose proof (len_nonneg rs) as Hn.
  destruct Rst as (Herr & Hssz & Hsmax).
  set (m := index.mmap (segment.index s)) in *.
  assert (EI : index.Close (segment.index s) = Ok (firstn (Z.to_nat (12 * Go.len rs)) m)).
  { unfold index.Close. rewrite Rsz, int64_small by lia.
    destruct (Z.ltb_spec (12 * Go.len rs) 0); [lia|].
    unfold index.Truncate. fold m.
    replace (Z.to_nat (12 * Go.len rs) - length m)%nat
      with 0%nat by (unfold Go.len in *; lia).
    cbn [repeat]. rewrite app_nil_r. reflexivity. }
  assert (ES : store.Close (segment.store s) = Ok (contents (segment.store s))).
  { unfold store.Close, store.Flush. rewrite Herr. reflexivity. }
  exists (firstn (Z.to_nat (12 * Go.len rs)) m), (contents (segment.store s)).
  split; [unfold segment.Close; rewrite EI, ES; reflexivity|].
  intros Di Ds.
  set (f := firstn (Z.to_nat (12 * Go.len rs)) m) in *.
  assert (Lf : Go.len f = 12 * Go.len rs) by (apply len_firstn; lia).
  assert (Of : segment.OpenFile dir (segment.fileName (segment.baseOffset s) ".index")
               = f) by (unfold segment.OpenFile; rewrite Di; reflexivity).
  assert (Os : segment.OpenFile dir (segment.fileName (segment.baseOffset s) ".store")
               = contents (segment.store s))
    by (unfold segment.OpenFile; rewrite Ds; reflexivity).
  destruct (newSegment_opens dir (segment.baseOffset s) c HM)
    as (next & E & Hsmall & Hbig & Hlast); [rewrite Of; lia|].
  rewrite Of, Lf in Hsmall, Hbig, Hlast.
  assert (Hnext : next = segment.nextOffset s).
  { rewrite Rnext. destruct (Z.eq_dec (Go.len rs) 0) as [E0|E0].
    - rewrite Hsmall, E0, Z.add_0_r by lia. symmetry. apply Z.mod_small. lia.
    - rewrite Hbig, Hlast by lia.
      rewrite (Z.mul_comm 12), Z.div_mul by lia.
      assert (Hk : nth_error rs (Z.to_nat (Go.len rs - 1)) <> None)
        by (apply nth_error_Some; unfold Go.len in *; lia).
      destruct (nth_error rs (Z.to_nat (Go.len rs - 1))) as [r|] eqn:Er;
        [|congruence].
      destruct (Rrec _ _ Er) as (pos & q & He & _).
      rewrite Z2Nat.id in He by lia. fold m in He.
      unfold f. replace (Go.len rs * 12) with (12 * Go.len rs) by lia.
      rewrite <- (app_nil_r (firstn _ m)), entry_kept by (fold m in Rroom; lia).
      rewrite He. cbn [fst]. rewrite Z.mod_small by lia.
      unfold Go.uint64. f_equal. lia. }
  exists (opened dir (segment.baseOffset s) c next).
  split; [exact E|]. split; [|exact Hnext].
  unfold opened. rewrite Of, Os.
  constructor;
    cbn [segment.store segment.index segment.baseOffset segment.nextOffset
         index.size index.mmap].
  - unfold store_ok, contents.
    cbn [store.File store.buf store.buffered store.err store.NewWriter store.size].
    rewrite app_nil_r. fold (contents (segment.store s)).
    rewrite <- Hssz, uint64_small by (pose proof (len_nonneg (contents (segment.store s))); lia).
    repeat split; assumption.
  - exact Lf.
  - unfold Go.len in *. rewrite length_app, repeat_length. lia.
  - exact Rbase.
  - rewrite Hnext. exact Rnext.
  - intros k r Hk.
    assert (Hlt : (k < length rs)%nat) by (apply nth_error_Some; congruence).
    destruct (Rrec k r Hk) as (pos & q & H1 & H2 & H3 & H4 & H5).
    exists pos, q. cbn [segment.store segment.index index.mmap].
    assert (C : contents
                  {| store.File := contents (segment.store s);
                     store.buf := store.NewWriter;
                     store.size := Go.uint64 (Go.len (contents (segment.store s))) |}
                = contents (segment.store s)) by apply app_nil_r.
    rewrite C.
    split; [|repeat split; assumption].
    rewrite entry_app_left by (unfold Go.len in *; lia).
    unfold f. rewrite <- (app_nil_r (firstn _ m)).
    rewrite entry_kept by (fold m in Rroom; unfold Go.len in *; lia).
    exact H1.
Qed.

End Durability.

(** * Further properties of the store, the index and the segment *)

(** ** Reading the store *)

Lemma be_value_range (bs : list byte) :
  0 <= be_value bs < 2 ^ (8 * Go.len bs).
Proof.
  induction bs as [|b bs IH] using rev_ind.
  - unfold be_value, Go.len. simpl. lia.
  - rewrite be_value_snoc, len_app.
    change (Go.len [b]) with 1.
    pose proof (byte.unsigned_range b) as Hb.
    pose proof (len_nonneg bs) as Hl.
    replace (8 * (Go.len bs + 1)) with (8 * Go.len bs + 8) by lia.
    rewrite Z.pow_add_r by lia. change (2 ^ 8) with 256. nia.
Qed.

Lemma bytes_at_len (b : list byte) (lo : Z) (n : nat) :
  0 <= lo -> lo + Z.of_nat n <= Go.len b ->
  length (bytes_at b lo n) = n.
Proof.
  intros H1 H2. unfold bytes_at, Go.len in *.
  rewrite length_firstn, length_skipn. lia.
Qed.

Lemma store_Flush_ok (s : store.t) :
  store.err (store.buf s) = None ->
  store.Flush s
  = ({| store.File := contents s; store.buf := store.NewWriter;
        store.size := store.size s |}, Ok tt).
Proof. intros H. unfold store.Flush. rewrite H. reflexivity. Qed.

Lemma store_Read_unfold (s : store.t) (pos : Z) :
  store_ok s -> 0 <= pos -> pos + 8 <= Go.len (contents s) ->
  store.Read s pos
  = ({| store.File := contents s; store.buf := store.NewWriter;
        store.size := store.size s |},
     if 2 ^ 63 <=? be_value (bytes_at (contents s) pos 8) then Panic
     else if be_value (bytes_at (contents s) pos 8) =? 0 then Ok []
     else if pos + 8 + be_value (bytes_at (contents s) pos 8)
             <=? Go.len (contents s)
          then Ok (bytes_at (contents s) (pos + 8)
                     (Z.to_nat (be_value (bytes_at (contents s) pos 8))))
          else Err EOF).
Proof.
  intros (Herr & Hsz & Hmax) Hpos Hfit.
  unfold store.Read. rewrite store_Flush_ok by exact Herr.
  cbn [store.File]. change store.lenWidth with 8.
  unfold store.File_ReadAt.
  rewrite int64_small by lia.
  destruct (Z.ltb_spec pos 0); [lia|].
  rewrite len_make by lia. cbn [Z.eqb].
  rewrite (slice_bytes_at _ _ _ 8) by lia.
  rewrite Uint64_be by (apply bytes_at_len; lia).
  pose proof (be_value_range (bytes_at (contents s) pos 8)) as Hn.
  unfold Go.len in Hn at 1. rewrite bytes_at_len in Hn by lia.
  change (2 ^ (8 * Z.of_nat 8)) with (2 ^ 64) in Hn.
  set (n := be_value (bytes_at (contents s) pos 8)) in *.
  destruct (Z.leb_spec (2 ^ 63) n); [reflexivity|].
  rewrite uint64_small, int64_small by lia.
  destruct (Z.ltb_spec (pos + 8) 0); [lia|].
  rewrite len_make by lia.
  destruct (Z.eqb_spec n 0) as [E0|E0].
  - rewrite E0. reflexivity.
  - destruct (Z.leb_spec (pos + 8 + n) (Go.len (contents s))).
    + rewrite (slice_bytes_at _ _ _ (Z.to_nat n)) by lia. reflexivity.
    + unfold Go.slice.
      destruct (Z.leb_spec (pos + 8 + n) (Go.len (contents s))); [lia|].
      rewrite !andb_false_r. reflexivity.
Qed.

Lemma store_Read_short (s : store.t) (pos : Z) :
  store_ok s -> 0 <= pos < 2 ^ 64 -> Go.len (contents s) < pos + 8 ->
  store.Read s pos
  = ({| store.File := contents s; store.buf := store.NewWriter;
        store.size := store.size s |},
     Err (if 2 ^ 63 <=? pos then ErrNegativeOffset else EOF)).
Proof.
  intros (Herr & Hsz & Hmax) Hpos Hfit.
  unfold store.Read. rewrite store_Flush_ok by exact Herr.
  cbn [store.File]. change store.lenWidth with 8.
  unfold store.File_ReadAt.
  destruct (Z.leb_spec (2 ^ 63) pos).
  - replace (Go.int64 pos) with (pos - 2 ^ 64).
    + destruct (Z.ltb_spec (pos - 2 ^ 64) 0); [reflexivity|lia].
    + unfold Go.int64.
      replace (pos + 2 ^ 63) with (pos - 2 ^ 63 + 1 * 2 ^ 64) by lia.
      rewrite Z.mod_add, Z.mod_small; lia.
  - rewrite int64_small by lia.
    destruct (Z.ltb_spec pos 0); [lia|].
    rewrite len_make by lia. cbn [Z.eqb].
    unfold Go.slice.
    destruct (Z.leb_spec (pos + 8) (Go.len (contents s))); [lia|].
    rewrite !andb_false_r. reflexivity.
Qed.

Lemma store_Read_same (s s' : store.t) (pos : Z) :
  store_ok s -> store_ok s' -> contents s' = contents s -> 0 <= pos < 2 ^ 64 ->
  snd (store.Read s' pos) = snd (store.Read s pos).
Proof.
  intros Hs Hs' Ec Hpos.
  destruct (Z.leb_spec (pos + 8) (Go.len (contents s))) as [Hfit|Hfit].
  - rewrite (store_Read_unfold s) by (try assumption; lia).
    rewrite (store_Read_unfold s') by (try assumption; rewrite ?Ec; lia).
    rewrite Ec. reflexivity.
  - rewrite (store_Read_short s) by assumption.
    rewrite (store_Read_short s') by (try assumption; rewrite Ec; assumption).
    reflexivity.
Qed.

(** X1: A record that was appended is read back at the position [Append]
    returned for it: the store still in working order and below [2 ^ 63]
    bytes after the append, [Read] at that position returns the bytes that
    were appended, and the store holds its former contents followed by the
    length prefix and the record. *)
Theorem store_Append_Read (s : store.t) (p : list byte) :
  store_ok s -> store.size s + 8 + Go.len p < 2 ^ 63 ->
  exists s1 s2,
    store.Append s p = (s1, Ok (8 + Go.len p, store.size s))
    /\ store.Read s1 (store.size s) = (s2, Ok p)
    /\ contents s2 = contents s ++ be_bytes 8 (Go.len p) ++ p
    /\ store_ok s2.
Proof.
  intros Hok Hb.
  destruct (store_Append_ok s p Hok Hb) as (EA & Hok' & Ec).
  destruct Hok as (Herr & Hsz & Hmax).
  pose proof (len_nonneg (contents s)) as Hc.
  pose proof (len_nonneg p) as Hp.
  exists (store_after s p).
  exists {| store.File := contents (store_after s p);
            store.buf := store.NewWriter;
            store.size := store.size (store_after s p) |}.
  split; [rewrite EA; do 3 f_equal; lia|].
  split.
  - apply store_Read_ok.
    + exact Hok'.
    + lia.
    + rewrite Ec, !len_app, len_be_bytes, Hsz. lia.
    + rewrite Ec, app_assoc.
      rewrite <- (app_nil_r ((contents s ++ be_bytes 8 (Go.len p)) ++ p)).
      rewrite <- !app_assoc.
      rewrite (bytes_at_app_right _ _ _ 0) by lia.
      rewrite app_assoc. apply bytes_at_exact.
      rewrite length_app, be_bytes_length. reflexivity.
  - split.
    + unfold contents at 1. cbn [store.File store.buf store.buffered store.NewWriter].
      rewrite app_nil_r. exact Ec.
    + destruct Hok' as (_ & Hsz' & Hmax').
      split; [reflexivity|]. split; [|exact Hmax'].
      cbn [store.size]. rewrite Hsz'.
      unfold contents at 2. cbn [store.File store.buf store.buffered store.NewWriter].
      rewrite app_nil_r. reflexivity.
Qed.

Lemma store_Append_Read_witness :
  store_ok store_empty
  /\ store.size store_empty + 8 + Go.len [Byte.x01; Byte.x02; Byte.x03] < 2 ^ 63
  /\ exists s1 s2,
      store.Append store_empty [Byte.x01; Byte.x02; Byte.x03] = (s1, Ok (11, 0))
      /\ store.Read s1 0 = (s2, Ok [Byte.x01; Byte.x02; Byte.x03]).
Proof.
  assert (H1 : store_ok store_empty).
  { split; [reflexivity|]. split; reflexivity. }
  assert (H2 : store.size store_empty + 8 + Go.len [Byte.x01; Byte.x02; Byte.x03]
               < 2 ^ 63) by reflexivity.
  destruct (store_Append_Read store_empty [Byte.x01; Byte.x02; Byte.x03] H1 H2)
    as (s1 & s2 & EA & ER & _).
  split; [exact H1|]. split; [exact H2|].
  exists s1, s2. split; [exact EA|exact ER].
Defined.

(** X2: The store only grows: a record that [Read] returns at a position is
    returned at that position after every further successful [Append]. *)
Theorem store_Append_keeps_records (s : store.t) (p q : list byte) (pos : Z) :
  store_ok s -> store.size s + 8 + Go.len p < 2 ^ 63 ->
  0 <= pos < 2 ^ 64 ->
  snd (store.Read s pos) = Ok q ->
  snd (store.Append s p) = Ok (8 + Go.len p, store.size s)
  /\ snd (store.Read (fst (store.Append s p)) pos) = Ok q.
Proof.
  intros Hok Hb Hpos HR.
  destruct (store_Append_ok s p Hok Hb) as (EA & Hok' & Ec).
  rewrite EA. cbn [fst snd].
  split; [do 2 f_equal; lia|].
  pose proof (len_nonneg (be_bytes 8 (Go.len p) ++ p)) as Hw.
  destruct (Z.leb_spec (pos + 8) (Go.len (contents s))) as [Hfit|Hfit].
  - rewrite store_Read_unfold in HR by (try assumption; lia).
    rewrite store_Read_unfold
      by (try assumption; try lia; rewrite Ec, len_app; lia).
    cbn [snd] in *. rewrite Ec.
    rewrite (bytes_at_app_left _ _ pos 8) by lia.
    pose proof (be_value_range (bytes_at (contents s) pos 8)) as Hn.
    set (n := be_value (bytes_at (contents s) pos 8)) in *.
    destruct (Z.leb_spec (2 ^ 63) n); [discriminate|].
    destruct (Z.eqb_spec n 0); [exact HR|].
    destruct (Z.leb_spec (pos + 8 + n) (Go.len (contents s))); [|discriminate].
    rewrite len_app.
    destruct (Z.leb_spec (pos + 8 + n)
                (Go.len (contents s) + Go.len (be_bytes 8 (Go.len p) ++ p)));
      [|lia].
    rewrite bytes_at_app_left by lia. exact HR.
  - rewrite store_Read_short in HR by assumption. discriminate.
Qed.

Lemma store_Append_keeps_records_witness :
  store_ok (fst (store.Append store_empty [Byte.x01; Byte.x02]))
  /\ snd (store.Read (fst (store.Append store_empty [Byte.x01; Byte.x02])) 0)
     = Ok [Byte.x01; Byte.x02]
  /\ snd (store.Read
            (fst (store.Append (fst (store.Append store_empty [Byte.x01; Byte.x02]))
                    [Byte.x03]))
            0)
     = Ok [Byte.x01; Byte.x02].
Proof.
  assert (H1 : store_ok (fst (store.Append store_empty [Byte.x01; Byte.x02]))).
  { split; [reflexivity|]. split; reflexivity. }
  assert (HR : snd (store.Read (fst (store.Append store_empty [Byte.x01; Byte.x02])) 0)
               = Ok [Byte.x01; Byte.x02]) by reflexivity.
  split; [exact H1|]. split; [exact HR|].
  refine (proj2 (store_Append_keeps_records _ [Byte.x03] [Byte.x01; Byte.x02] 0
                   H1 _ _ HR)).
  - reflexivity.
  - split; [discriminate|reflexivity].
Defined.






(** X5: A store that is closed and opened again on its file is the same store:
    [Close] leaves the file with everything that was appended, and
    [newStore] on that file has the same size and returns the same result
    for [Read] at every position. *)
Theorem store_Close_reopen (s : store.t) :
  store_ok s ->
  exists s',
    store.Close s = Ok (contents s)
    /\ store.newStore (contents s) = Ok s'
    /\ store_ok s'
    /\ store.size s' = store.size s
    /\ contents s' = contents s
    /\ forall pos, 0 <= pos < 2 ^ 64 ->
                   snd (store.Read s' pos) = snd (store.Read s pos).
Proof.
  intros Hok. pose proof Hok as (Herr & Hsz & Hmax).
  pose proof (len_nonneg (contents s)) as Hc.
  exists {| store.File := contents s; store.buf := store.NewWriter;
            store.size := store.size s |}.
  assert (Ec : contents {| store.File := contents s; store.buf := store.NewWriter;
                           store.size := store.size s |} = contents s).
  { unfold contents at 1. cbn [store.File store.buf store.buffered store.NewWriter].
    apply app_nil_r. }
  assert (Hok' : store_ok {| store.File := contents s; store.buf := store.NewWriter;
                             store.size := store.size s |}).
  { split; [reflexivity|]. split; [|exact Hmax]. rewrite Ec. exact Hsz. }
  split; [|split; [|split; [|split; [|split]]]].
  - unfold store.Close. rewrite store_Flush_ok by exact Herr. reflexivity.
  - unfold store.newStore. rewrite uint64_small by lia. rewrite Hsz. reflexivity.
  - exact Hok'.
  - reflexivity.
  - exact Ec.
  - intros pos Hpos. apply store_Read_same; assumption.
Qed.

Lemma store_Close_reopen_witness :
  store_ok (fst (store.Append store_empty [Byte.x01; Byte.x02]))
  /\ exists s',
      store.newStore (be_bytes 8 2 ++ [Byte.x01; Byte.x02]) = Ok s'
      /\ snd (store.Read s' 0) = Ok [Byte.x01; Byte.x02].
Proof.
  assert (H1 : store_ok (fst (store.Append store_empty [Byte.x01; Byte.x02]))).
  { split; [reflexivity|]. split; reflexivity. }
  split; [exact H1|].
  destruct (store_Close_reopen _ H1) as (s' & _ & EN & _ & _ & _ & HR).
  exists s'. split; [exact EN|].
  rewrite HR by (split; [discriminate|reflexivity]). reflexivity.
Defined.

(** Once the buffered writer holds an error, every operation of the store
    returns it and leaves the store as it is. *)
Lemma store_error_sticks (s : store.t) (e : error) (p : list byte) (pos : Z) :
  store.err (store.buf s) = Some e ->
  store.Append s p = (s, Err e)
  /\ store.Read s pos = (s, Err e)
  /\ store.ReadAt s p pos = (s, p, 0, Err e)
  /\ store.Close s = Err e.
Proof.
  intros H. split; [|split; [|split]].
  - rewrite store_Append_unfold, H. reflexivity.
  - unfold store.Read, store.Flush. rewrite H. reflexivity.
  - unfold store.ReadAt, store.Flush. rewrite H. reflexivity.
  - unfold store.Close, store.Flush. rewrite H. reflexivity.
Qed.

(** ** Writing and reading the index *)

Lemma entry_number_id (size k : Z) :
  0 <= k < 2 ^ 32 -> entry_number size k = k.
Proof.
  intros H. unfold entry_number.
  destruct (Z.eqb_spec k (-1)); [lia|]. apply Z.mod_small. exact H.
Qed.

Lemma index_Read_at (i : index.t) (k : Z) :
  0 <= k < 2 ^ 32 -> (k + 1) * 12 <= index.size i ->
  index.size i <= Go.len (index.mmap i) ->
  index.Read i k = Ok (entry (index.mmap i) k).
Proof.
  intros Hk Hs Hl.
  rewrite <- (entry_number_id (index.size i) k Hk) at 2.
  apply index_Read_entry; rewrite ?entry_number_id by exact Hk; lia.
Qed.

Lemma newIndex_ok (f : list byte) (c : Config) :
  0 < MaxIndexBytes (Segment c) < 2 ^ 63 ->
  index.newIndex f c
  = Ok {| index.mmap := index.Truncate f (MaxIndexBytes (Segment c));
          index.size := Go.uint64 (Go.len f) |}.
Proof.
  intros HM. unfold index.newIndex.
  rewrite int64_small by lia.
  destruct (Z.ltb_spec (MaxIndexBytes (Segment c)) 0); [lia|].
  assert (L : Go.len (index.Truncate f (MaxIndexBytes (Segment c)))
              = MaxIndexBytes (Segment c)).
  { unfold index.Truncate, Go.len.
    rewrite length_app, length_firstn, repeat_length. lia. }
  rewrite L.
  destruct (Z.eqb_spec (MaxIndexBytes (Segment c)) 0); [lia|reflexivity].
Qed.

(** X6: An entry that was written is read back.  On an index of whole entries,
    fewer than [2 ^ 32] of them, with room for one more, [Write] succeeds,
    and [Read] returns the offset and the position that were written both
    for the number of the new entry and for [-1], the last entry. *)
Theorem index_Write_Read (i : index.t) (off pos : Z) :
  0 <= index.size i -> index.size i mod 12 = 0 ->
  index.size i / 12 < 2 ^ 32 ->
  index.size i + 12 <= Go.len (index.mmap i) ->
  Go.len (index.mmap i) < 2 ^ 63 ->
  0 <= off < 2 ^ 32 -> 0 <= pos < 2 ^ 64 ->
  snd (index.Write i off pos) = Ok tt
  /\ index.size (fst (index.Write i off pos)) = index.size i + 12
  /\ index.Read (fst (index.Write i off pos)) (index.size i / 12)
     = Ok (off, pos)
  /\ index.Read (fst (index.Write i off pos)) (-1) = Ok (off, pos).
Proof.
  intros Hs Hm Hn Hroom Hlen Hoff Hpos.
  rewrite index_Write_ok by lia. cbn [fst snd index.size].
  set (m' := firstn (Z.to_nat (index.size i)) (index.mmap i)
             ++ be_bytes 4 off ++ be_bytes 8 pos
             ++ skipn (Z.to_nat (index.size i + 12)) (index.mmap i)).
  assert (Hs12 : index.size i = 12 * (index.size i / 12)).
  { rewrite (Z.div_mod (index.size i) 12) at 1 by lia. lia. }
  set (k := index.size i / 12) in *.
  assert (Hk : 0 <= k) by lia.
  assert (Lm : Go.len m' = Go.len (index.mmap i)).
  { unfold m'. rewrite !len_app, !len_be_bytes, len_firstn, len_skipn by lia. lia. }
  assert (He : entry m' k = (off, pos)).
  { unfold m'. rewrite Hs12.
    rewrite entry_written by lia.
    rewrite !Z.mod_small by lia. reflexivity. }
  split; [reflexivity|]. split; [reflexivity|]. split.
  - rewrite index_Read_at; cbn [index.size index.mmap]; try lia.
    rewrite He. reflexivity.
  - assert (El : entry_number (index.size i + 12) (-1) = k).
    { rewrite entry_number_last by lia.
      replace (index.size i + 12) with (12 * (k + 1)) by lia.
      rewrite Z.mul_comm, Z.div_mul by lia. lia. }
    rewrite index_Read_entry; cbn [index.size index.mmap]; rewrite ?El; try lia.
    rewrite He. reflexivity.
Qed.

Lemma index_Write_Read_witness :
  index.size index_empty_24 + 12 <= Go.len (index.mmap index_empty_24)
  /\ index.Read (fst (index.Write index_empty_24 7 9)) 0 = Ok (7, 9)
  /\ index.Read (fst (index.Write index_empty_24 7 9)) (-1) = Ok (7, 9).
Proof.
  assert (H : index.size index_empty_24 + 12 <= Go.len (index.mmap index_empty_24))
    by discriminate.
  split; [exact H|].
  refine (proj2 (proj2 (index_Write_Read index_empty_24 7 9 _ _ _ H _ _ _)));
    first [reflexivity | split; first [reflexivity | discriminate]].
Defined.

(** X7: [Write] leaves the entries that the index holds as they are: [Read]
    returns for each of them what it returned before. *)
Theorem index_Write_keeps_entries (i : index.t) (off pos k : Z) :
  0 <= index.size i -> index.size i mod 12 = 0 ->
  index.size i <= Go.len (index.mmap i) ->
  Go.len (index.mmap i) < 2 ^ 63 ->
  0 <= k < 2 ^ 32 -> k < index.size i / 12 ->
  index.Read (fst (index.Write i off pos)) k = index.Read i k
  /\ index.Read i k = Ok (entry (index.mmap i) k).
Proof.
  intros Hs Hm Hl Hlen Hk Hin.
  assert (Hs12 : index.size i = 12 * (index.size i / 12)).
  { rewrite (Z.div_mod (index.size i) 12) at 1 by lia. lia. }
  assert (ER : index.Read i k = Ok (entry (index.mmap i) k))
    by (apply index_Read_at; lia).
  split; [|exact ER].
  destruct (Z.leb_spec (index.size i + 12) (Go.len (index.mmap i))) as [Hroom|Hfull].
  - rewrite index_Write_ok by lia. cbn [fst].
    rewrite ER, index_Read_at; cbn [index.size index.mmap]; try lia.
    + rewrite Hs12 at 1.
      rewrite (entry_kept (index.mmap i)) by lia. reflexivity.
    + rewrite !len_app, !len_be_bytes, len_firstn, len_skipn by lia. lia.
  - rewrite index_Write_full by lia. reflexivity.
Qed.

Lemma index_Write_keeps_entries_witness :
  index.Read (fst (index.Write (fst (index.Write index_empty_24 7 9)) 8 20)) 0
  = Ok (7, 9)
  /\ index.Read (fst (index.Write index_one_entry 8 20)) 0 = Ok (7, 9).
Proof.
  split.
  - rewrite (proj1 (index_Write_keeps_entries
                      (fst (index.Write index_empty_24 7 9)) 8 20 0
                      ltac:(discriminate) eq_refl ltac:(discriminate) eq_refl
                      ltac:(split; [discriminate|reflexivity]) eq_refl)).
    reflexivity.
  - rewrite (proj1 (index_Write_keeps_entries index_one_entry 8 20 0
                      ltac:(discriminate) eq_refl ltac:(discriminate) eq_refl
                      ltac:(split; [discriminate|reflexivity]) eq_refl)).
    reflexivity.
Defined.

(** X8: An index that is closed and opened again holds the same entries.
    [Close] cuts the file to [size] bytes; [newIndex] on that file, with a
    limit that the file fits, has the same [size] and a map of
    [MaxIndexBytes] bytes, and [Read] returns the same for every argument. *)
Theorem index_Close_reopen (i : index.t) (c : Config) :
  0 <= index.size i <= Go.len (index.mmap i) ->
  Go.len (index.mmap i) < 2 ^ 63 ->
  index.size i <= MaxIndexBytes (Segment c) ->
  0 < MaxIndexBytes (Segment c) < 2 ^ 63 ->
  exists f i',
    index.Close i = Ok f
    /\ Go.len f = index.size i
    /\ index.newIndex f c = Ok i'
    /\ index.size i' = index.size i
    /\ Go.len (index.mmap i') = MaxIndexBytes (Segment c)
    /\ forall n, index.Read i' n = index.Read i n.
Proof.
  intros Hs Hlen HM HM'.
  set (f := firstn (Z.to_nat (index.size i)) (index.mmap i)).
  assert (Lf : Go.len f = index.size i) by (apply len_firstn; lia).
  assert (EC : index.Close i = Ok f).
  { unfold index.Close. rewrite int64_small by lia.
    destruct (Z.ltb_spec (index.size i) 0); [lia|].
    unfold index.Truncate. fold f.
    replace (Z.to_nat (index.size i) - length (index.mmap i))%nat with 0%nat
      by (unfold Go.len in *; lia).
    cbn [repeat]. rewrite app_nil_r. reflexivity. }
  destruct (Truncate_grow f (MaxIndexBytes (Segment c)) ltac:(lia)) as [ET LT].
  exists f. eexists.
  split; [exact EC|]. split; [exact Lf|].
  split; [apply newIndex_ok; exact HM'|].
  cbn [index.size index.mmap].
  split; [rewrite Lf; apply uint64_small; lia|].
  split; [exact LT|].
  intros n.
  set (i' := {| index.mmap := index.Truncate f (MaxIndexBytes (Segment c));
                index.size := Go.uint64 (Go.len f) |}).
  assert (Es : index.size i' = index.size i).
  { unfold i'. cbn [index.size]. rewrite Lf. apply uint64_small. lia. }
  pose proof (entry_number_range (index.size i) n) as He.
  destruct (Z.eqb_spec (index.size i) 0) as [E0|E0].
  - rewrite !index_Read_eof; [reflexivity|left; exact E0|left; lia].
  - destruct (Z.leb_spec ((entry_number (index.size i) n + 1) * 12) (index.size i))
      as [Hin|Hout].
    + rewrite (index_Read_entry i) by lia.
      rewrite (index_Read_entry i') by (rewrite ?Es; unfold i'; cbn [index.mmap]; lia).
      rewrite Es. unfold i'. cbn [index.mmap]. rewrite ET.
      rewrite entry_app_left by lia.
      unfold f, entry.
      rewrite !bytes_at_firstn by lia. reflexivity.
    + rewrite !index_Read_eof; [reflexivity|right; lia|right; rewrite Es; lia].
Qed.

Lemma index_Close_reopen_witness :
  exists i',
    index.Close (fst (index.Write index_empty_24 7 9))
    = Ok (be_bytes 4 7 ++ be_bytes 8 9)
    /\ index.newIndex (be_bytes 4 7 ++ be_bytes 8 9) (config_of 1024 24 0) = Ok i'
    /\ index.Read i' (-1) = Ok (7, 9).
Proof.
  destruct (index_Close_reopen (fst (index.Write index_empty_24 7 9))
              (config_of 1024 24 0))
    as (f & i' & EC & _ & EN & _ & _ & ER);
    [split; discriminate|reflexivity|discriminate|split; reflexivity|].
  assert (Ef : f = be_bytes 4 7 ++ be_bytes 8 9).
  { vm_compute in EC. injection EC as <-. reflexivity. }
  subst f. exists i'. split; [reflexivity|]. split; [exact EN|].
  rewrite ER. reflexivity.
Defined.

(** ** Using a segment *)

Lemma nth_error_stamp (records : list api.Record_) :
  forall (next : Z) (i : nat) (r : api.Record_),
    0 <= next < 2 ^ 64 ->
    nth_error records i = Some r ->
    nth_error (stamp next records) i
    = Some (api.set_Offset r ((next + Z.of_nat i) mod 2 ^ 64)).
Proof.
  induction records as [|r0 rest IH]; intros next i r Hn Hi.
  - destruct i; discriminate.
  - destruct i as [|i]; cbn [stamp nth_error] in *.
    + injection Hi as <-. rewrite Z.add_0_r, Z.mod_small by lia. reflexivity.
    + rewrite (IH _ _ _ (uint64_range _) Hi). unfold Go.uint64.
      rewrite Z.add_mod_idemp_l by lia. do 3 f_equal. lia.
Qed.

Section SegmentUse.

Variable Marshal : api.Record_ -> outcome (list byte).
Variable Unmarshal : list byte -> outcome api.Record_.

(** Record number [i] of a segment of at most [2 ^ 32] records is read at
    [i] past the base offset. *)
Lemma Read_held (s : segment.t) (rs : list api.Record_) (i : nat)
      (r : api.Record_) :
  represents Unmarshal s rs -> Go.len rs <= 2 ^ 32 ->
  nth_error rs i = Some r ->
  exists s',
    segment.Read Unmarshal s (Go.uint64 (segment.baseOffset s + Z.of_nat i))
    = (s', Ok r)
    /\ represents Unmarshal s' rs.
Proof.
  intros R Hcap Hi.
  assert (Hlt : (i < length rs)%nat) by (apply nth_error_Some; congruence).
  pose proof (rep_base _ _ _ R) as Hb.
  destruct (Read_represents Unmarshal s rs
              (Go.uint64 (segment.baseOffset s + Z.of_nat i)) R) as [_ H].
  change (Go.uint64 (segment.baseOffset s + Z.of_nat i))
    with ((segment.baseOffset s + Z.of_nat i) mod 2 ^ 64) in H.
  rewrite relative_offset64 in H by exact Hb.
  unfold Go.len in Hcap.
  rewrite (Z.mod_small (Z.of_nat i)), int64_small, entry_number_id, Nat2Z.id in H
    by lia.
  destruct (H r Hi) as (s' & ER & R' & _). exists s'. split; assumption.
Qed.

(** X9: The records of a run of appends are read back, each at its offset.  On
    a segment opened in a directory without files, with room in the index
    and in the store for all of a list of encodable records, at most
    [2 ^ 32] of them, record number [i] is appended with the offset
    [baseOffset + i], and after the run [Read] returns at that offset the
    value that was appended, with the offset as its offset field. *)
Theorem segment_appends_Read (B baseOffset : Z) (c : Config)
        (records : list api.Record_) (s : segment.t) :
  0 < MaxIndexBytes (Segment c) < 2 ^ 63 ->
  0 <= baseOffset -> baseOffset + Go.len records <= 2 ^ 64 ->
  Go.len records <= 2 ^ 32 ->
  12 * Go.len records <= MaxIndexBytes (Segment c) ->
  Go.len records * (8 + B) < 2 ^ 63 ->
  Forall (encodable Marshal Unmarshal B) records ->
  segment.newSegment dir_empty baseOffset c = Ok s ->
  forall i r,
    nth_error records i = Some r ->
    nth_error (snd (segment.appends Marshal s records)) i
    = Some (Ok (baseOffset + Z.of_nat i))
    /\ exists s',
        segment.Read Unmarshal (fst (segment.appends Marshal s records))
          (baseOffset + Z.of_nat i)
        = (s', Ok {| api.Value := api.Value r;
                     api.Offset := baseOffset + Z.of_nat i |}).
Proof.
  intros HM Hb0 Hb1 Hcap Hroom Hstore Henc Hnew i r Hi.
  assert (Hlt : (i < length records)%nat) by (apply nth_error_Some; congruence).
  unfold Go.len in Hb1, Hcap.
  assert (Hb : 0 <= baseOffset < 2 ^ 64) by lia.
  rewrite newSegment_fresh in Hnew by exact HM. injection Hnew as <-.
  destruct (appends_represents Marshal Unmarshal B records
              (segment_fresh baseOffset c) []
              (fresh_represents Unmarshal baseOffset c HM Hb) Henc)
    as (s' & EA & R & Ebase & _).
  { rewrite fresh_len by lia. change (Go.len (@nil api.Record_)) with 0. lia. }
  { cbn [segment_fresh segment.store store.size]. lia. }
  cbn [segment_fresh segment.nextOffset segment.baseOffset app] in EA, R, Ebase.
  rewrite EA. cbn [fst snd].
  pose proof (nth_error_stamp records baseOffset i r Hb Hi) as Hs.
  rewrite Z.mod_small in Hs by lia.
  split.
  - rewrite nth_error_map, Hs. reflexivity.
  - assert (Hcap' : Go.len (stamp baseOffset records) <= 2 ^ 32).
    { unfold Go.len. rewrite stamp_length. exact Hcap. }
    destruct (Read_held s' _ i _ R Hcap' Hs) as (s'' & ER & _).
    rewrite Ebase, uint64_small in ER by lia.
    exists s''. exact ER.
Qed.

(** X10: An offset that has not been written yet is not found.  On a segment
    whose bookkeeping holds and whose next offset has not wrapped, [Read]
    at an offset from the next offset up to [2 ^ 32] past the base offset
    fails with [io.EOF] and leaves the segment as it is. *)
Theorem segment_Read_past_end (s : segment.t) (off : Z) :
  in_range s -> bookkeeping s ->
  segment.baseOffset s <= segment.nextOffset s ->
  segment.nextOffset s <= off < segment.baseOffset s + 2 ^ 32 ->
  off < 2 ^ 64 ->
  segment.Read Unmarshal s off = (s, Err EOF).
Proof.
  intros (Hb & Hn & Hs & Hl) Hbk Hle Hoff Hmax.
  unfold bookkeeping in Hbk. rewrite uint64_small in Hbk by lia.
  unfold segment.Read.
  rewrite (uint64_small (off - segment.baseOffset s)) by lia.
  rewrite int64_small by lia.
  rewrite index_Read_eof; [reflexivity|].
  right. rewrite entry_number_id by lia.
  pose proof (Z.mod_pos_bound (index.size (segment.index s)) 12 ltac:(lia)).
  pose proof (Z.div_mod (index.size (segment.index s)) 12 ltac:(lia)).
  lia.
Qed.

(** X11: An append leaves the records of the segment as they are, whether it
    succeeds or fails: a record that the segment holds is read at its offset
    from the segment that [Append] returns. *)
Theorem segment_Append_keeps_records (s : segment.t) (rs : list api.Record_)
        (r : api.Record_) (i : nat) (ri : api.Record_) :
  represents Unmarshal s rs -> Go.len rs < 2 ^ 32 ->
  (forall p, Marshal (api.set_Offset r (segment.nextOffset s)) = Ok p ->
             Unmarshal p = Ok (api.set_Offset r (segment.nextOffset s))
             /\ store.size (segment.store s) + 8 + Go.len p < 2 ^ 63) ->
  nth_error rs i = Some ri ->
  exists s',
    segment.Read Unmarshal (fst (fst (segment.Append Marshal s r)))
      (Go.uint64 (segment.baseOffset s + Z.of_nat i))
    = (s', Ok ri).
Proof.
  intros R Hcap Hcodec Hi.
  pose proof (Append_keeps_represents Marshal Unmarshal s rs r R Hcodec) as K.
  assert (Eb : segment.baseOffset (fst (fst (segment.Append Marshal s r)))
               = segment.baseOffset s).
  { apply (Append_step Marshal s r).
    - rewrite (rep_size _ _ _ R). pose proof (rep_room _ _ _ R).
      pose proof (len_nonneg rs). lia.
    - apply (rep_room _ _ _ R). }
  rewrite <- Eb.
  destruct (snd (segment.Append Marshal s r)) as [o|e|] eqn:E.
  - destruct (Read_held _ _ i ri K) as (s' & ER & _).
    + rewrite len_app. change (Go.len [_]) with 1. lia.
    + rewrite nth_error_app1; [exact Hi|]. apply nth_error_Some. congruence.
    + exists s'. exact ER.
  - destruct (Read_held _ _ i ri K ltac:(lia) Hi) as (s' & ER & _).
    exists s'. exact ER.
  - assert (Es : fst (fst (segment.Append Marshal s r)) = s).
    { unfold segment.Append. rewrite K. reflexivity. }
    rewrite Es.
    destruct (Read_held _ _ i ri R ltac:(lia) Hi) as (s' & ER & _).
    exists s'. exact ER.
Qed.

(** X12: A segment that is not maxed takes the next record.  When the map of the
    index has [MaxIndexBytes] bytes and [MaxIndexBytes] is a multiple of
    the entry width, a well-formed segment for which [IsMaxed] is false has
    room for one more index entry: [Append] of a record that is encoded and
    fits the store succeeds with the next offset. *)
Theorem segment_not_maxed_Append (s : segment.t) (r : api.Record_)
        (p : list byte) :
  well_formed s ->
  Go.len (index.mmap (segment.index s))
  = MaxIndexBytes (Segment (segment.config s)) ->
  MaxIndexBytes (Segment (segment.config s)) mod 12 = 0 ->
  segment.IsMaxed s = false ->
  Marshal (api.set_Offset r (segment.nextOffset s)) = Ok p ->
  store.size (segment.store s) + 8 + Go.len p < 2 ^ 63 ->
  index.size (segment.index s) + 12 <= Go.len (index.mmap (segment.index s))
  /\ snd (segment.Append Marshal s r) = Ok (segment.nextOffset s)
  /\ segment.nextOffset (fst (fst (segment.Append Marshal s r)))
     = Go.uint64 (segment.nextOffset s + 1).
Proof.
  intros ((Hb & Hn & Hs & Hl) & Hst & Hm & Hle & Hbk) HL HM Hmax HP Hfit.
  assert (Hroom : index.size (segment.index s) + 12
                  <= Go.len (index.mmap (segment.index s))).
  { unfold segment.IsMaxed in Hmax. apply orb_false_elim in Hmax.
    destruct Hmax as [_ Hi]. apply Z.leb_gt in Hi. rewrite HL.
    pose proof (Z.div_mod (index.size (segment.index s)) 12 ltac:(lia)).
    pose proof (Z.div_mod (MaxIndexBytes (Segment (segment.config s))) 12
                  ltac:(lia)).
    lia. }
  split; [exact Hroom|].
  destruct (store_Append_ok (segment.store s) p Hst Hfit) as (EA & _ & _).
  unfold segment.Append. rewrite HP, EA.
  cbn [segment.store segment.index segment.baseOffset segment.nextOffset
       segment.config].
  rewrite index_Write_ok by lia.
  split; reflexivity.
Qed.

(** X13: An append that fails on a full index has already written its record to
    the store.  On a well-formed segment whose index has no room for one
    more entry, [Append] of an encoded record fails with [io.EOF]; the store
    has grown by the length prefix and the record, while the index and the
    next offset are as they were. *)
Theorem segment_Append_index_full (s : segment.t) (r : api.Record_)
        (p : list byte) :
  well_formed s ->
  Go.len (index.mmap (segment.index s)) < index.size (segment.index s) + 12 ->
  Marshal (api.set_Offset r (segment.nextOffset s)) = Ok p ->
  store.size (segment.store s) + 8 + Go.len p < 2 ^ 63 ->
  snd (segment.Append Marshal s r) = Err EOF
  /\ store.size (segment.store (fst (fst (segment.Append Marshal s r))))
     = store.size (segment.store s) + 8 + Go.len p
  /\ contents (segment.store (fst (fst (segment.Append Marshal s r))))
     = contents (segment.store s) ++ be_bytes 8 (Go.len p) ++ p
  /\ segment.index (fst (fst (segment.Append Marshal s r))) = segment.index s
  /\ segment.nextOffset (fst (fst (segment.Append Marshal s r)))
     = segment.nextOffset s.
Proof.
  intros ((Hb & Hn & Hs & Hl) & Hst & Hm & Hle & Hbk) Hfull HP Hfit.
  destruct (store_Append_ok (segment.store s) p Hst Hfit) as (EA & _ & Ec).
  unfold segment.Append. rewrite HP, EA.
  cbn [segment.store segment.index segment.baseOffset segment.nextOffset
       segment.config].
  rewrite index_Write_full by lia.
  cbn [fst snd segment.store segment.index segment.nextOffset].
  split; [reflexivity|]. split; [cbn [store_after store.size]; lia|].
  split; [exact Ec|]. split; reflexivity.
Qed.

(** X14: A segment that is maxed stays maxed: [Append] never lowers the size of
    the store or of the index and leaves the limits as they are, whether it
    succeeds or fails. *)
Theorem segment_IsMaxed_stays (s : segment.t) (r : api.Record_) :
  well_formed s ->
  (forall p, Marshal (api.set_Offset r (segment.nextOffset s)) = Ok p ->
             store.size (segment.store s) + 8 + Go.len p < 2 ^ 63) ->
  segment.IsMaxed s = true ->
  segment.IsMaxed (fst (fst (segment.Append Marshal s r))) = true.
Proof.
  intros ((Hb & Hn & Hs & Hl) & Hst & Hm & Hle & Hbk) Hfit Hmax.
  assert (K : segment.config (fst (fst (segment.Append Marshal s r)))
              = segment.config s
              /\ store.size (segment.store s)
                 <= store.size (segment.store (fst (fst (segment.Append Marshal s r))))
              /\ index.size (segment.index s)
                 <= index.size (segment.index (fst (fst (segment.Append Marshal s r))))).
  { unfold segment.Append.
    destruct (Marshal (api.set_Offset r (segment.nextOffset s))) as [p|e|] eqn:HP;
      cbn [fst snd]; [|split; [reflexivity|lia]..].
    destruct (store_Append_ok (segment.store s) p Hst (Hfit p eq_refl))
      as (EA & _ & _).
    pose proof (len_nonneg p) as Hp.
    rewrite EA.
    cbn [segment.store segment.index segment.baseOffset segment.nextOffset
         segment.config].
    destruct (index_Write_cases (segment.index s)
                (Go.uint32 (Go.uint64 (segment.nextOffset s
                                       - Go.uint64 (segment.baseOffset s))))
                (store.size (segment.store s)) Hs Hl)
      as [(_ & Ew & Esz & _)|(Ew & Ei)];
      destruct (index.Write _ _ _) as [ix [[]|e|]]; cbn [fst snd] in *;
      cbn [fst segment.store segment.index segment.config store_after store.size];
      try congruence; subst; split; try reflexivity; lia. }
  destruct K as (Kc & Ks & Ki).
  unfold segment.IsMaxed in *. rewrite Kc.
  apply orb_true_iff in Hmax. apply orb_true_iff.
  destruct Hmax as [H|H]; [left|right]; apply Z.leb_le in H; apply Z.leb_le; lia.
Qed.

(** X15: An error of the writer stops the segment without harm to the index.
    When the buffered writer of the store holds an error, [Append] of an
    encoded record returns that error and leaves the segment as it is: no
    index entry is written for a record that the store did not take, and the
    next offset is not used up.  [Read] of an offset that the index holds
    returns the error as well. *)
Theorem segment_Append_writer_error (s : segment.t) (r : api.Record_)
        (p : list byte) (e : error) :
  store.err (store.buf (segment.store s)) = Some e ->
  Marshal (api.set_Offset r (segment.nextOffset s)) = Ok p ->
  segment.Append Marshal s r
  = (s, api.set_Offset r (segment.nextOffset s), Err e)
  /\ forall off entry,
      index.Read (segment.index s)
        (Go.int64 (Go.uint64 (off - segment.baseOffset s))) = Ok entry ->
      segment.Read Unmarshal s off = (s, Err e).
Proof.
  intros He HP. split.
  - unfold segment.Append. rewrite HP.
    rewrite (proj1 (store_error_sticks (segment.store s) e p 0 He)).
    destruct s; reflexivity.
  - intros off [o pos] HR. unfold segment.Read. rewrite HR.
    rewrite (proj1 (proj2 (store_error_sticks (segment.store s) e [] pos He))).
    destruct s; reflexivity.
Qed.

End SegmentUse.

Lemma segment_appends_Read_witness :
  segment.newSegment dir_empty 0 config_1024 = Ok (segment_fresh 0 config_1024)
  /\ exists s',
      segment.Read wire.Unmarshal
        (fst (segment.appends wire.Marshal (segment_fresh 0 config_1024)
                [rec_hello; rec_world])) 1
      = (s', Ok {| api.Value := api.Value rec_world; api.Offset := 1 |}).
Proof.
  assert (HN : segment.newSegment dir_empty 0 config_1024
               = Ok (segment_fresh 0 config_1024)) by reflexivity.
  split; [exact HN|].
  refine (proj2 (segment_appends_Read wire.Marshal wire.Unmarshal 27 0
                   config_1024 [rec_hello; rec_world]
                   (segment_fresh 0 config_1024)
                   _ _ _ _ _ _ _ HN 1%nat rec_world eq_refl)).
  - split; reflexivity.
  - discriminate.
  - discriminate.
  - discriminate.
  - discriminate.
  - reflexivity.
  - constructor; [|constructor; [|constructor]].
    + apply (wire_encodable rec_hello). reflexivity.
    + apply (wire_encodable rec_world). reflexivity.
Defined.

Lemma segment_Read_past_end_witness :
  in_range (segment_fresh 0 config_1024)
  /\ bookkeeping (segment_fresh 0 config_1024)
  /\ segment.Read wire.Unmarshal (segment_fresh 0 config_1024) 0
     = (segment_fresh 0 config_1024, Err EOF).
Proof.
  assert (H1 : in_range (segment_fresh 0 config_1024)).
  { split; [split; [discriminate|reflexivity]|].
    split; [split; [discriminate|reflexivity]|].
    split; [split; [discriminate|reflexivity]|reflexivity]. }
  assert (H2 : bookkeeping (segment_fresh 0 config_1024)) by reflexivity.
  split; [exact H1|]. split; [exact H2|].
  apply (segment_Read_past_end wire.Unmarshal _ 0 H1 H2).
  - discriminate.
  - split; [discriminate|reflexivity].
  - reflexivity.
Defined.

Lemma segment_Append_keeps_records_witness :
  snd (segment.Append wire.Marshal (segment_fresh 0 (config_of 1024 12 0)) rec_hello)
  = Ok 0
  /\ snd (segment.Append wire.Marshal
            (fst (fst (segment.Append wire.Marshal
                         (segment_fresh 0 (config_of 1024 12 0)) rec_hello)))
            rec_world)
     = Err EOF
  /\ exists s',
      segment.Read wire.Unmarshal
        (fst (fst (segment.Append wire.Marshal
                     (fst (fst (segment.Append wire.Marshal
                                  (segment_fresh 0 (config_of 1024 12 0))
                                  rec_hello)))
                     rec_world)))
        0
      = (s', Ok rec_hello).
Proof.
  split; [reflexivity|]. split; [reflexivity|].
  assert (R0 : represents wire.Unmarshal (segment_fresh 0 (config_of 1024 12 0)) []).
  { apply fresh_represents; split; reflexivity || discriminate. }
  assert (K := Append_keeps_represents wire.Marshal wire.Unmarshal _ _ rec_hello R0).
  assert (E : snd (segment.Append wire.Marshal
                     (segment_fresh 0 (config_of 1024 12 0)) rec_hello) = Ok 0)
    by reflexivity.
  rewrite E in K. cbn [app] in K.
  refine (segment_Append_keeps_records wire.Marshal wire.Unmarshal _ _ rec_world
            0%nat rec_hello (K _) _ _ eq_refl).
  - intros p Ep. vm_compute in Ep. injection Ep as <-. split; reflexivity.
  - reflexivity.
  - intros p Ep. vm_compute in Ep. injection Ep as <-. split; reflexivity.
Defined.

Lemma segment_not_maxed_Append_witness :
  well_formed (segment_fresh 0 (config_of 1024 24 0))
  /\ segment.IsMaxed (segment_fresh 0 (config_of 1024 24 0)) = false
  /\ snd (segment.Append wire.Marshal (segment_fresh 0 (config_of 1024 24 0))
            rec_hello)
     = Ok 0.
Proof.
  assert (W : well_formed (segment_fresh 0 (config_of 1024 24 0))).
  { apply (represents_well_formed wire.Unmarshal _ []).
    apply fresh_represents; split; reflexivity || discriminate. }
  assert (M : segment.IsMaxed (segment_fresh 0 (config_of 1024 24 0)) = false)
    by reflexivity.
  split; [exact W|]. split; [exact M|].
  refine (proj1 (proj2 (segment_not_maxed_Append wire.Marshal _ rec_hello
                          (wire.tagValue :: byte.of_Z 5 :: api.Value rec_hello) W eq_refl eq_refl M _ _))).
  - reflexivity.
  - reflexivity.
Defined.

Lemma segment_Append_index_full_witness :
  well_formed segment_85
  /\ snd (segment.Append wire.Marshal segment_85 rec_hello) = Err EOF
  /\ store.size (segment.store
                   (fst (fst (segment.Append wire.Marshal segment_85 rec_hello))))
     = store.size (segment.store segment_85) + 8
       + Go.len (wire.tagValue :: byte.of_Z 5 :: api.Value rec_hello
                 ++ [wire.tagOffset; byte.of_Z 85]).
Proof.
  assert (R0 : represents wire.Unmarshal (segment_fresh 0 config_index_1024) []).
  { apply fresh_represents; split; reflexivity || discriminate. }
  assert (W : well_formed segment_85).
  { destruct (appends_represents wire.Marshal wire.Unmarshal 27
                (repeat rec_hello 85) (segment_fresh 0 config_index_1024) [] R0)
      as (s & EA & R & _).
    - apply Forall_forall. intros x Hx. apply repeat_spec in Hx. subst x.
      apply (wire_encodable rec_hello). reflexivity.
    - vm_compute. discriminate.
    - reflexivity.
    - unfold segment_85. rewrite EA.
      exact (represents_well_formed wire.Unmarshal s _ R). }
  split; [exact W|].
  destruct (segment_Append_index_full wire.Marshal segment_85 rec_hello
              (wire.tagValue :: byte.of_Z 5 :: api.Value rec_hello
               ++ [wire.tagOffset; byte.of_Z 85]) W)
    as (H1 & H2 & _); [reflexivity|reflexivity|reflexivity|].
  split; [exact H1|exact H2].
Defined.

Lemma segment_IsMaxed_stays_witness :
  segment.IsMaxed (segment_fresh 0 (config_of 0 24 0)) = true
  /\ snd (segment.Append wire.Marshal (segment_fresh 0 (config_of 0 24 0)) rec_hello)
     = Ok 0
  /\ segment.IsMaxed
       (fst (fst (segment.Append wire.Marshal (segment_fresh 0 (config_of 0 24 0))
                    rec_hello)))
     = true.
Proof.
  split; [reflexivity|]. split; [reflexivity|].
  apply (segment_IsMaxed_stays wire.Marshal).
  - apply (represents_well_formed wire.Unmarshal _ []).
    apply fresh_represents; split; reflexivity || discriminate.
  - intros p Ep. vm_compute in Ep. injection Ep as <-. reflexivity.
  - reflexivity.
Defined.

Lemma segment_Append_writer_error_witness :
  segment.Append wire.Marshal
    {| segment.store :=
         {| store.File := []; store.size := 0;
            store.buf := {| store.buffered := [];
                            store.err := Some (ErrWriter 5) |} |};
       segment.index := index_empty_24;
       segment.baseOffset := 0; segment.nextOffset := 0;
       segment.config := config_of 1024 24 0 |}
    rec_hello
  = ({| segment.store :=
          {| store.File := []; store.size := 0;
             store.buf := {| store.buffered := [];
                             store.err := Some (ErrWriter 5) |} |};
        segment.index := index_empty_24;
        segment.baseOffset := 0; segment.nextOffset := 0;
        segment.config := config_of 1024 24 0 |},
     rec_hello, Err (ErrWriter 5)).
Proof.
  exact (proj1 (segment_Append_writer_error wire.Marshal wire.Unmarshal
                  {| segment.store :=
                       {| store.File := []; store.size := 0;
                          store.buf := {| store.buffered := [];
                                          store.err := Some (ErrWriter 5) |} |};
                     segment.index := index_empty_24;
                     segment.baseOffset := 0; segment.nextOffset := 0;
                     segment.config := config_of 1024 24 0 |}
                  rec_hello
                  (wire.tagValue :: byte.of_Z 5 :: api.Value rec_hello)
                  (ErrWriter 5) eq_refl eq_refl)).
Defined.

(** ** Closing, reopening and removing a segment *)

Lemma append_inv_head (s a b : string) :
  (s ++ a)%string = (s ++ b)%string -> a = b.
Proof.
  induction s as [|ch s IH]; cbn [String.append]; intros H.
  - exact H.
  - injection H as H. exact (IH H).
Qed.

Lemma store_name_not_index (baseOffset : Z) :
  String.eqb (segment.fileName baseOffset ".store")
    (segment.fileName baseOffset ".index") = false.
Proof.
  apply String.eqb_neq. unfold segment.fileName. intros H.
  apply append_inv_head in H. discriminate.
Qed.

Lemma newSegment_baseOffset (dir : segment.Dir) (baseOffset : Z) (c : Config)
      (s : segment.t) :
  segment.newSegment dir baseOffset c = Ok s ->
  segment.baseOffset s = baseOffset /\ segment.config s = c.
Proof.
  unfold segment.newSegment.
  destruct (store.newStore _); try discriminate.
  destruct (index.newIndex _ _); try discriminate.
  destruct (index.Read _ _) as [[off pos]| |]; try discriminate;
    intros H; injection H as <-; split; reflexivity.
Qed.

Section Restart.

Variable Unmarshal : list byte -> outcome api.Record_.

(** X16: A segment that is closed and opened again holds the same records.
    [Close] of a segment of at most [2 ^ 32] records succeeds; [newSegment]
    on the two files it leaves, with an index limit that the entries fit,
    has the same next offset, and [Read] returns every record of the
    segment at its offset. *)
Theorem segment_Close_reopen (s : segment.t) (rs : list api.Record_)
        (c : Config) :
  represents Unmarshal s rs ->
  Go.len rs <= 2 ^ 32 ->
  12 * Go.len rs <= MaxIndexBytes (Segment c) ->
  0 < MaxIndexBytes (Segment c) < 2 ^ 63 ->
  exists indexFile storeFile s',
    segment.Close s = Ok (indexFile, storeFile)
    /\ segment.newSegment
         (dir_with_files (segment.baseOffset s) indexFile storeFile)
         (segment.baseOffset s) c = Ok s'
    /\ segment.nextOffset s' = segment.nextOffset s
    /\ forall i r,
        nth_error rs i = Some r ->
        exists s'',
          segment.Read Unmarshal s'
            (Go.uint64 (segment.baseOffset s + Z.of_nat i))
          = (s'', Ok r).
Proof.
  intros R Hcap Hroom HM.
  destruct (reopen_represents Unmarshal s rs
              (dir_with_files (segment.baseOffset s)
                 (match segment.Close s with Ok (f, _) => f | _ => [] end)
                 (match segment.Close s with Ok (_, f) => f | _ => [] end))
              c R Hcap Hroom HM)
    as (indexFile & storeFile & EC & H).
  rewrite EC in H.
  destruct H as (s' & EN & R' & En).
  - unfold dir_with_files. rewrite String.eqb_refl. reflexivity.
  - unfold dir_with_files. rewrite store_name_not_index, String.eqb_refl.
    reflexivity.
  - exists indexFile, storeFile, s'.
    split; [exact EC|]. split; [exact EN|]. split; [exact En|].
    intros i r Hi.
    destruct (newSegment_baseOffset _ _ _ _ EN) as [Eb _].
    destruct (Read_held Unmarshal s' rs i r R' Hcap Hi) as (s'' & ER & _).
    rewrite Eb in ER. exists s''. exact ER.
Qed.

End Restart.

Lemma segment_Close_reopen_witness :
  exists indexFile storeFile s' s'',
    segment.Close
      (fst (segment.appends wire.Marshal (segment_fresh 5 config_1024)
              [rec_hello; rec_world]))
    = Ok (indexFile, storeFile)
    /\ segment.newSegment (dir_with_files 5 indexFile storeFile) 5 config_1024
       = Ok s'
    /\ segment.nextOffset s' = 7
    /\ segment.Read wire.Unmarshal s' 6
       = (s'', Ok {| api.Value := api.Value rec_world; api.Offset := 6 |}).
Proof.
  assert (R0 : represents wire.Unmarshal (segment_fresh 5 config_1024) []).
  { apply fresh_represents; split; reflexivity || discriminate. }
  destruct (appends_represents wire.Marshal wire.Unmarshal 27
              [rec_hello; rec_world] (segment_fresh 5 config_1024) [] R0)
    as (s & EA & R & Eb & _).
  { constructor; [|constructor; [|constructor]].
    - apply (wire_encodable rec_hello). reflexivity.
    - apply (wire_encodable rec_world). reflexivity. }
  { discriminate. }
  { reflexivity. }
  rewrite EA. cbn [fst].
  cbn [segment_fresh segment.nextOffset segment.baseOffset app stamp] in R, Eb.
  destruct (segment_Close_reopen wire.Unmarshal s _ config_1024 R)
    as (indexFile & storeFile & s' & EC & EN & En & HR);
    [discriminate|discriminate|split; reflexivity|].
  destruct (HR 1%nat _ eq_refl) as (s'' & ER).
  rewrite Eb in EN, ER.
  exists indexFile, storeFile, s', s''.
  split; [exact EC|]. split; [exact EN|]. split; [|exact ER].
  rewrite En. rewrite (rep_next _ _ _ R), Eb. reflexivity.
Defined.

(** X17: A segment that is removed leaves nothing behind.  [Remove] of a segment
    whose writer holds no error succeeds; the directory then holds neither
    file of the segment and every other file as before, and a segment opened
    in it at the same base offset is a new, empty segment. *)
Theorem segment_Remove_reopen (s : segment.t) (dir : segment.Dir) (c : Config) :
  store.err (store.buf (segment.store s)) = None ->
  0 <= index.size (segment.index s) < 2 ^ 63 ->
  0 < MaxIndexBytes (Segment c) < 2 ^ 63 ->
  exists dir',
    segment.Remove dir s = Ok dir'
    /\ dir' (segment.fileName (segment.baseOffset s) ".index") = None
    /\ dir' (segment.fileName (segment.baseOffset s) ".store") = None
    /\ (forall name,
          name <> segment.fileName (segment.baseOffset s) ".index" ->
          name <> segment.fileName (segment.baseOffset s) ".store" ->
          dir' name = dir name)
    /\ segment.newSegment dir' (segment.baseOffset s) c
       = Ok (segment_fresh (segment.baseOffset s) c).
Proof.
  intros Herr Hs HM.
  set (idx := segment.fileName (segment.baseOffset s) ".index").
  set (st := segment.fileName (segment.baseOffset s) ".store").
  exists (segment.os_Remove (segment.os_Remove dir idx) st).
  assert (Hi : segment.os_Remove (segment.os_Remove dir idx) st idx = None).
  { unfold segment.os_Remove. destruct (String.eqb idx st); [reflexivity|].
    rewrite String.eqb_refl. reflexivity. }
  assert (Hst : segment.os_Remove (segment.os_Remove dir idx) st st = None).
  { unfold segment.os_Remove. rewrite String.eqb_refl. reflexivity. }
  split; [|split; [exact Hi|split; [exact Hst|split]]].
  - unfold segment.Remove, segment.Close, index.Close, store.Close.
    rewrite int64_small by lia.
    destruct (Z.ltb_spec (index.size (segment.index s)) 0); [lia|].
    rewrite store_Flush_ok by exact Herr. reflexivity.
  - intros name H1 H2. unfold segment.os_Remove.
    apply String.eqb_neq in H1, H2. fold idx in H1. fold st in H2.
    rewrite H1, H2. reflexivity.
  - destruct (newSegment_opens
                (segment.os_Remove (segment.os_Remove dir idx) st)
                (segment.baseOffset s) c HM) as (next & EN & Hnext & _).
    + unfold segment.OpenFile. fold idx. rewrite Hi.
      change (Go.len (@nil byte)) with 0. lia.
    + rewrite EN. f_equal.
      unfold segment.OpenFile in Hnext. fold idx in Hnext. rewrite Hi in Hnext.
      rewrite (Hnext ltac:(reflexivity)).
      unfold opened, segment_fresh, segment.OpenFile.
      fold idx st. rewrite Hi, Hst.
      cbn [app length]. rewrite Nat.sub_0_r. reflexivity.
Qed.

Lemma segment_Remove_reopen_witness :
  exists dir',
    segment.Remove
      (dir_with_files 0 (be_bytes 4 0 ++ be_bytes 8 0)
         (be_bytes 8 7 ++ [Byte.x0a; Byte.x05; Byte.x68; Byte.x65; Byte.x6c;
                           Byte.x6c; Byte.x6f]))
      (fst (fst (segment.Append wire.Marshal (segment_fresh 0 config_1024)
                   rec_hello)))
    = Ok dir'
    /\ segment.newSegment dir' 0 config_1024 = Ok (segment_fresh 0 config_1024).
Proof.
  destruct (segment_Remove_reopen
              (fst (fst (segment.Append wire.Marshal
                           (segment_fresh 0 config_1024) rec_hello)))
              (dir_with_files 0 (be_bytes 4 0 ++ be_bytes 8 0)
                 (be_bytes 8 7 ++ [Byte.x0a; Byte.x05; Byte.x68; Byte.x65;
                                   Byte.x6c; Byte.x6c; Byte.x6f]))
              config_1024)
    as (dir' & ER & _ & _ & _ & EN).
  - reflexivity.
  - split; [discriminate|reflexivity].
  - split; reflexivity.
  - exists dir'. split; [exact ER|exact EN].
Defined.

(** * The servers *)

(** ** The in-memory log *)

Lemma Log_Read_inside (c : server.Log) (off : Z) (r : server.Record_) :
  Go.len (server.records c) < 2 ^ 64 -> 0 <= off ->
  nth_error (server.records c) (Z.to_nat off) = Some r ->
  server.Read c off = Done r.
Proof.
  intros Hl Hoff Hr. unfold server.Read.
  assert (Hlt : (Z.to_nat off < length (server.records c))%nat)
    by (apply nth_error_Some; congruence).
  rewrite uint64_small by (pose proof (len_nonneg (server.records c)); lia).
  destruct (Z.leb_spec (Go.len (server.records c)) off) as [H|H].
  - unfold Go.len in H. lia.
  - rewrite Hr. reflexivity.
Qed.

Lemma Log_Read_outside (c : server.Log) (off : Z) :
  Go.len (server.records c) < 2 ^ 64 ->
  Go.len (server.records c) <= off ->
  server.Read c off = Failed server.ErrOffsetNotFound.
Proof.
  intros Hl Hoff. unfold server.Read.
  rewrite uint64_small by (pose proof (len_nonneg (server.records c)); lia).
  destruct (Z.leb_spec (Go.len (server.records c)) off); [reflexivity|lia].
Qed.

(** X18: [Read] finds an offset exactly when the log holds a record for it: it
    fails with [ErrOffsetNotFound] for every offset from the length of the
    log on, on an empty log for every offset, returns the record at the
    offset otherwise, and never panics. *)
Theorem Log_Read_found (c : server.Log) (off : Z) :
  Go.len (server.records c) < 2 ^ 64 -> 0 <= off ->
  (Go.len (server.records c) <= off <->
   server.Read c off = Failed server.ErrOffsetNotFound)
  /\ (off < Go.len (server.records c) <->
      exists r, server.Read c off = Done r
                /\ nth_error (server.records c) (Z.to_nat off) = Some r)
  /\ server.Read c off <> Crashed.
Proof.
  intros Hl Hoff.
  destruct (Z.leb_spec (Go.len (server.records c)) off) as [H|H].
  - rewrite (Log_Read_outside c off Hl H).
    split; [split; [reflexivity|intros _; exact H]|].
    split; [|discriminate].
    split; [lia|]. intros (r & Hr & _). discriminate.
  - destruct (nth_error (server.records c) (Z.to_nat off)) as [r|] eqn:Hr.
    + rewrite (Log_Read_inside c off r Hl Hoff Hr).
      split; [split; [lia|discriminate]|].
      split; [|discriminate].
      split; [|intros _; exact H]. intros _. exists r. split; reflexivity.
    + apply nth_error_None in Hr. unfold Go.len in H. lia.
Qed.

Lemma Log_Read_found_witness :
  server.Read server.NewLog 0 = Failed server.ErrOffsetNotFound
  /\ exists r,
      server.Read (fst (server.Append server.NewLog
                          {| server.Value := [Byte.x68]; server.Offset := 9 |})) 0
      = Done r.
Proof.
  split.
  - apply (Log_Read_found server.NewLog 0); [reflexivity|discriminate|].
    discriminate.
  - assert (H := Log_Read_found
                   (fst (server.Append server.NewLog
                           {| server.Value := [Byte.x68]; server.Offset := 9 |}))
                   0 eq_refl).
    destruct H as (_ & H & _); [discriminate|].
    destruct (proj1 H eq_refl) as (r & Hr & _).
    exists r. exact Hr.
Defined.

(** X19: An appended record is read back, and the log only grows.  [Append]
    never fails and returns the number of records that the log held; [Read]
    at that offset returns the value that was appended, with the offset as
    its offset field whatever the caller had put there, and [Read] at every
    other offset returns what it returned before the append. *)
Theorem Log_Append_Read (c : server.Log) (record : server.Record_) :
  Go.len (server.records c) < 2 ^ 64 - 1 ->
  snd (server.Append c record) = Done (Go.len (server.records c))
  /\ server.Read (fst (server.Append c record)) (Go.len (server.records c))
     = Done {| server.Value := server.Value record;
               server.Offset := Go.len (server.records c) |}
  /\ forall off, 0 <= off -> off <> Go.len (server.records c) ->
                 server.Read (fst (server.Append c record)) off
                 = server.Read c off.
Proof.
  intros Hl. pose proof (len_nonneg (server.records c)) as H0.
  unfold server.Append. cbn [fst snd server.Offset].
  rewrite uint64_small by lia.
  assert (Hl' : Go.len (server.records c
                        ++ [{| server.Value := server.Value record;
                               server.Offset := Go.len (server.records c) |}])
                = Go.len (server.records c) + 1).
  { rewrite len_app. reflexivity. }
  split; [reflexivity|]. split.
  - apply Log_Read_inside; cbn [server.records]; [lia|lia|].
    unfold Go.len. rewrite Nat2Z.id, nth_error_app2, Nat.sub_diag by lia.
    reflexivity.
  - intros off Hoff Hne.
    destruct (Z.ltb_spec off (Go.len (server.records c))) as [Hin|Hout].
    + destruct (nth_error (server.records c) (Z.to_nat off)) as [r|] eqn:Hr.
      * rewrite (Log_Read_inside c off r) by (try assumption; lia).
        apply Log_Read_inside; cbn [server.records]; [lia|lia|].
        rewrite nth_error_app1; [exact Hr|]. unfold Go.len in Hin. lia.
      * apply nth_error_None in Hr. unfold Go.len in Hin. lia.
    + rewrite (Log_Read_outside c off) by lia.
      apply Log_Read_outside; cbn [server.records]; lia.
Qed.

Lemma Log_Append_Read_witness :
  snd (server.Append server.NewLog
         {| server.Value := [Byte.x68]; server.Offset := 9 |}) = Done 0
  /\ server.Read (fst (server.Append server.NewLog
                         {| server.Value := [Byte.x68]; server.Offset := 9 |})) 0
     = Done {| server.Value := [Byte.x68]; server.Offset := 0 |}.
Proof.
  destruct (Log_Append_Read server.NewLog
              {| server.Value := [Byte.x68]; server.Offset := 9 |} eq_refl)
    as (H1 & H2 & _).
  split; [exact H1|exact H2].
Defined.

(** X20: The offsets of the log are the positions of its records.  After a run
    of appends to a new log, [Read] at [i] returns the value of the record
    that was appended as number [i], with [i] as its offset field, and
    [Read] at the number of records fails with [ErrOffsetNotFound]. *)
Theorem Log_run (rs : list server.Record_) :
  Go.len rs < 2 ^ 64 ->
  (forall i r,
      nth_error rs i = Some r ->
      server.Read (fold_left (fun c r => fst (server.Append c r)) rs server.NewLog)
        (Z.of_nat i)
      = Done {| server.Value := server.Value r; server.Offset := Z.of_nat i |})
  /\ server.Read (fold_left (fun c r => fst (server.Append c r)) rs server.NewLog)
       (Go.len rs)
     = Failed server.ErrOffsetNotFound.
Proof.
  intros Hl.
  assert (Inv : length (server.records
                          (fold_left (fun c r => fst (server.Append c r)) rs
                             server.NewLog)) = length rs
                /\ forall i r,
                    nth_error rs i = Some r ->
                    nth_error (server.records
                                 (fold_left (fun c r => fst (server.Append c r)) rs
                                    server.NewLog)) i
                    = Some {| server.Value := server.Value r;
                              server.Offset := Z.of_nat i |}).
  { induction rs as [|r0 rs IH] using rev_ind.
    - split; [reflexivity|]. intros [|i] r H; discriminate.
    - rewrite len_app in Hl. change (Go.len [r0]) with 1 in Hl.
      destruct (IH ltac:(lia)) as [IL IR].
      rewrite fold_left_app. cbn [fold_left].
      set (c := fold_left (fun c r => fst (server.Append c r)) rs server.NewLog)
        in *.
      unfold server.Append. cbn [fst server.records].
      split; [rewrite !length_app, IL; reflexivity|].
      intros i r Hi.
      destruct (Nat.lt_ge_cases i (length rs)) as [Hlt|Hge].
      + rewrite nth_error_app1 in Hi by exact Hlt.
        rewrite nth_error_app1 by (rewrite IL; exact Hlt).
        apply IR. exact Hi.
      + assert (Hi' : (i < length (rs ++ [r0]))%nat)
          by (apply nth_error_Some; congruence).
        rewrite length_app in Hi'. cbn [length] in Hi'.
        assert (i = length rs) by lia. subst i.
        rewrite nth_error_app2, Nat.sub_diag in Hi by lia.
        injection Hi as <-.
        rewrite nth_error_app2, IL, Nat.sub_diag by lia. cbn [nth_error].
        do 2 f_equal. unfold Go.len. rewrite IL.
        apply uint64_small. unfold Go.len in Hl. lia. }
  destruct Inv as [IL IR].
  set (c := fold_left (fun c r => fst (server.Append c r)) rs server.NewLog) in *.
  assert (Hc : Go.len (server.records c) = Go.len rs)
    by (unfold Go.len; rewrite IL; reflexivity).
  split.
  - intros i r Hi. apply Log_Read_inside; [lia|lia|].
    rewrite Nat2Z.id. apply IR. exact Hi.
  - apply Log_Read_outside; lia.
Qed.

Lemma Log_run_witness :
  server.Read
    (fold_left (fun c r => fst (server.Append c r))
       [{| server.Value := [Byte.x61]; server.Offset := 7 |};
        {| server.Value := [Byte.x62]; server.Offset := 7 |}] server.NewLog) 1
  = Done {| server.Value := [Byte.x62]; server.Offset := 1 |}.
Proof.
  exact (proj1 (Log_run [{| server.Value := [Byte.x61]; server.Offset := 7 |};
                         {| server.Value := [Byte.x62]; server.Offset := 7 |}]
                  eq_refl) 1%nat _ eq_refl).
Defined.

(** ** The HTTP handlers *)

Section HandlerProperties.

Variable decodeProduce : string -> result server.error server.ProduceRequest.
Variable decodeConsume : string -> result server.error server.ConsumeRequest.
Variable encodeProduce : server.ProduceResponse -> result server.error string.
Variable encodeConsume : server.ConsumeResponse -> result server.error string.

(** X21: [handleProduce] appends exactly when the body of the request decodes.
    A body that does not decode is answered with status 400 and the text of
    the error, and the log stays as it is.  A body that decodes adds its
    record to the log under the next offset, also when the response cannot
    be encoded: the answer is then status 500, and status 200 with the
    encoded offset otherwise. *)
Theorem handleProduce_appends (s : server.httpServer) (r : string) :
  Go.len (server.records (server.httpServer_Log s)) < 2 ^ 64 - 1 ->
  (forall err,
      decodeProduce r = Failed err ->
      server.handleProduce decodeProduce encodeProduce s
        {| server.status := 0; server.body := "" |} r
      = (s, Some {| server.status := 400;
                    server.body := (server.Error err ++ newline)%string |}))
  /\ (forall req,
        decodeProduce r = Done req ->
        server.records
          (server.httpServer_Log
             (fst (server.handleProduce decodeProduce encodeProduce s
                     {| server.status := 0; server.body := "" |} r)))
        = server.records (server.httpServer_Log s)
          ++ [{| server.Value := server.Value (server.ProduceRequest_Record req);
                 server.Offset := Go.len (server.records (server.httpServer_Log s)) |}]
        /\ snd (server.handleProduce decodeProduce encodeProduce s
                  {| server.status := 0; server.body := "" |} r)
           = match encodeProduce
                     {| server.ProduceResponse_Offset :=
                          Go.len (server.records (server.httpServer_Log s)) |} with
             | Done text =>
                 Some {| server.status := 200;
                         server.body := (text ++ newline)%string |}
             | Failed err =>
                 Some {| server.status := 500;
                         server.body := (server.Error err ++ newline)%string |}
             | Crashed => None
             end).
Proof.
  intros Hl. pose proof (len_nonneg (server.records (server.httpServer_Log s))).
  split.
  - intros err E. unfold server.handleProduce. rewrite E. reflexivity.
  - intros req E. unfold server.handleProduce, server.Append. rewrite E.
    cbn [server.Offset]. rewrite uint64_small by lia.
    destruct (encodeProduce _) as [text|err|]; split; reflexivity.
Qed.

(** X22: [handleConsume] answers 404 exactly for the offsets that the log does
    not hold.  For a body that decodes, an offset from the length of the log
    on is answered with status 404 and the text "offset not found"; an
    offset below it is answered with status 200 and the encoded record at
    that offset, or with status 500 when the record cannot be encoded.
    The log stays as it is. *)
Theorem handleConsume_status (s : server.httpServer) (r : string)
        (req : server.ConsumeRequest) :
  Go.len (server.records (server.httpServer_Log s)) < 2 ^ 64 ->
  0 <= server.ConsumeRequest_Offset req ->
  decodeConsume r = Done req ->
  fst (server.handleConsume decodeConsume encodeConsume s
         {| server.status := 0; server.body := "" |} r) = s
  /\ (Go.len (server.records (server.httpServer_Log s))
      <= server.ConsumeRequest_Offset req ->
      snd (server.handleConsume decodeConsume encodeConsume s
             {| server.status := 0; server.body := "" |} r)
      = Some {| server.status := 404;
                server.body := ("offset not found" ++ newline)%string |})
  /\ (forall record,
        nth_error (server.records (server.httpServer_Log s))
          (Z.to_nat (server.ConsumeRequest_Offset req)) = Some record ->
        snd (server.handleConsume decodeConsume encodeConsume s
               {| server.status := 0; server.body := "" |} r)
        = match encodeConsume {| server.ConsumeResponse_Record := record |} with
          | Done text =>
              Some {| server.status := 200;
                      server.body := (text ++ newline)%string |}
          | Failed err =>
              Some {| server.status := 500;
                      server.body := (server.Error err ++ newline)%string |}
          | Crashed => None
          end).
Proof.
  intros Hl Hoff E. unfold server.handleConsume. rewrite E.
  split; [|split].
  - destruct (server.Read _ _) as [record|[|msg]|]; try reflexivity.
    destruct (encodeConsume _); reflexivity.
  - intros Hout. rewrite Log_Read_outside by assumption. reflexivity.
  - intros record Hr. rewrite (Log_Read_inside _ _ record) by assumption.
    destruct (encodeConsume _); reflexivity.
Qed.

(** X23: A record that was produced is consumed.  When a produce request is
    handled, the response carries the offset of the new record, and a
    consume request for that offset, handled afterwards, is answered with
    status 200 and the value that was produced, with the offset as its
    offset field. *)
Theorem produce_consume_round_trip (s : server.httpServer) (r1 r2 : string)
        (req : server.ProduceRequest) (text1 text2 : string) :
  Go.len (server.records (server.httpServer_Log s)) < 2 ^ 64 - 1 ->
  decodeProduce r1 = Done req ->
  encodeProduce {| server.ProduceResponse_Offset :=
                     Go.len (server.records (server.httpServer_Log s)) |}
  = Done text1 ->
  decodeConsume r2
  = Done {| server.ConsumeRequest_Offset :=
              Go.len (server.records (server.httpServer_Log s)) |} ->
  encodeConsume
    {| server.ConsumeResponse_Record :=
         {| server.Value := server.Value (server.ProduceRequest_Record req);
            server.Offset := Go.len (server.records (server.httpServer_Log s)) |} |}
  = Done text2 ->
  snd (server.handleProduce decodeProduce encodeProduce s
         {| server.status := 0; server.body := "" |} r1)
  = Some {| server.status := 200; server.body := (text1 ++ newline)%string |}
  /\ snd (server.handleConsume decodeConsume encodeConsume
            (fst (server.handleProduce decodeProduce encodeProduce s
                    {| server.status := 0; server.body := "" |} r1))
            {| server.status := 0; server.body := "" |} r2)
     = Some {| server.status := 200; server.body := (text2 ++ newline)%string |}.
Proof.
  intros Hl E1 P1 E2 P2.
  pose proof (len_nonneg (server.records (server.httpServer_Log s))) as H0.
  unfold server.handleProduce, server.Append. rewrite E1.
  cbn [server.Offset]. rewrite uint64_small by lia. rewrite P1.
  cbn [fst snd].
  split; [reflexivity|].
  unfold server.handleConsume. rewrite E2.
  cbn [server.httpServer_Log server.ConsumeRequest_Offset].
  rewrite (Log_Read_inside _ _
             {| server.Value := server.Value (server.ProduceRequest_Record req);
                server.Offset := Go.len (server.records (server.httpServer_Log s)) |}).
  - rewrite P2. reflexivity.
  - cbn [server.records]. rewrite len_app. change (Go.len [_]) with 1. lia.
  - exact H0.
  - cbn [server.records]. unfold Go.len.
    rewrite Nat2Z.id, nth_error_app2, Nat.sub_diag by lia. reflexivity.
Qed.

End HandlerProperties.

Lemma handleProduce_appends_witness :
  server.handleProduce (fun _ => Failed (server.ErrJSON "unexpected end"))
    (fun _ => Done "{}"%string) server.newHTTPServer
    {| server.status := 0; server.body := "" |} "{"
  = (server.newHTTPServer,
     Some {| server.status := 400;
             server.body := ("unexpected end" ++ newline)%string |}).
Proof.
  exact (proj1 (handleProduce_appends
                  (fun _ => Failed (server.ErrJSON "unexpected end"))
                  (fun _ => Done "{}"%string) server.newHTTPServer "{" eq_refl)
           (server.ErrJSON "unexpected end") eq_refl).
Defined.

Lemma handleConsume_status_witness :
  snd (server.handleConsume
         (fun _ => Done {| server.ConsumeRequest_Offset := 3 |})
         (fun _ => Done "{}"%string) server.newHTTPServer
         {| server.status := 0; server.body := "" |} "{}")
  = Some {| server.status := 404;
            server.body := ("offset not found" ++ newline)%string |}.
Proof.
  refine (proj1 (proj2 (handleConsume_status
                          (fun _ => Done {| server.ConsumeRequest_Offset := 3 |})
                          (fun _ => Done "{}"%string) server.newHTTPServer "{}"
                          {| server.ConsumeRequest_Offset := 3 |}
                          eq_refl _ eq_refl)) _); discriminate.
Defined.

Lemma produce_consume_round_trip_witness :
  snd (server.handleConsume
         (fun _ => Done {| server.ConsumeRequest_Offset := 0 |})
         (fun res => Done (if Z.eqb (server.Offset
                                       (server.ConsumeResponse_Record res)) 0
                           then "first"%string else "other"%string))
         (fst (server.handleProduce
                 (fun _ => Done {| server.ProduceRequest_Record :=
                                     {| server.Value := [Byte.x68];
                                        server.Offset := 5 |} |})
                 (fun _ => Done "0"%string) server.newHTTPServer
                 {| server.status := 0; server.body := "" |} "p"))
         {| server.status := 0; server.body := "" |} "c")
  = Some {| server.status := 200; server.body := ("first" ++ newline)%string |}.
Proof.
  exact (proj2 (produce_consume_round_trip
                  (fun _ => Done {| server.ProduceRequest_Record :=
                                      {| server.Value := [Byte.x68];
                                         server.Offset := 5 |} |})
                  (fun _ => Done {| server.ConsumeRequest_Offset := 0 |})
                  (fun _ => Done "0"%string)
                  (fun res => Done (if Z.eqb (server.Offset
                                                (server.ConsumeResponse_Record res)) 0
                                    then "first"%string else "other"%string))
                  server.newHTTPServer "p" "c" _ "0" "first"
                  eq_refl eq_refl eq_refl eq_refl eq_refl)).
Defined.

(** ** The gRPC server *)

Section StreamProperties.

Context {L E R : Type} {log : grpc.CommitLog L E R}.

Lemma Send_room (Out : Type) (out : grpc.Outbox E Out) (m : Out) :
  (0 < grpc.room out)%nat ->
  grpc.Send out m
  = ({| grpc.sent := grpc.sent out ++ [m];
        grpc.room := grpc.room out - 1;
        grpc.send_err := grpc.send_err out |}, None).
Proof.
  intros H. unfold grpc.Send. destruct (grpc.room out) as [|n]; [lia|].
  do 3 f_equal. lia.
Qed.

(** X24: [ProduceStream] never returns nil, and sends at most one response for
    each request: it ends with the error of [Recv], of the log or of [Send],
    or with a panic of the log, and what it has sent by then follows what was
    sent before. *)
Theorem ProduceStream_ends_in_error (inbox : list (grpc.ProduceRequest R))
        (l : L) (recv_err : E) (out : grpc.Outbox E grpc.ProduceResponse) :
  snd (grpc.ProduceStream l inbox recv_err out) <> Done tt
  /\ exists ms,
      grpc.sent (snd (fst (grpc.ProduceStream l inbox recv_err out)))
      = grpc.sent out ++ ms
      /\ (length ms <= length inbox)%nat
      /\ (grpc.room (snd (fst (grpc.ProduceStream l inbox recv_err out)))
          + length ms = grpc.room out)%nat.
Proof.
  revert l out. induction inbox as [|req rest IH]; intros l out.
  - cbn [grpc.ProduceStream fst snd]. split; [discriminate|].
    exists []. rewrite app_nil_r. cbn [length]. split; [reflexivity|]. lia.
  - cbn [grpc.ProduceStream]. unfold grpc.Produce.
    destruct (grpc.Append l (grpc.ProduceRequest_Record req)) as [l1 [o|e|]].
    + unfold grpc.Send. destruct (grpc.room out) as [|n] eqn:Hr.
      * cbn [fst snd]. split; [discriminate|].
        exists []. rewrite app_nil_r. cbn [length]. split; [reflexivity|]. lia.
      * destruct (IH l1 {| grpc.sent := grpc.sent out
                                        ++ [{| grpc.ProduceResponse_Offset := o |}];
                           grpc.room := n;
                           grpc.send_err := grpc.send_err out |})
          as (Hne & ms & Hs & Hl & Hroom).
        split; [exact Hne|].
        exists ({| grpc.ProduceResponse_Offset := o |} :: ms).
        rewrite Hs. cbn [grpc.sent grpc.room length] in *.
        rewrite <- app_assoc. split; [reflexivity|]. lia.
    + cbn [fst snd]. split; [discriminate|].
      exists []. rewrite app_nil_r. cbn [length]. split; [reflexivity|]. lia.
    + cbn [fst snd]. split; [discriminate|].
      exists []. rewrite app_nil_r. cbn [length]. split; [reflexivity|]. lia.
Qed.

(** X25: [ProduceStream] answers every request with the offset of its record.
    When the log appends the records of all requests and the stream takes
    as many responses, one response is sent for each request, in the order
    of the requests, with the offset that [Append] returned; the call ends
    with the error that [Recv] returns after the last request. *)
Theorem ProduceStream_answers (inbox : list (grpc.ProduceRequest R))
        (offsets : list Z) (l l' : L) (recv_err : E)
        (out : grpc.Outbox E grpc.ProduceResponse) :
  appended l (map grpc.ProduceRequest_Record inbox) offsets l' ->
  (length inbox <= grpc.room out)%nat ->
  grpc.ProduceStream l inbox recv_err out
  = (l',
     {| grpc.sent :=
          grpc.sent out
          ++ map (fun o => {| grpc.ProduceResponse_Offset := o |}) offsets;
        grpc.room := grpc.room out - length inbox;
        grpc.send_err := grpc.send_err out |},
     Failed recv_err).
Proof.
  revert offsets l out.
  induction inbox as [|req rest IH]; intros offsets l out HA Hroom.
  - inversion HA; subst. cbn [grpc.ProduceStream map length].
    rewrite app_nil_r, Nat.sub_0_r. destruct out; reflexivity.
  - cbn [map] in HA. inversion HA as [|? l1 ? ? ? o os EA HA']; subst.
    cbn [grpc.ProduceStream length] in *. unfold grpc.Produce. rewrite EA.
    rewrite Send_room by lia.
    rewrite (IH os l1 _ HA') by (cbn [grpc.room]; lia).
    cbn [grpc.sent grpc.room grpc.send_err map].
    rewrite <- app_assoc. do 3 f_equal. lia.
Qed.

(** X26: [ProduceStream] stops at the first record that the log refuses.  The
    requests before it are answered with the offsets of their records; the
    error of the log is returned, the request that failed and the requests
    after it get no response, and the later ones are not appended. *)
Theorem ProduceStream_stops (before after : list (grpc.ProduceRequest R))
        (req : grpc.ProduceRequest R) (offsets : list Z) (l l1 l2 : L)
        (e recv_err : E) (out : grpc.Outbox E grpc.ProduceResponse) :
  appended l (map grpc.ProduceRequest_Record before) offsets l1 ->
  grpc.Append l1 (grpc.ProduceRequest_Record req) = (l2, Failed e) ->
  (length before <= grpc.room out)%nat ->
  grpc.ProduceStream l (before ++ req :: after) recv_err out
  = (l2,
     {| grpc.sent :=
          grpc.sent out
          ++ map (fun o => {| grpc.ProduceResponse_Offset := o |}) offsets;
        grpc.room := grpc.room out - length before;
        grpc.send_err := grpc.send_err out |},
     Failed e).
Proof.
  revert offsets l out.
  induction before as [|b rest IH]; intros offsets l out HA HF Hroom.
  - inversion HA; subst. cbn [app grpc.ProduceStream map length].
    unfold grpc.Produce. rewrite HF.
    rewrite app_nil_r, Nat.sub_0_r. destruct out; reflexivity.
  - cbn [map] in HA. inversion HA as [|? l0 ? ? ? o os EA HA']; subst.
    cbn [app grpc.ProduceStream length] in *. unfold grpc.Produce. rewrite EA.
    rewrite Send_room by lia.
    rewrite (IH os l0 _ HA' HF) by (cbn [grpc.room]; lia).
    cbn [grpc.sent grpc.room grpc.send_err map].
    rewrite <- app_assoc. do 3 f_equal. lia.
Qed.

Variable isOffsetOutOfRange : E -> bool.

(** What the log holds while a stream is served: an invariant [Inv] of its
    states under [Read], and the result [held off] of reading [off]. *)
Variable Inv : L -> Prop.
Variable held : Z -> result E R.
Hypothesis Read_held_by_log :
  forall l off, Inv l ->
                Inv (fst (grpc.Read l off)) /\ snd (grpc.Read l off) = held off.



End StreamProperties.

Lemma ProduceStream_answers_witness :
  grpc.ProduceStream (log := list_log) []
    [{| grpc.ProduceRequest_Record := rec_a |};
     {| grpc.ProduceRequest_Record := rec_b |}]
    false {| grpc.sent := []; grpc.room := 5; grpc.send_err := false |}
  = ([api.set_Offset rec_a 0; api.set_Offset rec_b 1],
     {| grpc.sent := [{| grpc.ProduceResponse_Offset := 0 |};
                      {| grpc.ProduceResponse_Offset := 1 |}];
        grpc.room := 3; grpc.send_err := false |},
     Failed false).
Proof.
  refine (ProduceStream_answers (log := list_log)
            [{| grpc.ProduceRequest_Record := rec_a |};
             {| grpc.ProduceRequest_Record := rec_b |}]
            [0; 1] [] [api.set_Offset rec_a 0; api.set_Offset rec_b 1] false
            {| grpc.sent := []; grpc.room := 5; grpc.send_err := false |} _ _).
  - eapply appended_cons; [reflexivity|].
    eapply appended_cons; [reflexivity|]. apply appended_nil.
  - cbn [length grpc.room]. lia.
Defined.


Lemma ProduceStream_stops_witness :
  grpc.ProduceStream (log := capped_log 1) []
    [{| grpc.ProduceRequest_Record := rec_a |};
     {| grpc.ProduceRequest_Record := rec_b |};
     {| grpc.ProduceRequest_Record := rec_hello |}]
    true {| grpc.sent := []; grpc.room := 5; grpc.send_err := true |}
  = ([api.set_Offset rec_a 0],
     {| grpc.sent := [{| grpc.ProduceResponse_Offset := 0 |}];
        grpc.room := 4; grpc.send_err := true |},
     Failed false).
Proof.
  refine (ProduceStream_stops (log := capped_log 1)
            [{| grpc.ProduceRequest_Record := rec_a |}]
            [{| grpc.ProduceRequest_Record := rec_hello |}]
            {| grpc.ProduceRequest_Record := rec_b |}
            [0] [] [api.set_Offset rec_a 0] [api.set_Offset rec_a 0] false true
            {| grpc.sent := []; grpc.room := 5; grpc.send_err := true |} _ _ _).
  - eapply appended_cons; [reflexivity|]. apply appended_nil.
  - reflexivity.
  - cbn [length grpc.room]. lia.
Defined.
